(** * Musical Keys: the synthesis engine and the recording system

    A shallow embedding of [js/audio-engine.js] ([AudioEngine]) and
    [js/recording.js] ([RecordingSystem]), with the calls the page makes on
    them, of [js/input-handler.js] ([InputHandler]) and of the page script
    that wires them to the keys and the recording controls.

    The page is single-threaded: every method runs to completion, and the
    only suspension points are [setTimeout] callbacks.  The embedding is a
    deterministic machine over a [World] holding the audio graph, the
    engine, the recorder, the pending timers and one clock in milliseconds
    ([performance.now()], the timer clock and [audioContext.currentTime]
    advance together).  A timer fires when it is due.  What the host
    decides (whether a Web Audio call throws, what the file reader
    delivers) is an explicit input of each step.

    Notes are integers and velocities rationals, as the keys of the page
    give them to the engine.  A timestamp is a whole number of
    milliseconds or one of the other values the recorder can hold there
    ([NaN], an infinity, [null]).  An element of the recording is an event
    object or [null]; a loaded array with elements of other shapes is
    outside the embedding.  Console output is not state and is left out.  Frequencies
    ([midiToFrequency]) are kept symbolic: an oscillator remembers the note
    whose frequency it was given. *)

From Stdlib Require Import ZArith QArith Lia.
From stdpp Require Import base option list strings sorting.

Local Open Scope Z_scope.

(** ** Events and documents *)

(** What the property [timestamp] of an event object holds: a number of
    milliseconds, or what else a recording that was loaded or computed
    with can have there: [NaN], [Infinity] or [-Infinity], and [null]. *)
Inductive Stamp :=
| Ms (ms : Z)
| NotANumber
| Infinite (negative : bool)
| NullStamp.

(** The object literal built by [InputHandler.notifyRecorder]:
    [{ type, note, velocity, timestamp }]. Times are in milliseconds. *)
Record NoteEvent := mkNoteEvent {
  type : string;
  note : Z;
  velocity : Q;
  timestamp : Stamp
}.

(** An element of [recordedEvents]: an event object or, in an array that
    was loaded, [null]. *)
Inductive Entry :=
| EventObject (e : NoteEvent)
| NullEntry.

(** [recordingData] of [saveRecording]. *)
Record RecordingData := mkRecordingData {
  version : string;
  date : string;
  duration : Stamp;
  eventCount : nat;
  events : list Entry
}.

(** What the property [events] of a parsed document can hold.  The loader
    never looks inside the array and installs it as it is. *)
Inductive JSValue :=
| JSNull
| JSBoolean (b : bool)
| JSNumber (x : Q)
| JSString (s : string)
| JSObject
| JSArray (items : list Entry).


(** The result of [JSON.parse]: [null], a value on which the property
    [events] is undefined (a number, a string, a boolean, an array, an
    object without that key), or an object with the property. *)
Inductive ParsedData :=
| DataNull
| DataWithoutEvents
| DataWithEvents (ev : JSValue).

(** What the [FileReader] and [JSON.parse] deliver to [loadRecording]. *)
Inductive FileResult :=
| ReadFailed
| Unparseable
| Parsed (data : ParsedData).

Inductive LoadError :=
| FailedToReadFile
| SyntaxError
| TypeError
| InvalidRecordingFormat.

(** ** The audio graph *)

Inductive ParamEvent :=
| SetValueAtTime (v : option Q) (t : Z)   (* [None]: the value read from the param *)
| LinearRampToValueAtTime (v : Q) (t : Z)
| ExponentialRampToValueAtTime (v : Q) (t : Z).

Definition paramTime (e : ParamEvent) : Z :=
  match e with
  | SetValueAtTime _ t => t
  | LinearRampToValueAtTime _ t => t
  | ExponentialRampToValueAtTime _ t => t
  end.

Inductive AudioNode :=
| DestinationNode
| OscillatorNode (waveform : string) (pitch : option Z)
                 (startAt stopAt : option Z) (output : option nat)
| GainNode (value : Q) (automation : list ParamEvent) (output : option nat).

(** Nodes are never freed by the page; a node's identity is its index. *)
Abbreviation AudioGraph := (list AudioNode).

Definition AudioCommand := AudioGraph -> AudioGraph.

Definition createOscillator : AudioCommand :=
  fun g => g ++ [OscillatorNode "sine" None None None None].

Definition createGain : AudioCommand :=
  fun g => g ++ [GainNode 1 [] None].

Definition setOscType (osc : nat) (wf : string) : AudioCommand :=
  alter (fun n => match n with
                  | OscillatorNode _ p a b o => OscillatorNode wf p a b o
                  | _ => n end) osc.

Definition setFrequencyOf (osc : nat) (midi : Z) : AudioCommand :=
  alter (fun n => match n with
                  | OscillatorNode wf _ a b o => OscillatorNode wf (Some midi) a b o
                  | _ => n end) osc.

Definition setGainValue (gn : nat) (v : Q) : AudioCommand :=
  alter (fun n => match n with
                  | GainNode _ au o => GainNode v au o
                  | _ => n end) gn.

Definition connect (src : nat) (dst : option nat) : AudioCommand :=
  alter (fun n => match n with
                  | OscillatorNode wf p a b _ => OscillatorNode wf p a b dst
                  | GainNode v au _ => GainNode v au dst
                  | DestinationNode => n end) src.

Definition disconnect (src : nat) : AudioCommand := connect src None.

Definition schedule (gn : nat) (e : ParamEvent) : AudioCommand :=
  alter (fun n => match n with
                  | GainNode v au o => GainNode v (au ++ [e]) o
                  | _ => n end) gn.

Definition cancelScheduledValues (gn : nat) (t : Z) : AudioCommand :=
  alter (fun n => match n with
                  | GainNode v au o =>
                      GainNode v (filter (fun e => paramTime e < t) au) o
                  | _ => n end) gn.

Definition oscStart (osc : nat) (t : Z) : AudioCommand :=
  alter (fun n => match n with
                  | OscillatorNode wf p _ b o => OscillatorNode wf p (Some t) b o
                  | _ => n end) osc.

(** A later [stop] replaces the scheduled stop time. *)
Definition oscStop (osc : nat) (t : Z) : AudioCommand :=
  alter (fun n => match n with
                  | OscillatorNode wf p a _ o => OscillatorNode wf p a (Some t) o
                  | _ => n end) osc.

(** A [try] block of Web Audio calls.  The host says at which statement, if
    any, the block throws; the statements before it have taken effect. *)
Definition runAll (cmds : list AudioCommand) (g : AudioGraph) : AudioGraph :=
  foldl (fun acc c => c acc) g cmds.

Definition tryBlock (throwAt : option nat) (cmds : list AudioCommand)
    (g : AudioGraph) : AudioGraph * bool :=
  match throwAt with
  | Some k => if decide (k < length cmds)%nat
              then (runAll (take k cmds) g, false)
              else (runAll cmds g, true)
  | None => (runAll cmds g, true)
  end.

(** The host's verdict for the [try] block that concerns the voice whose
    oscillator is the given node. *)
Definition Host := nat -> option nat.

Definition reliable : Host := fun _ => None.

(** ** State *)

(** [{ osc, noteGain, startTime }] *)
Record Voice := mkVoice {
  osc : nat;
  noteGain : nat;
  startTime : Z
}.

(** [activeNotes] is a JS [Map] from note numbers to voices:
    insertion-ordered, one entry per key. *)
Abbreviation NoteMap := (list (Z * Voice)).

Fixpoint mapGet {V} (midi : Z) (m : list (Z * V)) : option V :=
  match m with
  | [] => None
  | (k, v) :: rest => if decide (k = midi) then Some v else mapGet midi rest
  end.

Definition mapHas {V} (midi : Z) (m : list (Z * V)) : bool :=
  match mapGet midi m with Some _ => true | None => false end.

Fixpoint mapSet {V} (midi : Z) (v : V) (m : list (Z * V)) : list (Z * V) :=
  match m with
  | [] => [(midi, v)]
  | (k, v') :: rest =>
      if decide (k = midi) then (k, v) :: rest else (k, v') :: mapSet midi v rest
  end.

Fixpoint mapDelete {V} (midi : Z) (m : list (Z * V)) : list (Z * V) :=
  match m with
  | [] => []
  | (k, v) :: rest =>
      if decide (k = midi) then rest else (k, v) :: mapDelete midi rest
  end.

Record AudioEngine := mkAudioEngine {
  isInitialized : bool;
  masterGain : option nat;
  activeNotes : NoteMap;
  activeNoteCount : Z
}.

Record RecordingSystem := mkRecordingSystem {
  isRecording : bool;
  isPlaying : bool;
  recordedEvents : list Entry;
  recordingStartTime : Z;
  playbackTimeouts : list nat
}.

(** The closures handed to [setTimeout]. *)
Inductive Callback :=
| ReleaseCleanup (midi : Z) (o g : nat)       (* [stopNote] *)
| PanicDisconnect (o g : nat)                 (* [stopAllNotes] *)
| PlaybackEvent (event : NoteEvent) (index : nat)  (* [playRecording] *)
| PlaybackFinish.                             (* the stop after the last event *)

Record Timer := mkTimer {
  timeoutId : nat;
  delay : Z;
  due : Z;
  callback : Callback
}.

(** The keys of the page ([.key] elements with their [data-note], if it
    parses, and whether they carry the class [active]) and the speaker
    icon, if the page has one. *)
Record Page := mkPage {
  keys : list (option Z * bool);
  speakerIcon : option bool
}.

Record World := mkWorld {
  clock : Z;
  nextTimeoutId : nat;
  timers : list Timer;
  graph : AudioGraph;
  audioEngine : AudioEngine;
  recordingSystem : RecordingSystem;
  page : Page
}.

Definition withClock (t : Z) (w : World) : World :=
  mkWorld t (nextTimeoutId w) (timers w) (graph w) (audioEngine w)
          (recordingSystem w) (page w).

Definition withTimers (ts : list Timer) (w : World) : World :=
  mkWorld (clock w) (nextTimeoutId w) ts (graph w) (audioEngine w)
          (recordingSystem w) (page w).

Definition withGraph (g : AudioGraph) (w : World) : World :=
  mkWorld (clock w) (nextTimeoutId w) (timers w) g (audioEngine w)
          (recordingSystem w) (page w).

Definition withEngine (e : AudioEngine) (w : World) : World :=
  mkWorld (clock w) (nextTimeoutId w) (timers w) (graph w) e
          (recordingSystem w) (page w).

Definition withRecorder (r : RecordingSystem) (w : World) : World :=
  mkWorld (clock w) (nextTimeoutId w) (timers w) (graph w) (audioEngine w)
          r (page w).

Definition withPage (p : Page) (w : World) : World :=
  mkWorld (clock w) (nextTimeoutId w) (timers w) (graph w) (audioEngine w)
          (recordingSystem w) p.

(** ** Timers *)

(** The timer takes its delay as a 32-bit integer ([long]): a number
    beyond 2147483647 wraps around. *)
Definition toInt32 (x : Z) : Z := (x + 2147483648) mod 4294967296 - 2147483648.

(** The milliseconds a timer waits when given the delay [d]: a negative
    delay counts as zero. *)
Definition timerDelay (d : Z) : Z := Z.max 0 (toInt32 d).

Arguments toInt32 : simpl never.
Arguments timerDelay : simpl never.

(** [setTimeout(cb, d)] *)
Definition setTimeout (cb : Callback) (d : Z) (w : World) : nat * World :=
  (nextTimeoutId w,
   mkWorld (clock w) (S (nextTimeoutId w))
           (timers w ++ [mkTimer (nextTimeoutId w) d (clock w + timerDelay d) cb])
           (graph w) (audioEngine w) (recordingSystem w) (page w)).

Definition clearTimeout (id : nat) (w : World) : World :=
  withTimers (filter (fun t => timeoutId t <> id) (timers w)) w.

(** The pending timer that fires next: the earliest due, the oldest among
    equals. *)
Fixpoint nextDue (ts : list Timer) : option Timer :=
  match ts with
  | [] => None
  | t :: rest =>
      match nextDue rest with
      | Some t' => if decide (due t' < due t) then Some t' else Some t
      | None => Some t
      end
  end.

(** ** AudioEngine *)

Definition boot (p : Page) : World :=
  mkWorld 0 0 [] [] (mkAudioEngine false None [] 0)
          (mkRecordingSystem false false [] 0 []) p.

(** [init()]: idempotent.  When the host refuses the audio context
    ([ok = false]) the error is rethrown and the engine stays
    uninitialised. *)
Definition init (ok : bool) (w : World) : World :=
  if isInitialized (audioEngine w) then w
  else if ok then
    let dest := length (graph w) in
    let master := S dest in
    let g := connect master (Some dest)
               (setGainValue master 1
                  (createGain (graph w ++ [DestinationNode]))) in
    withEngine (mkAudioEngine true (Some master)
                  (activeNotes (audioEngine w))
                  (activeNoteCount (audioEngine w)))
               (withGraph g w)
  else w.

Definition isReady (w : World) : bool := isInitialized (audioEngine w).

Definition getActiveNoteCount (w : World) : Z := activeNoteCount (audioEngine w).

(** [updateSpeakerIcon()] *)
Definition updateSpeakerIcon (w : World) : World :=
  match speakerIcon (page w) with
  | Some _ =>
      withPage (mkPage (keys (page w))
                       (Some (bool_decide (0 < activeNoteCount (audioEngine w))))) w
  | None => w
  end.

Definition setActiveNotes (m : NoteMap) (c : Z) (w : World) : World :=
  withEngine (mkAudioEngine (isInitialized (audioEngine w))
                (masterGain (audioEngine w)) m c) w.

(** The statements of the [try] block of [playNote], for a voice whose
    oscillator will be node [o] and whose gain node [S o]. *)
Definition attackBlock (master : option nat) (o : nat) (midi : Z)
    (vel : Q) (t : Z) : list AudioCommand :=
  [ createOscillator;
    setOscType o "triangle";
    setFrequencyOf o midi;
    createGain;
    setGainValue (S o) 0;
    connect o (Some (S o));
    connect (S o) master;
    schedule (S o) (SetValueAtTime (Some 0%Q) t);
    schedule (S o) (LinearRampToValueAtTime vel (t + 10));
    schedule (S o) (ExponentialRampToValueAtTime (vel * (7 # 10)) (t + 300));
    oscStart o t ].

(** [playNote(midi, velocity)] *)
Definition playNote (h : Host) (midi : Z) (vel : Q) (w : World) : World :=
  if negb (isInitialized (audioEngine w)) then w
  else if mapHas midi (activeNotes (audioEngine w)) then w
  else
    let t := clock w in
    let o := length (graph w) in
    let '(g, ok) := tryBlock (h o)
                      (attackBlock (masterGain (audioEngine w)) o midi vel t)
                      (graph w) in
    if ok then
      updateSpeakerIcon
        (setActiveNotes
           (mapSet midi (mkVoice o (S o) t) (activeNotes (audioEngine w)))
           (activeNoteCount (audioEngine w) + 1)
           (withGraph g w))
    else withGraph g w.

(** The statements that start a release ending [fade] ms from now and stop
    the oscillator [halt] ms from now. *)
Definition releaseBlock (v : Voice) (t fade halt : Z) : list AudioCommand :=
  [ cancelScheduledValues (noteGain v) t;
    schedule (noteGain v) (SetValueAtTime None t);
    schedule (noteGain v) (ExponentialRampToValueAtTime (1 # 1000) (t + fade));
    oscStop (osc v) (t + halt) ].

Definition cleanupDelay : Z := 200.

(** [stopNote(midi)] *)
Definition stopNote (h : Host) (midi : Z) (w : World) : World :=
  if negb (isInitialized (audioEngine w)) then w
  else
    match mapGet midi (activeNotes (audioEngine w)) with
    | None => w
    | Some v =>
        let '(g, ok) := tryBlock (h (osc v))
                          (releaseBlock v (clock w) 100 150) (graph w) in
        if ok then
          snd (setTimeout (ReleaseCleanup midi (osc v) (noteGain v))
                          cleanupDelay (withGraph g w))
        else
          updateSpeakerIcon
            (setActiveNotes
               (mapDelete midi (activeNotes (audioEngine w)))
               (activeNoteCount (audioEngine w) - 1)
               (withGraph g w))
    end.

(** The body of the [forEach] of [stopAllNotes] for one entry. *)
Definition panicVoice (h : Host) (t : Z) (w : World) (entry : Z * Voice) : World :=
  let v := snd entry in
  let '(g, ok) := tryBlock (h (osc v)) (releaseBlock v t 50 100) (graph w) in
  if ok then
    snd (setTimeout (PanicDisconnect (osc v) (noteGain v)) 150 (withGraph g w))
  else withGraph g w.

(** [stopAllNotes()] *)
Definition stopAllNotes (h : Host) (w : World) : World :=
  if negb (isInitialized (audioEngine w)) then w
  else
    let notesToStop := activeNotes (audioEngine w) in
    let w1 := foldl (panicVoice h (clock w)) w notesToStop in
    updateSpeakerIcon (setActiveNotes [] 0 w1).

(** The callback of the timer set by [stopNote]. *)
Definition releaseCleanup (h : Host) (midi : Z) (o g : nat) (w : World) : World :=
  match mapGet midi (activeNotes (audioEngine w)) with
  | Some currentNote =>
      if decide (osc currentNote = o) then
        let '(gr, _) := tryBlock (h o) [disconnect o; disconnect g] (graph w) in
        updateSpeakerIcon
          (setActiveNotes
             (mapDelete midi (activeNotes (audioEngine w)))
             (activeNoteCount (audioEngine w) - 1)
             (withGraph gr w))
      else w
  | None => w
  end.

(** The callback of the timer set by [stopAllNotes]. *)
Definition panicDisconnect (h : Host) (o g : nat) (w : World) : World :=
  withGraph (fst (tryBlock (h o) [disconnect o; disconnect g] (graph w))) w.

(** ** RecordingSystem *)

Definition setRecorder (f : RecordingSystem -> RecordingSystem) (w : World) : World :=
  withRecorder (f (recordingSystem w)) w.

(** [startRecording()] *)
Definition startRecording (w : World) : World :=
  if isRecording (recordingSystem w) then w
  else
    setRecorder (fun r => mkRecordingSystem true (isPlaying r) [] (clock w)
                            (playbackTimeouts r)) w.

(** [stopRecording()]: the returned array is [recordedEvents] of the result. *)
Definition stopRecording (w : World) : World :=
  if negb (isRecording (recordingSystem w)) then w
  else
    setRecorder (fun r => mkRecordingSystem false (isPlaying r) (recordedEvents r)
                            (recordingStartTime r) (playbackTimeouts r)) w.

(** [event.timestamp - this.recordingStartTime]: [null] counts as 0. *)
Definition stampMinus (s : Stamp) (start : Z) : Stamp :=
  match s with
  | Ms t => Ms (t - start)
  | NullStamp => Ms (0 - start)
  | NotANumber => NotANumber
  | Infinite n => Infinite n
  end.

(** [{ ...event, timestamp: event.timestamp - this.recordingStartTime }] *)
Definition adjustedEvent (start : Z) (event : NoteEvent) : NoteEvent :=
  mkNoteEvent (type event) (note event) (velocity event)
              (stampMinus (timestamp event) start).

(** [recordEvent(event)] *)
Definition recordEvent (event : NoteEvent) (w : World) : World :=
  if negb (isRecording (recordingSystem w)) then w
  else
    setRecorder
      (fun r => mkRecordingSystem (isRecording r) (isPlaying r)
                  (recordedEvents r
                   ++ [EventObject (adjustedEvent (recordingStartTime r) event)])
                  (recordingStartTime r) (playbackTimeouts r)) w.

Definition isCurrentlyRecording (w : World) : bool := isRecording (recordingSystem w).

Definition hasRecording (w : World) : bool :=
  bool_decide (0 < length (recordedEvents (recordingSystem w)))%nat.

Definition getEventCount (w : World) : nat := length (recordedEvents (recordingSystem w)).

Definition isCurrentlyPlaying (w : World) : bool := isPlaying (recordingSystem w).

(** [visualizeNote(midi, activate)] *)
Definition visualizeNote (midi : Z) (activate : bool) (w : World) : World :=
  withPage
    (mkPage (map (fun k => if decide (fst k = Some midi) then (fst k, activate) else k)
                 (keys (page w)))
            (speakerIcon (page w))) w.

Definition setPlayback (playing : bool) (ids : list nat) (w : World) : World :=
  setRecorder (fun r => mkRecordingSystem (isRecording r) playing (recordedEvents r)
                          (recordingStartTime r) ids) w.

(** The number a timer is given with [event.timestamp] as its delay:
    [NaN], the infinities and [null] convert to 0. *)
Definition stampMs (s : Stamp) : Z :=
  match s with Ms t => t | _ => 0 end.

(** The [forEach] of [playRecording], from index [index] on: the state it
    leaves and whether it ran to its end.  At a [null] element reading
    [event.timestamp] throws a [TypeError], which nothing catches. *)
Fixpoint scheduleEvents (evs : list Entry) (index : nat) (w : World) : World * bool :=
  match evs with
  | [] => (w, true)
  | NullEntry :: _ => (w, false)
  | EventObject event :: rest =>
      let '(id, w1) := setTimeout (PlaybackEvent event index)
                                  (stampMs (timestamp event)) w in
      let w2 := setPlayback (isPlaying (recordingSystem w1))
                  (playbackTimeouts (recordingSystem w1) ++ [id]) w1 in
      scheduleEvents rest (S index) w2
  end.

(** [playRecording()]: the state it leaves, and whether it returned
    ([false]: the [TypeError] of the [forEach] left it). *)
Definition playRecordingOutcome (w : World) : World * bool :=
  if isPlaying (recordingSystem w) then (w, true)
  else if negb (hasRecording w) then (w, true)
  else scheduleEvents (recordedEvents (recordingSystem w)) 0 (setPlayback true [] w).

Definition playRecording (w : World) : World := fst (playRecordingOutcome w).

(** [stopPlayback()] *)
Definition stopPlayback (h : Host) (w : World) : World :=
  if negb (isPlaying (recordingSystem w)) then w
  else
    let w1 := foldl (fun acc id => clearTimeout id acc) w
                    (playbackTimeouts (recordingSystem w)) in
    let w2 := setPlayback (isPlaying (recordingSystem w1)) [] w1 in
    let w3 := stopAllNotes h w2 in
    setPlayback false (playbackTimeouts (recordingSystem w3)) w3.

(** The callback scheduled for one event by [playRecording]. *)
Definition playbackEvent (h : Host) (event : NoteEvent) (index : nat) (w : World) : World :=
  let w1 :=
    if decide (type event = "noteOn") then
      visualizeNote (note event) true (playNote h (note event) (velocity event) w)
    else if decide (type event = "noteOff") then
      visualizeNote (note event) false (stopNote h (note event) w)
    else w in
  if decide (Z.of_nat index = Z.of_nat (length (recordedEvents (recordingSystem w1))) - 1)
  then snd (setTimeout PlaybackFinish 500 w1)
  else w1.

(** What [saveRecording()] does: it returns [null], it throws, or it
    hands a document to the browser and returns it. *)
Inductive SaveResult :=
| NothingToSave
| SaveThrows
| Saved (doc : RecordingData).

(** [saveRecording()]; [today] is [new Date().toISOString()].  Reading
    [timestamp] of a last element that is [null] throws a [TypeError]. *)
Definition saveRecording (today : string) (w : World) : SaveResult :=
  if negb (hasRecording w) then NothingToSave
  else
    let evs := recordedEvents (recordingSystem w) in
    match last evs with
    | Some (EventObject e) =>
        Saved (mkRecordingData "1.0" today (timestamp e) (length evs) evs)
    | _ => SaveThrows
    end.

(** JS truthiness of the property [events]. *)
Definition truthy (v : JSValue) : bool :=
  match v with
  | JSNull => false
  | JSBoolean b => b
  | JSNumber x => negb (Qeq_bool x 0)
  | JSString s => negb (bool_decide (s = ""))
  | JSObject => true
  | JSArray _ => true
  end.

Definition isArray (v : JSValue) : bool :=
  match v with JSArray _ => true | _ => false end.

(** The body of [reader.onload] up to the assignment: the array to install,
    or the error the promise is rejected with. *)
Definition validate (data : ParsedData) : LoadError + list Entry :=
  match data with
  | DataNull => inl TypeError
  | DataWithoutEvents => inl InvalidRecordingFormat
  | DataWithEvents ev =>
      if negb (truthy ev) || negb (isArray ev) then inl InvalidRecordingFormat
      else match ev with
           | JSArray items => inr items
           | _ => inl InvalidRecordingFormat
           end
  end.

Definition readFile (f : FileResult) : LoadError + list Entry :=
  match f with
  | ReadFailed => inl FailedToReadFile
  | Unparseable => inl SyntaxError
  | Parsed data => validate data
  end.

(** [loadRecording(file)]: the world after the promise settles, and
    whether it was rejected. *)
Definition loadRecording (f : FileResult) (w : World) : World * option LoadError :=
  match readFile f with
  | inl err => (w, Some err)
  | inr items =>
      (setRecorder (fun r => mkRecordingSystem (isRecording r) (isPlaying r) items
                               (recordingStartTime r) (playbackTimeouts r)) w,
       None)
  end.

(** [clearRecording()] *)
Definition clearRecording (w : World) : World :=
  setRecorder (fun r => mkRecordingSystem (isRecording r) (isPlaying r) []
                          (recordingStartTime r) (playbackTimeouts r)) w.

(** [getRecordingInfo()]: event count and duration,
    [lastEvent ? lastEvent.timestamp : 0]. *)
Definition getRecordingInfo (w : World) : option (nat * Stamp) :=
  if negb (hasRecording w) then None
  else
    let evs := recordedEvents (recordingSystem w) in
    Some (length evs,
          match last evs with Some (EventObject e) => timestamp e | _ => Ms 0 end).

(** ** The JSON codec

    [JSON.stringify] and [JSON.parse] belong to the host.  A text is taken
    as the tree it denotes, so parsing a text that was written gives the
    tree that was written; what the codec changes is what the tree cannot
    say: [NaN] and the infinities are written as [null]. *)













(** ** The event loop *)

Definition runCallback (h : Host) (cb : Callback) (w : World) : World :=
  match cb with
  | ReleaseCleanup midi o g => releaseCleanup h midi o g w
  | PanicDisconnect o g => panicDisconnect h o g w
  | PlaybackEvent event index => playbackEvent h event index w
  | PlaybackFinish => stopPlayback h w
  end.

(** What the page can ask of the two objects. *)
Inductive Call :=
| Init (ok : bool)
| PlayNote (midi : Z) (vel : Q)
| StopNote (midi : Z)
| StopAllNotes
| StartRecording
| StopRecording
| RecordEvent (event : NoteEvent)
| PlayRecording
| StopPlayback
| LoadRecording (f : FileResult)
| ClearRecording.

Definition invoke (h : Host) (c : Call) (w : World) : World :=
  match c with
  | Init ok => init ok w
  | PlayNote midi vel => playNote h midi vel w
  | StopNote midi => stopNote h midi w
  | StopAllNotes => stopAllNotes h w
  | StartRecording => startRecording w
  | StopRecording => stopRecording w
  | RecordEvent event => recordEvent event w
  | PlayRecording => playRecording w
  | StopPlayback => stopPlayback h w
  | LoadRecording f => fst (loadRecording f w)
  | ClearRecording => clearRecording w
  end.

(** One step of the page: a call from outside at the current instant, the
    next pending timer firing (the clock moves to its due time), or time
    passing (never beyond the next pending timer). *)
Inductive Action :=
| Invoke (c : Call)
| FireTimer
| Elapse (dt : Z).

Definition removeTimer (id : nat) (ts : list Timer) : list Timer :=
  filter (fun t => timeoutId t <> id) ts.

Definition fireTimer (h : Host) (w : World) : World :=
  match nextDue (timers w) with
  | None => w
  | Some t =>
      runCallback h (callback t)
        (withTimers (removeTimer (timeoutId t) (timers w))
                    (withClock (Z.max (clock w) (due t)) w))
  end.

Definition elapse (dt : Z) (w : World) : World :=
  let target := clock w + Z.max 0 dt in
  match nextDue (timers w) with
  | Some t => withClock (Z.max (clock w) (Z.min target (due t))) w
  | None => withClock target w
  end.

Definition exec (h : Host) (a : Action) (w : World) : World :=
  match a with
  | Invoke c => invoke h c w
  | FireTimer => fireTimer h w
  | Elapse dt => elapse dt w
  end.

Definition run (steps : list (Host * Action)) (w : World) : World :=
  foldl (fun acc s => exec (fst s) (snd s) acc) w steps.

Inductive reachable (p : Page) : World -> Prop :=
| reachable_boot : reachable p (boot p)
| reachable_step h a w : reachable p w -> reachable p (exec h a w).

(** ** The first engine

    [js/audio-engine.js] comes in two editions.  The definitions above are
    the current one (Musical Keys).  The first one (Qwertica Keys) is kept
    here for comparison: it has no voice counter, [playNote] has no [try],
    the release lasts 300 ms, the cleanup deletes whatever entry the note
    has after 400 ms, and [stopAllNotes] is a loop of [stopNote]. *)
Module Qwertica.

(** [{ osc, noteGain }] *)
Record Note := mkNote {
  osc : nat;
  noteGain : nat
}.

Record Engine := mkEngine {
  isInitialized : bool;
  masterGain : option nat;
  activeNotes : list (Z * Note)
}.

(** The engine with the graph, the clock and the pending deletions
    [setTimeout(() => this.activeNotes.delete(midi), 400)], oldest first,
    each with the time it is due.  All have the same delay, so the oldest
    is the next to fire. *)
Record State := mkState {
  clock : Z;
  graph : AudioGraph;
  engine : Engine;
  deletions : list (Z * Z)
}.

Inductive Outcome :=
| Returned (s : State)
| Thrown (s : State).

Definition boot : State := mkState 0 [] (mkEngine false None []) [].

Definition init (ok : bool) (s : State) : State :=
  if isInitialized (engine s) then s
  else if ok then
    let dest := length (graph s) in
    let master := S dest in
    mkState (clock s)
      (connect master (Some dest)
         (setGainValue master 1 (createGain (graph s ++ [DestinationNode]))))
      (mkEngine true (Some master) (activeNotes (engine s)))
      (deletions s)
  else s.

Definition attackBlock (master : option nat) (o : nat) (midi : Z)
    (vel : Q) (t : Z) : list AudioCommand :=
  [ createOscillator;
    setOscType o "triangle";
    setFrequencyOf o midi;
    createGain;
    setGainValue (S o) 0;
    connect o (Some (S o));
    connect (S o) master;
    schedule (S o) (LinearRampToValueAtTime vel (t + 10));
    schedule (S o) (ExponentialRampToValueAtTime (vel * (7 # 10)) (t + 300));
    oscStart o t ].

(** [playNote(midi, velocity)]: an exception of the host is not caught. *)
Definition playNote (h : Host) (midi : Z) (vel : Q) (s : State) : Outcome :=
  if negb (isInitialized (engine s)) then Returned s
  else if mapHas midi (activeNotes (engine s)) then Returned s
  else
    let o := length (graph s) in
    let '(g, ok) := tryBlock (h o)
                      (attackBlock (masterGain (engine s)) o midi vel (clock s))
                      (graph s) in
    if ok then
      Returned (mkState (clock s) g
                  (mkEngine (isInitialized (engine s)) (masterGain (engine s))
                     (mapSet midi (mkNote o (S o)) (activeNotes (engine s))))
                  (deletions s))
    else Thrown (mkState (clock s) g (engine s) (deletions s)).

Definition releaseBlock (v : Note) (t : Z) : list AudioCommand :=
  [ cancelScheduledValues (noteGain v) t;
    schedule (noteGain v) (SetValueAtTime None t);
    schedule (noteGain v) (ExponentialRampToValueAtTime (1 # 1000) (t + 300));
    oscStop (osc v) (t + 350) ].

(** [stopNote(midi)] *)
Definition stopNote (h : Host) (midi : Z) (s : State) : State :=
  if negb (isInitialized (engine s)) then s
  else
    match mapGet midi (activeNotes (engine s)) with
    | None => s
    | Some v =>
        let '(g, ok) := tryBlock (h (osc v)) (releaseBlock v (clock s)) (graph s) in
        if ok then
          mkState (clock s) g (engine s) (deletions s ++ [(clock s + 400, midi)])
        else
          mkState (clock s) g
            (mkEngine (isInitialized (engine s)) (masterGain (engine s))
               (mapDelete midi (activeNotes (engine s))))
            (deletions s)
    end.

(** [stopAllNotes()] *)
Definition stopAllNotes (h : Host) (s : State) : State :=
  foldl (fun acc midi => stopNote h midi acc) s (activeNotes (engine s)).*1.

(** Time passes, by a non-negative amount. *)
Definition elapse (dt : Z) (s : State) : State :=
  mkState (clock s + Z.max 0 dt) (graph s) (engine s) (deletions s).

(** The oldest pending deletion fires. *)
Definition fireDeletion (s : State) : State :=
  match deletions s with
  | [] => s
  | (d, midi) :: rest =>
      mkState (Z.max (clock s) d) (graph s)
        (mkEngine (isInitialized (engine s)) (masterGain (engine s))
           (mapDelete midi (activeNotes (engine s))))
        rest
  end.

(** The state a call leaves behind, thrown or not. *)
Definition after (r : Outcome) : State :=
  match r with Returned s => s | Thrown s => s end.

End Qwertica.

(** ** InputHandler

    [js/input-handler.js].  [String.prototype.toLowerCase] and
    [toUpperCase] are functions of the host. *)
Module InputHandler.

(** [createKeyToMidiMap()] *)
Definition createKeyToMidiMap : list (string * Z) :=
  [ ("q", 60); ("w", 62); ("e", 64); ("r", 65); ("t", 67);
    ("a", 60); ("s", 62); ("d", 64); ("f", 65); ("g", 67);
    ("z", 60); ("x", 62); ("c", 64); ("v", 65); ("b", 67);
    ("y", 69); ("u", 71); ("i", 72); ("o", 74); ("p", 76);
    ("h", 69); ("j", 71); ("k", 72); ("l", 74);
    ("n", 69); ("m", 71); (",", 72); (".", 74); (";", 76); ("/", 77) ].

(** [Map.prototype.get] on string keys. *)
Fixpoint strGet {V} (key : string) (m : list (string * V)) : option V :=
  match m with
  | [] => None
  | (k, v) :: rest => if decide (k = key) then Some v else strGet key rest
  end.

(** A JS [Set] of strings: insertion-ordered, no duplicates. *)
Definition setHas (key : string) (s : list string) : bool := bool_decide (key ∈ s).

Definition setAdd (key : string) (s : list string) : list string :=
  if decide (key ∈ s) then s else s ++ [key].

Definition setDelete (key : string) (s : list string) : list string :=
  filter (fun k => k <> key) s.

(** The fields of an [InputHandler].  [midiToKeyElement] maps a note to
    the index of a [.key] element; [recorderCallback] says whether
    [setRecorderCallback] has installed the callback of [initApp],
    [(event) => recordingSystem.recordEvent(event)]. *)
Record Handler := mkHandler {
  pressedKeys : list string;
  keyToMidi : list (string * Z);
  midiToKeyElement : list (Z * nat);
  isInitialized : bool;
  recorderCallback : bool
}.

(** The handler with the objects it refers to. *)
Record Session := mkSession {
  world : World;
  handler : Handler
}.

Definition withWorld (w : World) (s : Session) : Session := mkSession w (handler s).

Definition withPressedKeys (ks : list string) (s : Session) : Session :=
  mkSession (world s)
    (mkHandler ks (keyToMidi (handler s)) (midiToKeyElement (handler s))
               (isInitialized (handler s)) (recorderCallback (handler s))).

(** The [forEach] of [createMidiToKeyElementMap()], from the element with
    index [index] on: [if (midi)] skips an absent or unparsable
    [data-note] and the note 0. *)
Fixpoint collectKeys (ks : list (option Z * bool)) (index : nat)
    (m : list (Z * nat)) : list (Z * nat) :=
  match ks with
  | [] => m
  | k :: rest =>
      collectKeys rest (S index)
        (match k.1 with
         | Some midi => if decide (midi = 0) then m else mapSet midi index m
         | None => m
         end)
  end.

Definition createMidiToKeyElementMap (p : Page) : list (Z * nat) :=
  collectKeys (keys p) 0 [].

(** [new InputHandler(audioEngine)] on the page of [w]. *)
Definition create (w : World) : Session :=
  mkSession w (mkHandler [] createKeyToMidiMap (createMidiToKeyElementMap (page w))
                         false false).

(** [init()]: registers the listeners. *)
Definition init (s : Session) : Session :=
  mkSession (world s)
    (mkHandler (pressedKeys (handler s)) (keyToMidi (handler s))
               (midiToKeyElement (handler s)) true (recorderCallback (handler s))).

(** [setRecorderCallback(callback)] with the callback of [initApp]. *)
Definition setRecorderCallback (s : Session) : Session :=
  mkSession (world s)
    (mkHandler (pressedKeys (handler s)) (keyToMidi (handler s))
               (midiToKeyElement (handler s)) (isInitialized (handler s)) true).

(** [classList.add('active')] or [remove] on the [.key] element [el]. *)
Definition setActive (el : nat) (active : bool) (w : World) : World :=
  withPage (mkPage (alter (fun k => (k.1, active)) el (keys (page w)))
                   (speakerIcon (page w))) w.

(** [activateKey(midi)] *)
Definition activateKey (midi : Z) (s : Session) : Session :=
  match mapGet midi (midiToKeyElement (handler s)) with
  | Some el => withWorld (setActive el true (world s)) s
  | None => s
  end.

(** [deactivateKey(midi)] *)
Definition deactivateKey (midi : Z) (s : Session) : Session :=
  match mapGet midi (midiToKeyElement (handler s)) with
  | Some el => withWorld (setActive el false (world s)) s
  | None => s
  end.

(** [notifyRecorder(type, note, velocity)]: the timestamp is
    [performance.now()]. *)
Definition notifyRecorder (type : string) (note : Z) (velocity : Q)
    (s : Session) : Session :=
  if recorderCallback (handler s)
  then withWorld (recordEvent (mkNoteEvent type note velocity (Ms (clock (world s))))
                              (world s)) s
  else s.

(** [handlePointerDown(midi, keyElement)] *)
Definition handlePointerDown (h : Host) (midi : Z) (keyElement : nat)
    (s : Session) : Session :=
  match keys (page (world s)) !! keyElement with
  | Some (_, true) => s
  | _ =>
      notifyRecorder "noteOn" midi (1 # 2)
        (activateKey midi
           (withWorld (playNote h midi (1 # 2) (world s)) s))
  end.

(** [handlePointerUp(midi, keyElement)] *)
Definition handlePointerUp (h : Host) (midi : Z) (keyElement : nat)
    (s : Session) : Session :=
  match keys (page (world s)) !! keyElement with
  | Some (_, true) =>
      notifyRecorder "noteOff" midi 0
        (deactivateKey midi
           (withWorld (stopNote h midi (world s)) s))
  | _ => s
  end.

(** [clearPressedKeys()] *)
Definition clearPressedKeys (s : Session) : Session := withPressedKeys [] s.

(** [stopAllNotes()]: every key of [midiToKeyElement] is deactivated, then
    the engine is stopped. *)
Definition stopAllNotes (h : Host) (s : Session) : Session :=
  let s1 := foldl (fun acc midi => deactivateKey midi acc) s
                  (midiToKeyElement (handler s)).*1 in
  withWorld (stopAllNotes h (world s1)) s1.

(** The first key of the map, in insertion order, bound to [midi]. *)
Fixpoint firstKeyFor (midi : Z) (m : list (string * Z)) : option string :=
  match m with
  | [] => None
  | (key, midiNum) :: rest =>
      if decide (midiNum = midi) then Some key else firstKeyFor midi rest
  end.

Section Keyboard.

Variable toLowerCase : string -> string.
Variable toUpperCase : string -> string.

(** [handleKeyDown(event)], [key] being [event.key]. *)
Definition handleKeyDown (h : Host) (key : string) (s : Session) : Session :=
  let key := toLowerCase key in
  match strGet key (keyToMidi (handler s)) with
  | None => s
  | Some midi =>
      if setHas key (pressedKeys (handler s)) then s
      else
        let s1 := withPressedKeys (setAdd key (pressedKeys (handler s))) s in
        notifyRecorder "noteOn" midi (1 # 2)
          (activateKey midi
             (withWorld (playNote h midi (1 # 2) (world s1)) s1))
  end.

(** [handleKeyUp(event)] *)
Definition handleKeyUp (h : Host) (key : string) (s : Session) : Session :=
  let key := toLowerCase key in
  match strGet key (keyToMidi (handler s)) with
  | None => s
  | Some midi =>
      let s1 := withPressedKeys (setDelete key (pressedKeys (handler s))) s in
      notifyRecorder "noteOff" midi 0
        (deactivateKey midi
           (withWorld (stopNote h midi (world s1)) s1))
  end.

(** [getKeyForMidi(midi)]: [None] is [null]. *)
Definition getKeyForMidi (midi : Z) (s : Session) : option string :=
  toUpperCase <$> firstKeyFor midi (keyToMidi (handler s)).

End Keyboard.

End InputHandler.

(** ** The page script

    [initApp] and the handlers it installs ([js/main.js] of Musical Keys).
    The menu button only toggles a dropdown and is left out. *)

(** [recordingStatus.textContent] *)
Inductive StatusText :=
| PageText (s : string)              (* what the page shows when loaded *)
| RecordingInProgress                (* 'Recording in progress...' *)
| RecordingSaved (n : nat)           (* `Recording saved: ${n} events` *)
| NoEventsRecorded                   (* 'No events recorded' *)
| PlayingRecording                   (* 'Playing recording...' *)
| PlaybackFinished                   (* 'Playback finished' *)
| RecordingSavedToFile               (* 'Recording saved to file' *)
| Loaded (n : nat) (seconds : Stamp) (* `Loaded: ${n} events, ${seconds}s` *)
| FailedToLoadRecording.             (* 'Failed to load recording' *)

(** The recording controls: classes, texts and [disabled] flags. *)
Record Controls := mkControls {
  recordBtnRecording : bool;
  recordBtnText : string;
  recordBtnDisabled : bool;
  stopBtnDisabled : bool;
  playBtnPlaying : bool;
  playBtnText : string;
  playBtnDisabled : bool;
  saveBtnDisabled : bool;
  statusText : StatusText;
  statusRecording : bool
}.

(** The listeners of [setupAutoInit], registered with [{ once: true }]. *)
Inductive AutoInit := OnKeydown | OnClick | OnTouchstart.

#[global] Instance AutoInit_eq_dec : EqDecision AutoInit.
Proof. solve_decision. Defined.

(** [downloads] collects the documents handed to the browser by
    [saveRecording]. *)
Record App := mkApp {
  session : InputHandler.Session;
  controls : Controls;
  isStarted : bool;
  autoInit : list AutoInit;
  downloads : list RecordingData
}.

Definition appWorld (a : App) : World := InputHandler.world (session a).

Definition withSession (s : InputHandler.Session) (a : App) : App :=
  mkApp s (controls a) (isStarted a) (autoInit a) (downloads a).

Definition withAppWorld (w : World) (a : App) : App :=
  withSession (InputHandler.withWorld w (session a)) a.

Definition withControls (c : Controls) (a : App) : App :=
  mkApp (session a) c (isStarted a) (autoInit a) (downloads a).

(** [initApp()] on a page with the keys and icon [p] and the controls [c]. *)
Definition initApp (p : Page) (c : Controls) : App :=
  mkApp (InputHandler.setRecorderCallback
           (InputHandler.init (InputHandler.create (boot p))))
        c false [OnKeydown; OnClick; OnTouchstart] [].

(** [initAudio] of [setupAutoInit]: when [init] throws nothing else
    happens. *)
Definition initAudio (ok : bool) (a : App) : App :=
  if isReady (appWorld a) then a
  else if ok then
    mkApp (InputHandler.withWorld (init true (appWorld a)) (session a))
          (controls a) true [] (downloads a)
  else a.

(** One of the three listeners is called, if it is still registered. *)
Definition autoInitOn (l : AutoInit) (ok : bool) (a : App) : App :=
  if decide (l ∈ autoInit a) then
    initAudio ok (mkApp (session a) (controls a) (isStarted a)
                        (filter (fun l' => l' <> l) (autoInit a)) (downloads a))
  else a.

(** The click handler of the record button. *)
Definition recordClick (a : App) : App :=
  let c := controls a in
  withControls
    (mkControls true "Recording..." (recordBtnDisabled c) false
                (playBtnPlaying c) (playBtnText c) true true
                RecordingInProgress true)
    (withAppWorld (startRecording (appWorld a)) a).

(** What [stopRecording()] returns: [None] is [undefined]. *)
Definition stopRecordingResult (w : World) : option (list Entry) :=
  if negb (isRecording (recordingSystem w)) then None
  else Some (recordedEvents (recordingSystem (stopRecording w))).

Inductive Outcome :=
| Returned (a : App)
| Thrown (a : App).

(** The state a handler leaves behind, thrown or not. *)
Definition after (r : Outcome) : App :=
  match r with Returned a => a | Thrown a => a end.

(** The click handler of the stop button: [events.length] throws when
    [stopRecording()] returned [undefined]. *)
Definition stopClick (a : App) : Outcome :=
  let events := stopRecordingResult (appWorld a) in
  let a1 := withAppWorld (stopRecording (appWorld a)) a in
  let c := controls a1 in
  let a2 :=
    withControls
      (mkControls false "Record" (recordBtnDisabled c) (stopBtnDisabled c)
                  (playBtnPlaying c) (playBtnText c) (playBtnDisabled c)
                  (saveBtnDisabled c) (statusText c) (statusRecording c)) a1 in
  match events with
  | None => Thrown a2
  | Some evs =>
      let c := controls a2 in
      Returned
        (withControls
           (if bool_decide (0 < length evs)%nat then
              mkControls (recordBtnRecording c) (recordBtnText c) (recordBtnDisabled c)
                         (stopBtnDisabled c) (playBtnPlaying c) (playBtnText c)
                         false false (RecordingSaved (length evs)) false
            else
              mkControls (recordBtnRecording c) (recordBtnText c) (recordBtnDisabled c)
                         (stopBtnDisabled c) (playBtnPlaying c) (playBtnText c)
                         (playBtnDisabled c) (saveBtnDisabled c) NoEventsRecorded false)
           a2)
  end.

(** The click handler of the play button: nothing after
    [playRecording()] runs when that throws. *)
Definition playClick (a : App) : Outcome :=
  let c := controls a in
  let a1 := withAppWorld (playRecording (appWorld a)) a in
  if (playRecordingOutcome (appWorld a)).2 then
    Returned
      (withControls
         (mkControls (recordBtnRecording c) (recordBtnText c) true true
                     true "Playing..." (playBtnDisabled c) (saveBtnDisabled c)
                     PlayingRecording (statusRecording c))
         a1)
  else Thrown a1.

(** [checkPlaybackEnd], the callback of the 100 ms interval. *)
Definition checkPlaybackEnd (a : App) : App :=
  let c := controls a in
  if negb (isCurrentlyPlaying (appWorld a)) && playBtnPlaying c then
    withControls
      (mkControls (recordBtnRecording c) (recordBtnText c) false false
                  false "Play" (playBtnDisabled c) (saveBtnDisabled c)
                  PlaybackFinished (statusRecording c)) a
  else a.

(** The click handler of the save button: the status line is not
    written when [saveRecording()] throws. *)
Definition saveClick (today : string) (a : App) : Outcome :=
  let c := controls a in
  let saved (a1 : App) :=
    withControls
      (mkControls (recordBtnRecording c) (recordBtnText c) (recordBtnDisabled c)
                  (stopBtnDisabled c) (playBtnPlaying c) (playBtnText c)
                  (playBtnDisabled c) (saveBtnDisabled c)
                  RecordingSavedToFile (statusRecording c)) a1 in
  match saveRecording today (appWorld a) with
  | Saved doc =>
      Returned (saved (mkApp (session a) (controls a) (isStarted a) (autoInit a)
                             (downloads a ++ [doc])))
  | NothingToSave => Returned (saved a)
  | SaveThrows => Thrown a
  end.

(** [Math.round(duration / 1000)]: [null] counts as 0, [NaN] and the
    infinities stay what they are. *)
Definition roundSeconds (d : Stamp) : Stamp :=
  match d with
  | Ms ms => Ms ((ms + 500) / 1000)
  | NullStamp => Ms 0
  | NotANumber => NotANumber
  | Infinite n => Infinite n
  end.

Definition withStatus (t : StatusText) (a : App) : App :=
  let c := controls a in
  withControls
    (mkControls (recordBtnRecording c) (recordBtnText c) (recordBtnDisabled c)
                (stopBtnDisabled c) (playBtnPlaying c) (playBtnText c)
                (playBtnDisabled c) (saveBtnDisabled c) t (statusRecording c)) a.

(** The change handler of the file input, once the file has been read:
    [file = None] when no file was chosen.  Reading [info.eventCount]
    throws inside the [try] when [getRecordingInfo()] returned [null]. *)
Definition loadChange (file : option FileResult) (a : App) : App :=
  match file with
  | None => a
  | Some f =>
      match loadRecording f (appWorld a) with
      | (_, Some _) => withStatus FailedToLoadRecording a
      | (w, None) =>
          let a1 := withAppWorld w a in
          let c := controls a1 in
          let a2 :=
            withControls
              (mkControls (recordBtnRecording c) (recordBtnText c)
                          (recordBtnDisabled c) (stopBtnDisabled c)
                          (playBtnPlaying c) (playBtnText c) false false
                          (statusText c) (statusRecording c)) a1 in
          match getRecordingInfo w with
          | Some (n, d) => withStatus (Loaded n (roundSeconds d)) a2
          | None => withStatus FailedToLoadRecording a2
          end
      end
  end.

(** The [visibilitychange] and [beforeunload] listeners of [initApp]. *)
Definition visibilityChange (h : Host) (hidden : bool) (a : App) : App :=
  if hidden && isReady (appWorld a)
  then withAppWorld (stopAllNotes h (appWorld a)) a
  else a.

Definition beforeUnload (h : Host) (a : App) : App :=
  withAppWorld (stopAllNotes h (appWorld a)) a.

(** What the host decides while an event is handled. *)
Record Env := mkEnv {
  host : Host;
  audioOk : bool;
  today : string
}.

Inductive Target := RecordBtn | StopBtn | PlayBtn | SaveBtn | Elsewhere.

Inductive DomEvent :=
| KeyDown (key : string)
| KeyUp (key : string)
| MouseDown (el : nat)
| MouseUp (el : nat)
| MouseLeave (el : nat)
| TouchStart (el : nat)
| TouchStartElsewhere
| TouchEnd (el : nat)
| Click (target : Target)
| Change (file : option FileResult)
| VisibilityChange (hidden : bool)
| BeforeUnload
| Interval
| TimerFires
| Wait (dt : Z).

Section Dispatch.

Variable toLowerCase : string -> string.

(** A pointer event on the [.key] element [el], whose listener carries
    [parseInt(key.dataset.note)].  Elements without a numeric [data-note]
    are outside the embedding ([None]): their note is [NaN]. *)
Definition onKey (f : Z -> nat -> InputHandler.Session -> InputHandler.Session)
    (el : nat) (a : App) : option App :=
  if InputHandler.isInitialized (InputHandler.handler (session a)) then
    match keys (page (appWorld a)) !! el with
    | Some (Some midi, _) => Some (withSession (f midi el (session a)) a)
    | _ => None
    end
  else Some a.

Definition onKeyboard (f : InputHandler.Session -> InputHandler.Session)
    (a : App) : App :=
  if InputHandler.isInitialized (InputHandler.handler (session a))
  then withSession (f (session a)) a
  else a.

(** The listeners run in the order they were registered: those of the
    input handler and of the controls before those of [setupAutoInit].  A
    disabled button receives no click. *)
Definition dispatch (env : Env) (ev : DomEvent) (a : App) : option App :=
  match ev with
  | KeyDown key =>
      Some (autoInitOn OnKeydown (audioOk env)
              (onKeyboard (InputHandler.handleKeyDown toLowerCase (host env) key) a))
  | KeyUp key =>
      Some (onKeyboard (InputHandler.handleKeyUp toLowerCase (host env) key) a)
  | MouseDown el => onKey (InputHandler.handlePointerDown (host env)) el a
  | MouseUp el => onKey (InputHandler.handlePointerUp (host env)) el a
  | MouseLeave el => onKey (InputHandler.handlePointerUp (host env)) el a
  | TouchStart el =>
      autoInitOn OnTouchstart (audioOk env)
        <$> onKey (InputHandler.handlePointerDown (host env)) el a
  | TouchStartElsewhere => Some (autoInitOn OnTouchstart (audioOk env) a)
  | TouchEnd el => onKey (InputHandler.handlePointerUp (host env)) el a
  | Click target =>
      match target with
      | RecordBtn =>
          if recordBtnDisabled (controls a) then Some a
          else Some (autoInitOn OnClick (audioOk env) (recordClick a))
      | StopBtn =>
          if stopBtnDisabled (controls a) then Some a
          else Some (autoInitOn OnClick (audioOk env) (after (stopClick a)))
      | PlayBtn =>
          if playBtnDisabled (controls a) then Some a
          else Some (autoInitOn OnClick (audioOk env) (after (playClick a)))
      | SaveBtn =>
          if saveBtnDisabled (controls a) then Some a
          else Some (autoInitOn OnClick (audioOk env) (after (saveClick (today env) a)))
      | Elsewhere => Some (autoInitOn OnClick (audioOk env) a)
      end
  | Change file => Some (loadChange file a)
  | VisibilityChange hidden => Some (visibilityChange (host env) hidden a)
  | BeforeUnload => Some (beforeUnload (host env) a)
  | Interval => Some (checkPlaybackEnd a)
  | TimerFires => Some (withAppWorld (fireTimer (host env) (appWorld a)) a)
  | Wait dt => Some (withAppWorld (elapse dt (appWorld a)) a)
  end.

(** The events of a session, one after the other; [None] as soon as one
    is outside the embedding. *)
Fixpoint play (evs : list (Env * DomEvent)) (a : App) : option App :=
  match evs with
  | [] => Some a
  | e :: rest =>
      match dispatch e.1 e.2 a with
      | Some a' => play rest a'
      | None => None
      end
  end.

End Dispatch.

(** ** What the properties speak of *)

(** The number of entries the note [n] has in a note map. *)
Definition voicesFor (n : Z) (m : NoteMap) : nat :=
  length (filter (fun kv => kv.1 = n) m).

(** The steps that do not belong to the recorder's own writers. *)
Definition keepsRecording (a : Action) : Prop :=
  match a with
  | Invoke StartRecording | Invoke (RecordEvent _)
  | Invoke (LoadRecording _) | Invoke ClearRecording => False
  | _ => True
  end.

(** The callbacks of recorded events. *)
Definition isPlaybackEvent (cb : Callback) : Prop :=
  match cb with PlaybackEvent _ _ => True | _ => False end.

(** The callback a step fires, and the callbacks fired along a run. *)
Definition firedBy (a : Action) (w : World) : option Callback :=
  match a with
  | FireTimer => callback <$> nextDue (timers w)
  | _ => None
  end.

Fixpoint firedDuring (steps : list (Host * Action)) (w : World) : list Callback :=
  match steps with
  | [] => []
  | s :: rest =>
      match firedBy s.2 w with
      | Some cb => cb :: firedDuring rest (exec s.1 s.2 w)
      | None => firedDuring rest (exec s.1 s.2 w)
      end
  end.

Definition nodeStop (n : AudioNode) : option Z :=
  match n with OscillatorNode _ _ _ s _ => s | _ => None end.

Definition nodeOut (n : AudioNode) : option nat :=
  match n with
  | OscillatorNode _ _ _ _ o => o
  | GainNode _ _ o => o
  | DestinationNode => None
  end.

(** The time node [i] is told to stop at, and the node it feeds. *)
Definition stopTimeOf (g : AudioGraph) (i : nat) : option Z := g !! i ≫= nodeStop.
Definition outputOf (g : AudioGraph) (i : nat) : option nat := g !! i ≫= nodeOut.




Definition nodeStart (n : AudioNode) : option Z :=
  match n with OscillatorNode _ _ s _ _ => s | _ => None end.

(** The time node [i] was started at. *)
Definition startTimeOf (g : AudioGraph) (i : nat) : option Z := g !! i ≫= nodeStart.

(** Node [i] is an oscillator that has been started and has not been told
    to stop: left alone, it sounds for ever. *)
Definition sounding (g : AudioGraph) (i : nat) : Prop :=
  is_Some (startTimeOf g i) /\ stopTimeOf g i = None.

(** The host lets the calls on the nodes of the held voices succeed. *)
Definition gentle (h : Host) (w : World) : Prop :=
  forall k v, (k, v) ∈ activeNotes (audioEngine w) -> h (osc v) = None.

(** The states reached when no call on a held voice throws.  Creating a
    voice may still fail. *)
Inductive reachableGently (p : Page) : World -> Prop :=
| gently_boot : reachableGently p (boot p)
| gently_step h a w :
    reachableGently p w -> gentle h w -> reachableGently p (exec h a w).

(** Node [i] is the oscillator of a voice in [activeNotes]. *)
Definition held (w : World) (i : nat) : Prop :=
  exists k v, (k, v) ∈ activeNotes (audioEngine w) /\ osc v = i.

(** The recorded event a callback plays, with its index. *)
Definition eventOf (cb : Callback) : option (NoteEvent * nat) :=
  match cb with PlaybackEvent e i => Some (e, i) | _ => None end.

(** The recorded events played along a run, in the order they are played. *)
Definition playedDuring (steps : list (Host * Action)) (w : World)
    : list (NoteEvent * nat) :=
  omap eventOf (firedDuring steps w).

(** The number of milliseconds an element of a recording is stamped with,
    when it is an event object stamped with one. *)
Definition millis (en : Entry) : option Z :=
  match en with
  | EventObject e => match timestamp e with Ms t => Some t | _ => None end
  | NullEntry => None
  end.

(** The event installs no recording: it is not the change of the file
    input for a file that loads. *)
Definition loadsNothing (ev : DomEvent) : Prop :=
  match ev with
  | Change (Some f) => exists err, readFile f = inl err
  | _ => True
  end.

(** * Properties *)

(** ** The note map *)

Lemma mapGet_None (n : Z) (m : NoteMap) : mapGet n m = None <-> n ∉ m.*1.
Proof.
  induction m as [|[k v] m IH]; simpl.
  - split; [intros _; apply not_elem_of_nil | done].
  - case_decide; subst.
    + split; [done | intros H; exfalso; apply H; left].
    + rewrite IH, not_elem_of_cons. simpl.
      split; [intros ?; split; [congruence | done] | by intros [_ ?]].
Qed.

Lemma mapGet_Some_elem (n : Z) (v : Voice) (m : NoteMap) :
  mapGet n m = Some v -> (n, v) ∈ m.
Proof.
  induction m as [|[k v'] m IH]; simpl; [done|].
  case_decide; subst.
  - intros [= ->]. left.
  - intros H'. right. auto.
Qed.

Lemma mapHas_true (n : Z) (m : NoteMap) :
  mapHas n m = true <-> exists v, mapGet n m = Some v.
Proof.
  unfold mapHas. destruct (mapGet n m) as [v|]; split; try done;
    [by exists v | by intros [? ?]].
Qed.

Lemma mapHas_false (n : Z) (m : NoteMap) : mapHas n m = false <-> mapGet n m = None.
Proof. unfold mapHas. by destruct (mapGet n m). Qed.

Lemma mapSet_fresh (n : Z) (v : Voice) (m : NoteMap) :
  mapGet n m = None -> mapSet n v m = m ++ [(n, v)].
Proof.
  induction m as [|[k v'] m IH]; simpl; [done|].
  case_decide; [done|]. intros H'. by rewrite IH.
Qed.

Lemma mapGet_mapSet (n k : Z) (v : Voice) (m : NoteMap) :
  mapGet k (mapSet n v m) = if decide (n = k) then Some v else mapGet k m.
Proof.
  induction m as [|[k' v'] m IH]; simpl.
  - repeat case_decide; congruence.
  - destruct (decide (k' = n)), (decide (n = k)); simpl;
      repeat case_decide; congruence.
Qed.

Lemma mapDelete_sublist (n : Z) (m : NoteMap) : sublist (mapDelete n m) m.
Proof.
  induction m as [|[k v] m IH]; simpl; [done|].
  case_decide; [by apply sublist_cons | by apply sublist_skip].
Qed.

Lemma mapGet_mapDelete_ne (n k : Z) (m : NoteMap) :
  n <> k -> mapGet k (mapDelete n m) = mapGet k m.
Proof.
  intros Hne. induction m as [|[k' v'] m IH]; simpl; [done|].
  destruct (decide (k' = n)); simpl; repeat case_decide; congruence.
Qed.


Lemma filter_key_absent (n : Z) (m : NoteMap) :
  n ∉ m.*1 -> filter (fun kv : Z * Voice => kv.1 = n) m = [].
Proof.
  induction m as [|[k v] m IH]; [done|].
  rewrite fmap_cons, not_elem_of_cons, filter_cons. simpl. intros [Hne Hm].
  case_decide; [congruence | auto].
Qed.

Lemma voicesFor_NoDup (n : Z) (m : NoteMap) :
  NoDup m.*1 -> (voicesFor n m <= 1)%nat.
Proof.
  unfold voicesFor. induction m as [|[k v] m IH]; [simpl; lia|].
  rewrite fmap_cons. intros [Hk Hm]%NoDup_cons. rewrite filter_cons. simpl in *.
  case_decide; subst; simpl; [|auto].
  rewrite filter_key_absent by done. simpl. lia.
Qed.

Lemma voicesFor_get (n : Z) (v : Voice) (m : NoteMap) :
  NoDup m.*1 -> mapGet n m = Some v -> voicesFor n m = 1%nat.
Proof.
  intros Hnd Hget. pose proof (voicesFor_NoDup n m Hnd).
  apply mapGet_Some_elem in Hget.
  assert (0 < voicesFor n m)%nat; [|lia].
  unfold voicesFor.
  assert ((n, v) ∈ filter (fun kv : Z * Voice => kv.1 = n) m) as Hin
    by (by apply list_elem_of_filter).
  destruct (filter _ m); [by apply elem_of_nil in Hin | simpl; lia].
Qed.

(** ** How one step moves the engine *)

Definition withNotes (m : NoteMap) (c : Z) (e : AudioEngine) : AudioEngine :=
  mkAudioEngine (isInitialized e) (masterGain e) m c.

Inductive engineMove (e : AudioEngine) : AudioEngine -> Prop :=
| move_none : engineMove e e
| move_init mg :
    isInitialized e = false ->
    engineMove e (mkAudioEngine true mg (activeNotes e) (activeNoteCount e))
| move_attack n v :
    isInitialized e = true ->
    mapGet n (activeNotes e) = None ->
    engineMove e (withNotes (mapSet n v (activeNotes e)) (activeNoteCount e + 1) e)
| move_remove n v :
    mapGet n (activeNotes e) = Some v ->
    engineMove e (withNotes (mapDelete n (activeNotes e)) (activeNoteCount e - 1) e)
| move_clear :
    isInitialized e = true ->
    engineMove e (withNotes [] 0 e).

Ltac split_try :=
  match goal with
  | |- context [tryBlock ?t ?c ?g] =>
      let gr := fresh "gr" in let ok := fresh "ok" in
      destruct (tryBlock t c g) as [gr ok]; try destruct ok
  end.

Lemma audioEngine_updateSpeakerIcon (w : World) :
  audioEngine (updateSpeakerIcon w) = audioEngine w.
Proof. unfold updateSpeakerIcon. by destruct (speakerIcon (page w)). Qed.

Lemma playNote_engineMove h n v w :
  engineMove (audioEngine w) (audioEngine (playNote h n v w)).
Proof.
  unfold playNote.
  destruct (isInitialized (audioEngine w)) eqn:Hi; simpl; [|constructor].
  destruct (mapHas n (activeNotes (audioEngine w))) eqn:Hh; [constructor|].
  apply mapHas_false in Hh.
  split_try; simpl; [|constructor].
  rewrite audioEngine_updateSpeakerIcon. simpl.
  by apply (move_attack (audioEngine w) n).
Qed.

Lemma stopNote_engineMove h n w :
  engineMove (audioEngine w) (audioEngine (stopNote h n w)).
Proof.
  unfold stopNote.
  destruct (isInitialized (audioEngine w)) eqn:Hi; simpl; [|constructor].
  destruct (mapGet n (activeNotes (audioEngine w))) as [v|] eqn:Hg; [|constructor].
  split_try; simpl; [constructor|].
  rewrite audioEngine_updateSpeakerIcon. simpl.
  by apply (move_remove (audioEngine w) n v).
Qed.

Lemma panicVoice_frame h t w entry :
  clock (panicVoice h t w entry) = clock w
  /\ audioEngine (panicVoice h t w entry) = audioEngine w
  /\ recordingSystem (panicVoice h t w entry) = recordingSystem w
  /\ page (panicVoice h t w entry) = page w.
Proof. unfold panicVoice. by split_try. Qed.

Lemma panic_frame h t l w :
  clock (foldl (panicVoice h t) w l) = clock w
  /\ audioEngine (foldl (panicVoice h t) w l) = audioEngine w
  /\ recordingSystem (foldl (panicVoice h t) w l) = recordingSystem w
  /\ page (foldl (panicVoice h t) w l) = page w.
Proof.
  revert w. induction l as [|entry l IH]; intros w; simpl; [done|].
  destruct (IH (panicVoice h t w entry)) as (-> & -> & -> & ->).
  apply panicVoice_frame.
Qed.

Lemma stopAllNotes_engineMove h w :
  engineMove (audioEngine w) (audioEngine (stopAllNotes h w)).
Proof.
  unfold stopAllNotes.
  destruct (isInitialized (audioEngine w)) eqn:Hi; simpl; [|constructor].
  rewrite audioEngine_updateSpeakerIcon. simpl.
  destruct (panic_frame h (clock w) (activeNotes (audioEngine w)) w)
    as (_ & He & _).
  unfold setActiveNotes. simpl. rewrite He.
  by apply (move_clear (audioEngine w)).
Qed.

Lemma releaseCleanup_engineMove h n o g w :
  engineMove (audioEngine w) (audioEngine (releaseCleanup h n o g w)).
Proof.
  unfold releaseCleanup.
  destruct (mapGet n (activeNotes (audioEngine w))) as [v|] eqn:Hg; [|constructor].
  case_decide; [|constructor].
  split_try; rewrite audioEngine_updateSpeakerIcon; simpl;
    by apply (move_remove (audioEngine w) n v).
Qed.

Lemma clearTimeouts_frame ids w :
  clock (foldl (fun acc id => clearTimeout id acc) w ids) = clock w
  /\ nextTimeoutId (foldl (fun acc id => clearTimeout id acc) w ids) = nextTimeoutId w
  /\ graph (foldl (fun acc id => clearTimeout id acc) w ids) = graph w
  /\ audioEngine (foldl (fun acc id => clearTimeout id acc) w ids) = audioEngine w
  /\ recordingSystem (foldl (fun acc id => clearTimeout id acc) w ids) = recordingSystem w
  /\ page (foldl (fun acc id => clearTimeout id acc) w ids) = page w.
Proof.
  revert w. induction ids as [|id ids IH]; intros w; simpl; [done|].
  destruct (IH (clearTimeout id w)) as (-> & -> & -> & -> & -> & ->). done.
Qed.

Lemma stopPlayback_engineMove h w :
  engineMove (audioEngine w) (audioEngine (stopPlayback h w)).
Proof.
  unfold stopPlayback.
  destruct (isPlaying (recordingSystem w)); simpl; [|constructor].
  match goal with |- context [stopAllNotes h ?x] => set (w2 := x) end.
  assert (audioEngine w2 = audioEngine w) as <-.
  { subst w2. simpl.
    by destruct (clearTimeouts_frame (playbackTimeouts (recordingSystem w)) w)
      as (_ & _ & _ & -> & _). }
  apply stopAllNotes_engineMove.
Qed.

Lemma playbackEvent_engineMove h ev i w :
  engineMove (audioEngine w) (audioEngine (playbackEvent h ev i w)).
Proof.
  unfold playbackEvent.
  assert (forall x : World, audioEngine
            (if decide (Z.of_nat i
                        = Z.of_nat (length (recordedEvents (recordingSystem x))) - 1)
             then snd (setTimeout PlaybackFinish 500 x) else x) = audioEngine x) as ->
    by (intros x; by case_decide).
  repeat case_decide; simpl;
    [apply playNote_engineMove | apply stopNote_engineMove | constructor].
Qed.

Lemma playRecording_unfold w :
  playRecording w
  = if isPlaying (recordingSystem w) then w
    else if negb (hasRecording w) then w
    else (scheduleEvents (recordedEvents (recordingSystem w)) 0
            (setPlayback true [] w)).1.
Proof.
  unfold playRecording, playRecordingOutcome.
  destruct (isPlaying (recordingSystem w)); [done|]. by destruct (negb (hasRecording w)).
Qed.

Lemma scheduleEvents_frame evs i w :
  clock (scheduleEvents evs i w).1 = clock w
  /\ graph (scheduleEvents evs i w).1 = graph w
  /\ audioEngine (scheduleEvents evs i w).1 = audioEngine w
  /\ page (scheduleEvents evs i w).1 = page w
  /\ recordedEvents (recordingSystem (scheduleEvents evs i w).1)
     = recordedEvents (recordingSystem w)
  /\ isRecording (recordingSystem (scheduleEvents evs i w).1)
     = isRecording (recordingSystem w)
  /\ recordingStartTime (recordingSystem (scheduleEvents evs i w).1)
     = recordingStartTime (recordingSystem w)
  /\ isPlaying (recordingSystem (scheduleEvents evs i w).1)
     = isPlaying (recordingSystem w).
Proof.
  revert i w. induction evs as [|[ev|] evs IH]; intros i w; simpl; [done| |done].
  match goal with |- context [scheduleEvents evs (S i) ?x] =>
    destruct (IH (S i) x) as (-> & -> & -> & -> & -> & -> & -> & ->) end.
  done.
Qed.

Lemma invoke_engineMove h c w :
  engineMove (audioEngine w) (audioEngine (invoke h c w)).
Proof.
  destruct c; simpl.
  - unfold init. destruct (isInitialized (audioEngine w)) eqn:Hi; [constructor|].
    destruct ok; [|constructor]. simpl. by apply move_init.
  - apply playNote_engineMove.
  - apply stopNote_engineMove.
  - apply stopAllNotes_engineMove.
  - unfold startRecording. destruct (isRecording _); constructor.
  - unfold stopRecording. destruct (isRecording _); constructor.
  - unfold recordEvent. destruct (isRecording _); constructor.
  - rewrite playRecording_unfold. destruct (isPlaying _); [constructor|].
    destruct (hasRecording w); simpl; [|constructor].
    match goal with |- context [scheduleEvents ?l ?i ?x] =>
      destruct (scheduleEvents_frame l i x) as (_ & _ & -> & _) end.
    constructor.
  - apply stopPlayback_engineMove.
  - unfold loadRecording. destruct (readFile f); constructor.
  - constructor.
Qed.

Lemma exec_engineMove h a w :
  engineMove (audioEngine w) (audioEngine (exec h a w)).
Proof.
  destruct a as [c| |dt]; simpl.
  - apply invoke_engineMove.
  - unfold fireTimer. destruct (nextDue (timers w)) as [t|]; [|constructor].
    match goal with |- context [runCallback h ?cb ?x] =>
      change (audioEngine w) with (audioEngine x) at 1;
      generalize x; intros w' end.
    destruct (callback t); simpl.
    + apply releaseCleanup_engineMove.
    + constructor.
    + apply playbackEvent_engineMove.
    + apply stopPlayback_engineMove.
  - unfold elapse. destruct (nextDue (timers w)); constructor.
Qed.

(** The engine invariant: one entry per key, nothing sounding before
    [init], and the counter is the size of the map. *)
Definition engineInv (e : AudioEngine) : Prop :=
  NoDup (activeNotes e).*1
  /\ (isInitialized e = false -> activeNotes e = [])
  /\ activeNoteCount e = Z.of_nat (length (activeNotes e)).

Lemma mapDelete_length n v (m : NoteMap) :
  mapGet n m = Some v -> length m = S (length (mapDelete n m)).
Proof.
  induction m as [|[k v'] m IH]; simpl; [done|].
  case_decide; [done|]. intros Hg. simpl. by rewrite <- IH.
Qed.

Lemma engineMove_inv e e' : engineMove e e' -> engineInv e -> engineInv e'.
Proof.
  intros Hm (Hnd & Hun & Hc). destruct Hm as [|mg Hi|n v Hi Hg|n v Hg|Hi].
  - done.
  - repeat split; simpl; auto; done.
  - unfold engineInv, withNotes. simpl. rewrite mapSet_fresh by done.
    rewrite fmap_app, length_app. simpl. repeat split.
    + apply NoDup_app. split; [done|]. split; [|apply NoDup_singleton].
      intros x Hx ->%list_elem_of_singleton. by apply mapGet_None in Hg.
    + congruence.
    + lia.
  - unfold engineInv, withNotes. simpl. repeat split.
    + apply (sublist_NoDup _ _ Hnd), fmap_sublist, mapDelete_sublist.
    + intros Hf. rewrite (Hun Hf) in Hg. done.
    + rewrite (mapDelete_length n v (activeNotes e)) in Hc by done. lia.
  - unfold engineInv, withNotes. simpl. repeat split; first [done | constructor].
Qed.

Lemma reachable_engineInv p w : reachable p w -> engineInv (audioEngine w).
Proof.
  induction 1 as [|h a w _ IH].
  - repeat split; simpl; first [done | constructor].
  - eapply engineMove_inv; [apply exec_engineMove | done].
Qed.

(** ** Note-on for a sounding note *)

Lemma playNote_active h n v w :
  mapHas n (activeNotes (audioEngine w)) = true -> playNote h n v w = w.
Proof.
  intros Hh. unfold playNote. rewrite Hh.
  by destruct (isInitialized (audioEngine w)).
Qed.

Lemma playNote_attack h n v w :
  isInitialized (audioEngine w) = true ->
  mapGet n (activeNotes (audioEngine w)) = None ->
  h (length (graph w)) = None ->
  activeNotes (audioEngine (playNote h n v w))
  = activeNotes (audioEngine w)
      ++ [(n, mkVoice (length (graph w)) (S (length (graph w))) (clock w))].
Proof.
  intros Hi Hg Hh. unfold playNote.
  rewrite Hi, (proj2 (mapHas_false _ _) Hg), Hh. simpl.
  rewrite audioEngine_updateSpeakerIcon. simpl. by apply mapSet_fresh.
Qed.

(** C1. A note-on for a note that already has an entry in [activeNotes]
    changes nothing, whatever the velocity; on an initialised engine whose
    attack does not throw, two note-ons in a row leave exactly one voice
    for the note, and the second one changes nothing; and every reachable
    state has at most one voice per note. *)
Theorem playNote_idempotent_attack :
  (forall h w n v,
      mapHas n (activeNotes (audioEngine w)) = true -> playNote h n v w = w)
  /\ (forall p h h' w n v v',
        reachable p w ->
        isInitialized (audioEngine w) = true ->
        h (length (graph w)) = None ->
        playNote h' n v' (playNote h n v w) = playNote h n v w
        /\ voicesFor n (activeNotes (audioEngine (playNote h n v w))) = 1%nat)
  /\ (forall p w n,
        reachable p w -> (voicesFor n (activeNotes (audioEngine w)) <= 1)%nat).
Proof.
  split; [|split].
  - intros h w n v. apply playNote_active.
  - intros p h h' w n v v' Hr Hi Hh.
    assert (reachable p (playNote h n v w)) as Hr'
      by apply (reachable_step p h (Invoke (PlayNote n v)) w Hr).
    destruct (reachable_engineInv _ _ Hr') as (Hnd & _).
    assert (exists vc, mapGet n (activeNotes (audioEngine (playNote h n v w))) = Some vc)
      as [vc Hvc].
    { destruct (mapGet n (activeNotes (audioEngine w))) as [vc|] eqn:Hg.
      - exists vc. rewrite playNote_active; [done|]. apply mapHas_true. eauto.
      - eexists. rewrite playNote_attack by done.
        rewrite <- mapSet_fresh by done. rewrite mapGet_mapSet.
        by rewrite decide_True. }
    split.
    + apply playNote_active, mapHas_true. eauto.
    + by apply (voicesFor_get n vc).
  - intros p w n Hr. apply voicesFor_NoDup.
    by destruct (reachable_engineInv _ _ Hr) as (Hnd & _).
Qed.

Definition demoPage : Page :=
  mkPage [(Some 60, false); (Some 62, false); (None, false)] (Some false).

Lemma playNote_idempotent_attack_witness :
  playNote reliable 60 (3 # 4) (playNote reliable 60 (1 # 2) (init true (boot demoPage)))
  = playNote reliable 60 (1 # 2) (init true (boot demoPage))
  /\ voicesFor 60
       (activeNotes (audioEngine
          (playNote reliable 60 (1 # 2) (init true (boot demoPage))))) = 1%nat.
Proof.
  destruct playNote_idempotent_attack as (_ & H & _).
  apply (H demoPage reliable reliable (init true (boot demoPage)) 60 (1 # 2) (3 # 4)).
  - apply (reachable_step demoPage reliable (Invoke (Init true))), reachable_boot.
  - reflexivity.
  - reflexivity.
Defined.

(** ** Emergency stop *)

(** C2. In every reachable state and whatever the host does to the
    release calls, [stopAllNotes] returns with [activeNotes] empty and the
    voice counter at 0: the map is cleared by the call itself, the timers
    it sets only disconnect nodes. *)
Theorem stopAllNotes_clears_synchronously (p : Page) (h : Host) (w : World) :
  reachable p w ->
  activeNotes (audioEngine (stopAllNotes h w)) = []
  /\ getActiveNoteCount (stopAllNotes h w) = 0.
Proof.
  intros Hr. destruct (reachable_engineInv _ _ Hr) as (_ & Hun & Hc).
  unfold getActiveNoteCount, stopAllNotes.
  destruct (isInitialized (audioEngine w)) eqn:Hi; simpl.
  - rewrite audioEngine_updateSpeakerIcon. done.
  - rewrite Hc, (Hun eq_refl). done.
Qed.

Lemma stopAllNotes_clears_synchronously_witness :
  activeNotes (audioEngine
     (stopAllNotes reliable
        (playNote reliable 62 (1 # 2)
           (playNote reliable 60 (1 # 2) (init true (boot demoPage)))))) = []
  /\ getActiveNoteCount
       (stopAllNotes reliable
          (playNote reliable 62 (1 # 2)
             (playNote reliable 60 (1 # 2) (init true (boot demoPage))))) = 0.
Proof.
  apply (stopAllNotes_clears_synchronously demoPage).
  apply (reachable_step demoPage reliable (Invoke (PlayNote 62 (1 # 2)))).
  apply (reachable_step demoPage reliable (Invoke (PlayNote 60 (1 # 2)))).
  apply (reachable_step demoPage reliable (Invoke (Init true))), reachable_boot.
Defined.

(** ** Recording *)

(** C7. [recordEvent] does nothing unless a recording is in progress; while
    one is, it appends one event, the given one with its timestamp taken
    relative to the start of the recording, and leaves the events already
    recorded, and everything else, as they were. *)
Theorem recordEvent_appends_relative (e : NoteEvent) (w : World) :
  (isRecording (recordingSystem w) = false -> recordEvent e w = w)
  /\ (isRecording (recordingSystem w) = true ->
      recordEvent e w
      = withRecorder
          (mkRecordingSystem true (isPlaying (recordingSystem w))
             (recordedEvents (recordingSystem w)
                ++ [EventObject
                      (mkNoteEvent (type e) (note e) (velocity e)
                         (stampMinus (timestamp e)
                            (recordingStartTime (recordingSystem w))))])
             (recordingStartTime (recordingSystem w))
             (playbackTimeouts (recordingSystem w)))
          w)
  /\ (forall t, timestamp e = Ms t ->
      stampMinus (timestamp e) (recordingStartTime (recordingSystem w))
      = Ms (t - recordingStartTime (recordingSystem w))).
Proof.
  unfold recordEvent, setRecorder, adjustedEvent.
  split; [|split]; [by intros -> | by intros -> | by intros t ->].
Qed.

Lemma recordEvent_appends_relative_witness :
  recordedEvents (recordingSystem
    (recordEvent (mkNoteEvent "noteOff" 60 0 (Ms 1730))
       (recordEvent (mkNoteEvent "noteOn" 60 (1 # 2) (Ms 1250))
          (startRecording (elapse 1000 (boot demoPage))))))
  = [EventObject (mkNoteEvent "noteOn" 60 (1 # 2) (Ms 250));
     EventObject (mkNoteEvent "noteOff" 60 0 (Ms 730))]
  /\ recordEvent (mkNoteEvent "noteOn" 60 (1 # 2) (Ms 1250)) (boot demoPage)
     = boot demoPage.
Proof.
  split.
  - rewrite (proj1 (proj2 (recordEvent_appends_relative _ _))) by reflexivity.
    rewrite (proj1 (proj2 (recordEvent_appends_relative _ _))) by reflexivity.
    reflexivity.
  - apply (proj1 (recordEvent_appends_relative _ _)). reflexivity.
Defined.

(** ** Starting a playback *)

(** The events [playRecording] gets to: those before the first [null]. *)
Fixpoint scheduled (evs : list Entry) : list NoteEvent :=
  match evs with
  | EventObject e :: rest => e :: scheduled rest
  | _ => []
  end.

Definition playbackTimer (w : World) (base : nat) (k : nat) (e : NoteEvent) : Timer :=
  mkTimer (nextTimeoutId w + k) (stampMs (timestamp e))
          (clock w + timerDelay (stampMs (timestamp e)))
          (PlaybackEvent e (base + k)).

Lemma scheduleEvents_timers evs i w :
  timers (scheduleEvents evs i w).1
  = timers w ++ imap (playbackTimer w i) (scheduled evs)
  /\ playbackTimeouts (recordingSystem (scheduleEvents evs i w).1)
     = playbackTimeouts (recordingSystem w)
       ++ seq (nextTimeoutId w) (length (scheduled evs))
  /\ nextTimeoutId (scheduleEvents evs i w).1
     = (nextTimeoutId w + length (scheduled evs))%nat.
Proof.
  revert i w. induction evs as [|[e|] evs IH]; intros i w; simpl;
    [by rewrite !app_nil_r, Nat.add_0_r | | by rewrite !app_nil_r, Nat.add_0_r].
  match goal with |- context [scheduleEvents evs (S i) ?x] =>
    destruct (IH (S i) x) as (-> & -> & ->) end.
  simpl. rewrite <- !app_assoc. simpl. repeat split.
  - f_equal. unfold playbackTimer at 2. rewrite !Nat.add_0_r. f_equal.
    apply imap_ext. intros k e' _. unfold playbackTimer. simpl.
    f_equal; [lia | f_equal; lia].
  - lia.
Qed.

Lemma scheduleEvents_returns evs i w :
  (scheduleEvents evs i w).2 = true <-> NullEntry ∉ evs.
Proof.
  revert i w. induction evs as [|[e|] evs IH]; intros i w; simpl.
  - split; [intros _ H; by apply elem_of_nil in H | done].
  - rewrite IH, not_elem_of_cons. split; [done | by intros [_ ?]].
  - split; [done|]. intros H. destruct H. left.
Qed.

Lemma scheduled_all evs : NullEntry ∉ evs -> EventObject <$> scheduled evs = evs.
Proof.
  induction evs as [|[e|] evs IH]; simpl; [done| |].
  - intros [_ H]%not_elem_of_cons. f_equal. by apply IH.
  - intros H. destruct H. left.
Qed.

Lemma toInt32_small (d : Z) :
  -2147483648 <= d <= 2147483647 -> toInt32 d = d.
Proof. intros Hd. unfold toInt32. rewrite Z.mod_small; lia. Qed.

Lemma timerDelay_small (d : Z) : 0 <= d <= 2147483647 -> timerDelay d = d.
Proof. intros Hd. unfold timerDelay. rewrite toInt32_small; lia. Qed.

Lemma timerDelay_nonneg (d : Z) : 0 <= timerDelay d.
Proof. unfold timerDelay. lia. Qed.

(** Arithmetic with the delays of timers in the goal. *)
Ltac delay_lia :=
  repeat match goal with
         | |- context [timerDelay ?d] =>
             lazymatch goal with
             | _ : 0 <= timerDelay d |- _ => fail
             | _ => pose proof (timerDelay_nonneg d)
             end
         end;
  lia.

(** C5. [playRecording] returns without touching anything when a playback
    is running or nothing is recorded.  Otherwise it marks the playback as
    running and sets one timer per recorded event up to the first [null]
    element, in order, with the event's stored timestamp as its delay and
    its identifier kept in [playbackTimeouts]; nothing else changes.  It
    returns exactly when no element is [null], and then every element has
    its timer.  The timer waits as long as the timestamp says when that
    is between 0 and 2147483647 ms. *)
Theorem playRecording_schedules (w : World) :
  (isPlaying (recordingSystem w) = true \/ recordedEvents (recordingSystem w) = [] ->
   playRecordingOutcome w = (w, true))
  /\ (isPlaying (recordingSystem w) = false ->
      recordedEvents (recordingSystem w) <> [] ->
      isPlaying (recordingSystem (playRecording w)) = true
      /\ timers (playRecording w)
         = timers w
             ++ imap (fun k e =>
                        mkTimer (nextTimeoutId w + k) (stampMs (timestamp e))
                                (clock w + timerDelay (stampMs (timestamp e)))
                                (PlaybackEvent e k))
                     (scheduled (recordedEvents (recordingSystem w)))
      /\ playbackTimeouts (recordingSystem (playRecording w))
         = seq (nextTimeoutId w)
               (length (scheduled (recordedEvents (recordingSystem w))))
      /\ recordedEvents (recordingSystem (playRecording w))
         = recordedEvents (recordingSystem w)
      /\ clock (playRecording w) = clock w
      /\ graph (playRecording w) = graph w
      /\ audioEngine (playRecording w) = audioEngine w
      /\ page (playRecording w) = page w
      /\ ((playRecordingOutcome w).2 = true
          <-> NullEntry ∉ recordedEvents (recordingSystem w))
      /\ (NullEntry ∉ recordedEvents (recordingSystem w) ->
          EventObject <$> scheduled (recordedEvents (recordingSystem w))
          = recordedEvents (recordingSystem w)))
  /\ (forall e t, timestamp e = Ms t -> 0 <= t <= 2147483647 ->
      stampMs (timestamp e) = t /\ timerDelay (stampMs (timestamp e)) = t).
Proof.
  split; [|split].
  - unfold playRecordingOutcome, hasRecording.
    intros [-> | Hnil]; [done|]. rewrite Hnil. simpl.
    by destruct (isPlaying (recordingSystem w)).
  - intros Hp Hne. rewrite playRecording_unfold. unfold playRecordingOutcome, hasRecording.
    rewrite Hp.
    rewrite bool_decide_true
      by (destruct (recordedEvents (recordingSystem w)); [done | simpl; lia]).
    simpl.
    match goal with |- context [scheduleEvents ?l ?i ?x] =>
      destruct (scheduleEvents_timers l i x) as (-> & -> & _);
      destruct (scheduleEvents_frame l i x) as (-> & -> & -> & -> & -> & _ & _ & ->);
      pose proof (scheduleEvents_returns l i x) as Hret
    end.
    split_and!; try done; first [exact Hret | apply scheduled_all].
  - intros e t -> Ht. simpl. split; [done|]. by apply timerDelay_small.
Qed.

Definition demoSession : World :=
  stopRecording
    (recordEvent (mkNoteEvent "noteOff" 60 0 (Ms 500))
       (recordEvent (mkNoteEvent "noteOn" 60 (1 # 2) (Ms 0))
          (startRecording (init true (boot demoPage))))).

Lemma playRecording_schedules_witness :
  playRecordingOutcome (playRecording demoSession) = (playRecording demoSession, true)
  /\ playRecordingOutcome (boot demoPage) = (boot demoPage, true)
  /\ map delay (timers (playRecording demoSession)) = [0; 500]
  /\ map due (timers (playRecording demoSession)) = [0; 500]
  /\ isPlaying (recordingSystem (playRecording demoSession)) = true.
Proof.
  split; [|split; [|split; [|split]]].
  - apply (proj1 (playRecording_schedules (playRecording demoSession))).
    left. reflexivity.
  - apply (proj1 (playRecording_schedules (boot demoPage))). right. reflexivity.
  - destruct (proj1 (proj2 (playRecording_schedules demoSession)) eq_refl)
      as (_ & -> & _); [discriminate | reflexivity].
  - destruct (proj1 (proj2 (playRecording_schedules demoSession)) eq_refl)
      as (_ & -> & _); [discriminate | reflexivity].
  - destruct (proj1 (proj2 (playRecording_schedules demoSession)) eq_refl)
      as (-> & _); [discriminate | reflexivity].
Defined.

(** A file whose array has a [null] between two events, loaded. *)
Definition demoNullTake : World :=
  fst (loadRecording
         (Parsed (DataWithEvents
            (JSArray [EventObject (mkNoteEvent "noteOn" 60 (1 # 2) (Ms 0));
                      NullEntry;
                      EventObject (mkNoteEvent "noteOff" 60 0 (Ms 500))])))
         (init true (boot demoPage))).

(** A file with an event seven weeks after the first, loaded. *)
Definition demoLongTake : World :=
  fst (loadRecording
         (Parsed (DataWithEvents
            (JSArray [EventObject (mkNoteEvent "noteOn" 60 (1 # 2) (Ms 100));
                      EventObject (mkNoteEvent "noteOff" 60 0 (Ms 3000000000))])))
         (init true (boot demoPage))).

(** One timer per recorded event, each waiting as long as the event's
    timestamp says, is not what happens in general: with a [null] among
    three elements [playRecording] throws with the playback marked as
    running and one timer set; and the timer of an event stored at
    3000000000 ms is due at once, before the one stored at 100 ms. *)
Lemma playRecording_schedules_counterexample :
  (isPlaying (recordingSystem demoNullTake) = false
   /\ length (recordedEvents (recordingSystem demoNullTake)) = 3%nat
   /\ (playRecordingOutcome demoNullTake).2 = false
   /\ isPlaying (recordingSystem (playRecording demoNullTake)) = true
   /\ length (timers (playRecording demoNullTake)) = 1%nat
   /\ length (timers (playRecording demoNullTake))
      <> length (recordedEvents (recordingSystem demoNullTake)))
  /\ (isPlaying (recordingSystem demoLongTake) = false
      /\ timestamp <$> scheduled (recordedEvents (recordingSystem demoLongTake))
         = [Ms 100; Ms 3000000000]
      /\ map delay (timers (playRecording demoLongTake)) = [100; 3000000000]
      /\ map due (timers (playRecording demoLongTake))
         = [clock demoLongTake + 100; clock demoLongTake + 0]
      /\ map due (timers (playRecording demoLongTake))
         <> [clock demoLongTake + 100; clock demoLongTake + 3000000000]).
Proof. vm_compute. repeat split; discriminate. Qed.

(** ** Loading and saving *)

Lemma validate_ok (data : ParsedData) (items : list Entry) :
  validate data = inr items <-> data = DataWithEvents (JSArray items).
Proof.
  split; [|by intros ->].
  destruct data as [| |ev]; simpl; [done..|].
  destruct ev; simpl; try done.
  - by destruct (negb b).
  - by destruct (negb (Qeq_bool x 0)).
  - by destruct (negb (bool_decide (s = ""))).
  - by intros [= ->].
Qed.

(** C4. Loading fails exactly when the file cannot be read or parsed, or
    the parsed document has no [events] property holding an array (the
    error being 'Invalid recording format' unless the document is [null],
    where reading the property throws); and a failed load leaves the world,
    the recorded events included, as it was. *)
Theorem loadRecording_rejects_malformed (f : FileResult) (w : World) :
  (snd (loadRecording f w) = None
   <-> exists items, f = Parsed (DataWithEvents (JSArray items)))
  /\ (forall data, f = Parsed data -> data <> DataNull ->
      (forall items, data <> DataWithEvents (JSArray items)) ->
      snd (loadRecording f w) = Some InvalidRecordingFormat)
  /\ (forall err, snd (loadRecording f w) = Some err -> fst (loadRecording f w) = w)
  /\ (forall items, f = Parsed (DataWithEvents (JSArray items)) ->
      recordedEvents (recordingSystem (fst (loadRecording f w))) = items).
Proof.
  unfold loadRecording. repeat split.
  - destruct (readFile f) as [err|items] eqn:Hr; simpl; [done|]. intros _.
    exists items. destruct f as [| |data]; simpl in Hr; try done.
    by apply validate_ok in Hr as ->.
  - by intros [items ->].
  - intros data -> Hnull Hno. simpl.
    destruct (validate data) as [err|items] eqn:Hv.
    + destruct data as [| |ev]; simpl in *; [done | by inversion Hv |].
      destruct (negb (truthy ev) || negb (isArray ev)); [by inversion Hv|].
      destruct ev; by inversion Hv.
    + apply validate_ok in Hv. by destruct (Hno items).
  - intros err. by destruct (readFile f).
  - by intros items ->.
Qed.

Lemma loadRecording_rejects_malformed_witness :
  snd (loadRecording (Parsed DataWithoutEvents) demoSession)
    = Some InvalidRecordingFormat
  /\ fst (loadRecording (Parsed (DataWithEvents (JSString "x"))) demoSession)
     = demoSession
  /\ recordedEvents (recordingSystem
       (fst (loadRecording
               (Parsed (DataWithEvents
                  (JSArray [EventObject (mkNoteEvent "noteOn" 64 (1 # 2) (Ms 0))])))
               demoSession)))
     = [EventObject (mkNoteEvent "noteOn" 64 (1 # 2) (Ms 0))].
Proof.
  split; [|split].
  - apply (proj1 (proj2 (loadRecording_rejects_malformed
                            (Parsed DataWithoutEvents) demoSession))
             DataWithoutEvents); done.
  - apply (proj1 (proj2 (proj2 (loadRecording_rejects_malformed
                            (Parsed (DataWithEvents (JSString "x"))) demoSession)))
             InvalidRecordingFormat).
    reflexivity.
  - by apply (proj2 (proj2 (proj2 (loadRecording_rejects_malformed _ demoSession)))).
Defined.

(** ** Saving, then loading *)














(** ** How one step moves the timers *)

(** [adds P w w']: the clock stands still and the pending timers of [w']
    are those of [w] followed by fresh ones, numbered from
    [nextTimeoutId w] on, all satisfying [P]. *)
Definition adds (P : Timer -> Prop) (w w' : World) : Prop :=
  clock w' = clock w
  /\ exists extra,
      timers w' = timers w ++ extra
      /\ timeoutId <$> extra = seq (nextTimeoutId w) (length extra)
      /\ nextTimeoutId w' = (nextTimeoutId w + length extra)%nat
      /\ Forall P extra.

Lemma adds_same P w w' :
  clock w' = clock w -> timers w' = timers w ->
  nextTimeoutId w' = nextTimeoutId w -> adds P w w'.
Proof.
  intros Hc Ht Hn. split; [done|]. exists [].
  rewrite app_nil_r. simpl. repeat split; try done. lia.
Qed.

Lemma adds_refl P w : adds P w w.
Proof. by apply adds_same. Qed.

Lemma adds_trans P w1 w2 w3 : adds P w1 w2 -> adds P w2 w3 -> adds P w1 w3.
Proof.
  intros (Hc1 & x1 & Ht1 & Hi1 & Hn1 & HP1) (Hc2 & x2 & Ht2 & Hi2 & Hn2 & HP2).
  split; [congruence|]. exists (x1 ++ x2).
  rewrite Ht2, Ht1, Hn2, Hn1, <- app_assoc, fmap_app, length_app, Hi1, Hi2, Hn1.
  repeat split.
  - by rewrite seq_app.
  - lia.
  - by apply Forall_app.
Qed.

Lemma adds_setTimeout (P : Timer -> Prop) cb d w :
  P (mkTimer (nextTimeoutId w) d (clock w + timerDelay d) cb) ->
  adds P w (snd (setTimeout cb d w)).
Proof.
  intros HP. split; [done|]. eexists [_]. simpl.
  repeat split; [lia | by constructor].
Qed.

(** What the engine and the playback callbacks may schedule, seen from a
    state with clock [now] and note map [m]. *)
Definition engineTimer (now : Z) (m : NoteMap) (t : Timer) : Prop :=
  now <= due t /\
  match callback t with
  | ReleaseCleanup n o g =>
      exists v, mapGet n m = Some v /\ o = osc v /\ g = noteGain v
  | PanicDisconnect o g =>
      exists k v, (k, v) ∈ m /\ o = osc v /\ g = noteGain v
  | PlaybackFinish => True
  | PlaybackEvent _ _ => False
  end.

Lemma updateSpeakerIcon_adds P w : adds P w (updateSpeakerIcon w).
Proof. unfold updateSpeakerIcon. destruct (speakerIcon (page w)); by apply adds_same. Qed.

Lemma playNote_adds P h n v w : adds P w (playNote h n v w).
Proof.
  unfold playNote.
  destruct (isInitialized (audioEngine w)); simpl; [|apply adds_refl].
  destruct (mapHas n (activeNotes (audioEngine w))); [apply adds_refl|].
  split_try; [|by apply adds_same].
  eapply adds_trans; [|apply updateSpeakerIcon_adds]. by apply adds_same.
Qed.

Lemma stopNote_adds h n w :
  adds (engineTimer (clock w) (activeNotes (audioEngine w))) w (stopNote h n w).
Proof.
  unfold stopNote.
  destruct (isInitialized (audioEngine w)); simpl; [|apply adds_refl].
  destruct (mapGet n (activeNotes (audioEngine w))) as [v|] eqn:Hg; [|apply adds_refl].
  split_try.
  - eapply adds_trans; [|apply adds_setTimeout]; [by apply adds_same|].
    split; simpl; [delay_lia | eauto].
  - eapply adds_trans; [|apply updateSpeakerIcon_adds]. by apply adds_same.
Qed.

Lemma panic_adds h t now (m : NoteMap) l w :
  clock w = now -> (forall e, e ∈ l -> e ∈ m) ->
  adds (engineTimer now m) w (foldl (panicVoice h t) w l).
Proof.
  revert w. induction l as [|[k v] l IH]; intros w Hc Hl; simpl; [apply adds_refl|].
  assert (adds (engineTimer now m) w (panicVoice h t w (k, v))) as Hs.
  { unfold panicVoice. simpl. split_try; [|by apply adds_same].
    eapply adds_trans; [|apply adds_setTimeout]; [by apply adds_same|].
    split; simpl; [delay_lia|]. exists k, v. split; [|done]. apply Hl. left. }
  eapply adds_trans; [exact Hs|]. apply IH.
  - destruct Hs as [-> _]. done.
  - intros e He. apply Hl. by right.
Qed.

Lemma stopAllNotes_adds h w :
  adds (engineTimer (clock w) (activeNotes (audioEngine w))) w (stopAllNotes h w).
Proof.
  unfold stopAllNotes.
  destruct (isInitialized (audioEngine w)); simpl; [|apply adds_refl].
  eapply adds_trans; [apply (panic_adds h (clock w) (clock w)
                               (activeNotes (audioEngine w))); done|].
  eapply adds_trans; [|apply updateSpeakerIcon_adds]. by apply adds_same.
Qed.

Lemma releaseCleanup_adds P h n o g w : adds P w (releaseCleanup h n o g w).
Proof.
  unfold releaseCleanup.
  destruct (mapGet n (activeNotes (audioEngine w))); [|apply adds_refl].
  case_decide; [|apply adds_refl].
  split_try; (eapply adds_trans; [|apply updateSpeakerIcon_adds]); by apply adds_same.
Qed.

Lemma playbackEvent_adds h ev i w :
  adds (engineTimer (clock w) (activeNotes (audioEngine w))) w (playbackEvent h ev i w).
Proof.
  unfold playbackEvent.
  match goal with |- context [if decide (type ev = "noteOn") then ?a else ?b] =>
    set (w1 := if decide (type ev = "noteOn") then a else b) end.
  assert (adds (engineTimer (clock w) (activeNotes (audioEngine w))) w w1) as H1.
  { subst w1. repeat case_decide.
    - eapply adds_trans; [apply playNote_adds | by apply adds_same].
    - eapply adds_trans; [apply stopNote_adds | by apply adds_same].
    - apply adds_refl. }
  case_decide; [|done].
  eapply adds_trans; [exact H1|]. apply adds_setTimeout.
  split; simpl; [|done]. destruct H1 as [-> _]. delay_lia.
Qed.

(** [stopPlayback] first cancels, then lets [stopAllNotes] add. *)
Definition cancelAll (ids : list nat) (w : World) : World :=
  foldl (fun acc id => clearTimeout id acc) w ids.

Lemma filter_all {A} (P : A -> Prop) `{!forall x, Decision (P x)} (l : list A) :
  Forall P l -> filter P l = l.
Proof.
  induction 1 as [|x l HP _ IH]; [done|]. by rewrite filter_cons_True, IH.
Qed.

Lemma cancelAll_timers ids w :
  timers (cancelAll ids w) = filter (fun t => timeoutId t ∉ ids) (timers w).
Proof.
  unfold cancelAll. revert w. induction ids as [|id ids IH]; intros w; simpl.
  - symmetry. apply filter_all, Forall_forall.
    intros t _. apply not_elem_of_nil.
  - rewrite IH. simpl. rewrite list_filter_filter. apply list_filter_iff.
    intros t. rewrite not_elem_of_cons. split; [intros [? ?]|intros [? ?]]; split;
      congruence.
Qed.

Lemma stopPlayback_adds h w :
  isPlaying (recordingSystem w) = true ->
  adds (engineTimer (clock w) (activeNotes (audioEngine w)))
       (cancelAll (playbackTimeouts (recordingSystem w)) w)
       (stopPlayback h w).
Proof.
  intros Hp. unfold stopPlayback. rewrite Hp. simpl.
  fold (cancelAll (playbackTimeouts (recordingSystem w)) w).
  set (w1 := cancelAll (playbackTimeouts (recordingSystem w)) w).
  destruct (clearTimeouts_frame (playbackTimeouts (recordingSystem w)) w)
    as (Hc & Hn & _ & He & _).
  fold (cancelAll (playbackTimeouts (recordingSystem w)) w) in Hc, Hn, He.
  fold w1 in Hc, Hn, He.
  match goal with |- context [stopAllNotes h ?x] => set (w2 := x) end.
  eapply adds_trans; [apply (adds_same _ w1 w2); done|].
  eapply adds_trans; [|by apply adds_same].
  rewrite <- Hc, <- He. apply (stopAllNotes_adds h w2).
Qed.

Lemma scheduleEvents_adds (P : Timer -> Prop) evs i w :
  (forall id e k, EventObject e ∈ evs ->
     P (mkTimer id (stampMs (timestamp e))
                (clock w + timerDelay (stampMs (timestamp e))) (PlaybackEvent e k))) ->
  adds P w (scheduleEvents evs i w).1.
Proof.
  revert i w. induction evs as [|[e|] evs IH]; intros i w HP; simpl;
    [apply adds_refl | | apply adds_refl].
  eapply adds_trans;
    [apply (adds_setTimeout P (PlaybackEvent e i) (stampMs (timestamp e)) w)|].
  { apply HP. left. }
  eapply adds_trans; [|apply IH].
  - by apply adds_same.
  - intros id e' k He'. apply (HP id e' k). by right.
Qed.

Lemma playRecording_adds w :
  adds (fun t => clock w <= due t /\ exists e k, callback t = PlaybackEvent e k)
       w (playRecording w).
Proof.
  rewrite playRecording_unfold.
  destruct (isPlaying (recordingSystem w)); [apply adds_refl|].
  destruct (hasRecording w); simpl; [|apply adds_refl].
  eapply adds_trans; [|apply scheduleEvents_adds].
  - by apply adds_same.
  - intros id e k _. simpl. split; [delay_lia | eauto].
Qed.

(** ** The timer invariant *)

(** Timer identifiers are distinct and already handed out, and no pending
    timer is overdue. *)
Definition timersInv (w : World) : Prop :=
  NoDup (timeoutId <$> timers w)
  /\ forall t, t ∈ timers w -> (timeoutId t < nextTimeoutId w)%nat /\ clock w <= due t.

Lemma adds_timersInv (P : Timer -> Prop) w w' :
  (forall t, P t -> clock w <= due t) ->
  adds P w w' -> timersInv w -> timersInv w'.
Proof.
  intros HP (Hc & x & Ht & Hi & Hn & Hx) (Hnd & Hb).
  assert (forall t, t ∈ x -> (nextTimeoutId w <= timeoutId t < nextTimeoutId w')%nat)
    as Hids.
  { intros t Hin.
    assert (timeoutId t ∈ seq (nextTimeoutId w) (length x)) as Hs
      by (rewrite <- Hi; apply list_elem_of_fmap; eauto).
    apply elem_of_seq in Hs. lia. }
  split.
  - rewrite Ht, fmap_app. apply NoDup_app. split; [done|]. split.
    + intros id (t & -> & Hin)%list_elem_of_fmap (t' & Heq & Hin')%list_elem_of_fmap.
      apply Hb in Hin. apply Hids in Hin'. lia.
    + rewrite Hi. apply NoDup_seq.
  - intros t. rewrite Ht, Hc, elem_of_app. intros [Hin|Hin].
    + destruct (Hb t Hin). split; [lia | done].
    + split; [apply Hids in Hin; lia|]. rewrite Forall_forall in Hx. auto.
Qed.

Lemma engineTimer_due now m t : engineTimer now m t -> now <= due t.
Proof. by intros [? _]. Qed.

Lemma filter_timersInv (Q : Timer -> Prop) `{!forall t, Decision (Q t)} w w' :
  clock w' = clock w -> nextTimeoutId w' = nextTimeoutId w ->
  timers w' = filter Q (timers w) -> timersInv w -> timersInv w'.
Proof.
  intros Hc Hn Ht (Hnd & Hb). split.
  - rewrite Ht. apply (sublist_NoDup _ _ Hnd), fmap_sublist, sublist_filter.
  - intros t. rewrite Ht, Hc, Hn. intros [_ Hin]%list_elem_of_filter. auto.
Qed.

Lemma cancelAll_timersInv ids w : timersInv w -> timersInv (cancelAll ids w).
Proof.
  destruct (clearTimeouts_frame ids w) as (Hc & Hn & _).
  apply (filter_timersInv (fun t => timeoutId t ∉ ids)); try done.
  apply cancelAll_timers.
Qed.

Lemma stopPlayback_timersInv h w : timersInv w -> timersInv (stopPlayback h w).
Proof.
  intros Hi. destruct (isPlaying (recordingSystem w)) eqn:Hp.
  - eapply adds_timersInv; [|by apply stopPlayback_adds|by apply cancelAll_timersInv].
    destruct (clearTimeouts_frame (playbackTimeouts (recordingSystem w)) w) as (Hc & _).
    unfold cancelAll. rewrite Hc. apply engineTimer_due.
  - unfold stopPlayback. by rewrite Hp.
Qed.

Lemma invoke_timersInv h c w : timersInv w -> timersInv (invoke h c w).
Proof.
  intros Hi. destruct c; simpl.
  - unfold init. destruct (isInitialized (audioEngine w)); [done|]. by destruct ok.
  - eapply adds_timersInv; [|apply (playNote_adds (fun _ => False))|done]. done.
  - eapply adds_timersInv; [|apply stopNote_adds|done]. apply engineTimer_due.
  - eapply adds_timersInv; [|apply stopAllNotes_adds|done]. apply engineTimer_due.
  - unfold startRecording. by destruct (isRecording _).
  - unfold stopRecording. by destruct (isRecording _).
  - unfold recordEvent. by destruct (isRecording _).
  - eapply adds_timersInv; [|apply playRecording_adds|done]. by intros t [? _].
  - by apply stopPlayback_timersInv.
  - unfold loadRecording. by destruct (readFile f).
  - done.
Qed.

Lemma runCallback_timersInv h cb w : timersInv w -> timersInv (runCallback h cb w).
Proof.
  intros Hi. destruct cb; simpl.
  - eapply adds_timersInv; [|apply (releaseCleanup_adds (fun _ => False))|done]. done.
  - done.
  - eapply adds_timersInv; [|apply playbackEvent_adds|done]. apply engineTimer_due.
  - by apply stopPlayback_timersInv.
Qed.

Lemma nextDue_Some ts t :
  nextDue ts = Some t -> t ∈ ts /\ forall t', t' ∈ ts -> due t <= due t'.
Proof.
  revert t. induction ts as [|t0 ts IH]; intros t; simpl; [done|].
  destruct (nextDue ts) as [t1|] eqn:Hn.
  - destruct (IH t1 eq_refl) as [Hin Hmin]. case_decide; intros [= <-].
    + split; [by right|]. intros t' [->|Hin']%elem_of_cons; [lia | auto].
    + split; [left|]. intros t' [->|Hin']%elem_of_cons; [lia|].
      specialize (Hmin t' Hin'). lia.
  - intros [= <-]. split; [left|]. destruct ts as [|t2 ts]; simpl in Hn.
    + by intros t' ->%list_elem_of_singleton.
    + by destruct (nextDue ts); [case_decide|].
Qed.

Lemma nextDue_None ts : nextDue ts = None -> ts = [].
Proof.
  destruct ts as [|t ts]; simpl; [done|].
  destruct (nextDue ts); [by case_decide | done].
Qed.

Lemma exec_timersInv h a w : timersInv w -> timersInv (exec h a w).
Proof.
  intros Hi. destruct a as [c| |dt]; simpl.
  - by apply invoke_timersInv.
  - unfold fireTimer. destruct (nextDue (timers w)) as [t|] eqn:Hn; [|done].
    apply runCallback_timersInv.
    destruct (nextDue_Some _ _ Hn) as [Hin Hmin]. destruct Hi as (Hnd & Hb). split.
    + simpl. apply (sublist_NoDup _ _ Hnd), fmap_sublist, sublist_filter.
    + simpl. intros t' [_ Hin']%list_elem_of_filter.
      destruct (Hb t' Hin'). specialize (Hmin t' Hin'). split; [done | lia].
  - unfold elapse. destruct Hi as (Hnd & Hb).
    destruct (nextDue (timers w)) as [t|] eqn:Hn; split; simpl; try done.
    + destruct (nextDue_Some _ _ Hn) as [Hin Hmin]. intros t' Hin'.
      destruct (Hb t' Hin'). specialize (Hmin t' Hin'). split; [done | lia].
    + apply nextDue_None in Hn. rewrite Hn. by intros t' ?%elem_of_nil.
Qed.

Lemma reachable_timersInv p w : reachable p w -> timersInv w.
Proof.
  induction 1 as [|h a w _ IH].
  - split; simpl; [constructor | by intros t ?%elem_of_nil].
  - by apply exec_timersInv.
Qed.

(** ** What the engine leaves alone *)

Lemma recorder_updateSpeakerIcon w :
  recordingSystem (updateSpeakerIcon w) = recordingSystem w.
Proof. unfold updateSpeakerIcon. by destruct (speakerIcon (page w)). Qed.

Lemma playNote_recorder h n v w :
  recordingSystem (playNote h n v w) = recordingSystem w.
Proof.
  unfold playNote. destruct (isInitialized (audioEngine w)); simpl; [|done].
  destruct (mapHas n (activeNotes (audioEngine w))); [done|].
  split_try; [|done]. by rewrite recorder_updateSpeakerIcon.
Qed.

Lemma stopNote_recorder h n w :
  recordingSystem (stopNote h n w) = recordingSystem w.
Proof.
  unfold stopNote. destruct (isInitialized (audioEngine w)); simpl; [|done].
  destruct (mapGet n (activeNotes (audioEngine w))); [|done].
  split_try; [done|]. by rewrite recorder_updateSpeakerIcon.
Qed.

Lemma stopAllNotes_recorder h w :
  recordingSystem (stopAllNotes h w) = recordingSystem w.
Proof.
  unfold stopAllNotes. destruct (isInitialized (audioEngine w)); simpl; [|done].
  rewrite recorder_updateSpeakerIcon. simpl.
  by destruct (panic_frame h (clock w) (activeNotes (audioEngine w)) w) as (_ & _ & -> & _).
Qed.

Lemma releaseCleanup_recorder h n o g w :
  recordingSystem (releaseCleanup h n o g w) = recordingSystem w.
Proof.
  unfold releaseCleanup. destruct (mapGet n (activeNotes (audioEngine w))); [|done].
  case_decide; [|done]. split_try; by rewrite recorder_updateSpeakerIcon.
Qed.

Lemma playbackEvent_recorder h ev i w :
  recordingSystem (playbackEvent h ev i w) = recordingSystem w.
Proof.
  unfold playbackEvent.
  assert (forall x : World, recordingSystem
            (if decide (Z.of_nat i
                        = Z.of_nat (length (recordedEvents (recordingSystem x))) - 1)
             then snd (setTimeout PlaybackFinish 500 x) else x) = recordingSystem x) as ->
    by (intros x; by case_decide).
  repeat case_decide; simpl;
    [apply playNote_recorder | apply stopNote_recorder | done].
Qed.

Lemma stopPlayback_recorder h w :
  isPlaying (recordingSystem w) = true ->
  recordingSystem (stopPlayback h w)
  = mkRecordingSystem (isRecording (recordingSystem w)) false
      (recordedEvents (recordingSystem w)) (recordingStartTime (recordingSystem w)) [].
Proof.
  intros Hp. unfold stopPlayback. rewrite Hp. simpl.
  rewrite stopAllNotes_recorder. simpl.
  by destruct (clearTimeouts_frame (playbackTimeouts (recordingSystem w)) w)
    as (_ & _ & _ & _ & -> & _).
Qed.

Lemma stopPlayback_idle h w :
  isPlaying (recordingSystem w) = false -> stopPlayback h w = w.
Proof. intros Hp. unfold stopPlayback. by rewrite Hp. Qed.

(** ** Playback leaves the recording alone *)

Lemma runCallback_recordedEvents h cb w :
  recordedEvents (recordingSystem (runCallback h cb w))
  = recordedEvents (recordingSystem w).
Proof.
  destruct cb; simpl.
  - by rewrite releaseCleanup_recorder.
  - done.
  - by rewrite playbackEvent_recorder.
  - destruct (isPlaying (recordingSystem w)) eqn:Hp.
    + by rewrite stopPlayback_recorder.
    + by rewrite stopPlayback_idle.
Qed.

Lemma exec_recordedEvents h a w :
  keepsRecording a ->
  recordedEvents (recordingSystem (exec h a w)) = recordedEvents (recordingSystem w).
Proof.
  destruct a as [c| |dt]; simpl.
  - destruct c; simpl; try done; intros _.
    + unfold init. destruct (isInitialized (audioEngine w)); [done|]. by destruct ok.
    + by rewrite playNote_recorder.
    + by rewrite stopNote_recorder.
    + by rewrite stopAllNotes_recorder.
    + unfold stopRecording. by destruct (isRecording (recordingSystem w)).
    + rewrite playRecording_unfold. destruct (isPlaying (recordingSystem w)); [done|].
      destruct (hasRecording w); simpl; [|done].
      match goal with |- context [scheduleEvents ?l ?i ?x] =>
        by destruct (scheduleEvents_frame l i x) as (_ & _ & _ & _ & -> & _) end.
    + apply (runCallback_recordedEvents h PlaybackFinish).
  - intros _. unfold fireTimer. destruct (nextDue (timers w)); [|done].
    by rewrite runCallback_recordedEvents.
  - intros _. unfold elapse. by destruct (nextDue (timers w)).
Qed.

Lemma run_cons s steps w : run (s :: steps) w = run steps (exec s.1 s.2 w).
Proof. reflexivity. Qed.

(** C10. Playing, stopping, the timers that fire meanwhile, and every other
    step that is not one of the recorder's writers ([startRecording],
    [recordEvent], [loadRecording], [clearRecording]) leave the recorded
    events as they were; so saving afterwards writes the same document. *)
Theorem playback_keeps_recording (steps : list (Host * Action)) (w : World) :
  Forall (fun s => keepsRecording s.2) steps ->
  recordedEvents (recordingSystem (run steps w)) = recordedEvents (recordingSystem w)
  /\ forall today, saveRecording today (run steps w) = saveRecording today w.
Proof.
  intros Hk.
  assert (recordedEvents (recordingSystem (run steps w))
          = recordedEvents (recordingSystem w)) as He.
  { revert w. induction Hk as [|[h a] steps Ha _ IH]; intros w; [done|].
    rewrite run_cons, IH. by apply exec_recordedEvents. }
  split; [done|]. intros today. unfold saveRecording, hasRecording. by rewrite He.
Qed.

Lemma playback_keeps_recording_witness :
  recordedEvents (recordingSystem
    (run [(reliable, Invoke PlayRecording); (reliable, FireTimer);
          (reliable, Elapse 10); (reliable, Invoke StopPlayback);
          (reliable, Invoke PlayRecording); (reliable, FireTimer);
          (reliable, FireTimer); (reliable, FireTimer)] demoSession))
  = [EventObject (mkNoteEvent "noteOn" 60 (1 # 2) (Ms 0));
     EventObject (mkNoteEvent "noteOff" 60 0 (Ms 500))].
Proof.
  refine (eq_trans (proj1 (playback_keeps_recording _ demoSession _)) _).
  - repeat constructor.
  - reflexivity.
Defined.

(** ** Stopping a playback *)

(** Every pending event callback belongs to the running playback, which
    knows its timer. *)
Definition playbackInv (w : World) : Prop :=
  forall t, t ∈ timers w -> isPlaybackEvent (callback t) ->
    isPlaying (recordingSystem w) = true
    /\ timeoutId t ∈ playbackTimeouts (recordingSystem w).

Definition noEventPending (w : World) : Prop :=
  forall t, t ∈ timers w -> ~ isPlaybackEvent (callback t).

Lemma engineTimer_not_event now m t : engineTimer now m t -> ~ isPlaybackEvent (callback t).
Proof. intros [_ H] Hev. by destruct (callback t). Qed.

Lemma adds_playbackInv now m w w' :
  adds (engineTimer now m) w w' ->
  recordingSystem w' = recordingSystem w ->
  playbackInv w -> playbackInv w'.
Proof.
  intros (_ & x & Ht & _ & _ & Hx) Hr Hi t. rewrite Ht, Hr, elem_of_app.
  intros [Hin|Hin] Hev; [by apply Hi|].
  rewrite Forall_forall in Hx. by apply Hx, engineTimer_not_event in Hin.
Qed.

Lemma adds_noEventPending now m w w' :
  adds (engineTimer now m) w w' -> noEventPending w -> noEventPending w'.
Proof.
  intros (_ & x & Ht & _ & _ & Hx) Hi t. rewrite Ht, elem_of_app.
  intros [Hin|Hin]; [by apply Hi|].
  rewrite Forall_forall in Hx. by apply Hx, engineTimer_not_event in Hin.
Qed.

Lemma stopPlayback_noEventPending h w :
  isPlaying (recordingSystem w) = true -> playbackInv w ->
  noEventPending (stopPlayback h w).
Proof.
  intros Hp Hi. eapply adds_noEventPending; [by apply stopPlayback_adds|].
  intros t. rewrite cancelAll_timers. intros [Hid Hin]%list_elem_of_filter Hev.
  by destruct (Hi t Hin Hev).
Qed.

Lemma noEventPending_playbackInv w : noEventPending w -> playbackInv w.
Proof. intros Hn t Hin Hev. by destruct (Hn t Hin). Qed.

Lemma playRecording_playbackInv w : playbackInv w -> playbackInv (playRecording w).
Proof.
  intros Hi. rewrite playRecording_unfold.
  destruct (isPlaying (recordingSystem w)) eqn:Hp; [done|].
  destruct (hasRecording w); simpl; [|done].
  match goal with |- context [scheduleEvents ?l ?i ?x] =>
    destruct (scheduleEvents_timers l i x) as (Ht & Hids & _);
    destruct (scheduleEvents_frame l i x) as (_ & _ & _ & _ & _ & _ & _ & Hpl)
  end.
  intros t. rewrite Ht, Hids, Hpl. simpl. rewrite elem_of_app.
  intros [Hin|Hin] Hev.
  - destruct (Hi t Hin Hev). congruence.
  - split; [done|]. apply elem_of_lookup_imap in Hin as (k & e & -> & Hk).
    simpl. apply elem_of_seq. apply lookup_lt_Some in Hk. lia.
Qed.

Lemma stopPlayback_playbackInv h w : playbackInv w -> playbackInv (stopPlayback h w).
Proof.
  intros Hi. destruct (isPlaying (recordingSystem w)) eqn:Hp.
  - by apply noEventPending_playbackInv, stopPlayback_noEventPending.
  - by rewrite stopPlayback_idle.
Qed.

Lemma invoke_playbackInv h c w : playbackInv w -> playbackInv (invoke h c w).
Proof.
  intros Hi. destruct c; simpl.
  - unfold init. destruct (isInitialized (audioEngine w)); [done|]. by destruct ok.
  - eapply adds_playbackInv; [apply (playNote_adds (engineTimer 0 [])) | | done].
    apply playNote_recorder.
  - eapply adds_playbackInv; [apply stopNote_adds | | done]. apply stopNote_recorder.
  - eapply adds_playbackInv; [apply stopAllNotes_adds | | done].
    apply stopAllNotes_recorder.
  - unfold startRecording. by destruct (isRecording _).
  - unfold stopRecording. by destruct (isRecording _).
  - unfold recordEvent. by destruct (isRecording _).
  - by apply playRecording_playbackInv.
  - by apply stopPlayback_playbackInv.
  - unfold loadRecording. by destruct (readFile f).
  - done.
Qed.

Lemma runCallback_playbackInv h cb w : playbackInv w -> playbackInv (runCallback h cb w).
Proof.
  intros Hi. destruct cb; simpl.
  - eapply adds_playbackInv; [apply (releaseCleanup_adds (engineTimer 0 [])) | | done].
    apply releaseCleanup_recorder.
  - done.
  - eapply adds_playbackInv; [apply playbackEvent_adds | | done].
    apply playbackEvent_recorder.
  - by apply stopPlayback_playbackInv.
Qed.

Lemma exec_playbackInv h a w : playbackInv w -> playbackInv (exec h a w).
Proof.
  intros Hi. destruct a as [c| |dt]; simpl.
  - by apply invoke_playbackInv.
  - unfold fireTimer. destruct (nextDue (timers w)) as [t|]; [|done].
    apply runCallback_playbackInv. intros t'. simpl.
    intros [_ Hin]%list_elem_of_filter. by apply Hi.
  - unfold elapse. by destruct (nextDue (timers w)).
Qed.

Lemma reachable_playbackInv p w : reachable p w -> playbackInv w.
Proof.
  induction 1 as [|h a w _ IH].
  - by intros t ?%elem_of_nil.
  - by apply exec_playbackInv.
Qed.

Lemma runCallback_noEventPending h cb w :
  noEventPending w -> noEventPending (runCallback h cb w).
Proof.
  intros Hi. destruct cb; simpl.
  - eapply adds_noEventPending; [apply (releaseCleanup_adds (engineTimer 0 []))|done].
  - done.
  - eapply adds_noEventPending; [apply playbackEvent_adds | done].
  - destruct (isPlaying (recordingSystem w)) eqn:Hp.
    + by apply stopPlayback_noEventPending, noEventPending_playbackInv.
    + by rewrite stopPlayback_idle.
Qed.

Lemma exec_noEventPending h a w :
  a <> Invoke PlayRecording -> noEventPending w -> noEventPending (exec h a w).
Proof.
  intros Ha Hi. destruct a as [c| |dt]; simpl.
  - destruct c; simpl; try done.
    + unfold init. destruct (isInitialized (audioEngine w)); [done|]. by destruct ok.
    + eapply adds_noEventPending; [apply (playNote_adds (engineTimer 0 []))|done].
    + eapply adds_noEventPending; [apply stopNote_adds | done].
    + eapply adds_noEventPending; [apply stopAllNotes_adds | done].
    + unfold startRecording. by destruct (isRecording _).
    + unfold stopRecording. by destruct (isRecording _).
    + unfold recordEvent. by destruct (isRecording _).
    + by apply (runCallback_noEventPending h PlaybackFinish).
    + unfold loadRecording. by destruct (readFile f).
  - unfold fireTimer. destruct (nextDue (timers w)) as [t|]; [|done].
    apply runCallback_noEventPending. intros t'. simpl.
    intros [_ Hin]%list_elem_of_filter. by apply Hi.
  - unfold elapse. by destruct (nextDue (timers w)).
Qed.

Lemma firedDuring_noEvent steps w :
  Forall (fun s => s.2 <> Invoke PlayRecording) steps ->
  noEventPending w ->
  Forall (fun cb => ~ isPlaybackEvent cb) (firedDuring steps w).
Proof.
  intros Hs. revert w. induction Hs as [|[h a] steps Ha _ IH]; intros w Hn; simpl;
    [constructor|].
  specialize (IH (exec h a w) (exec_noEventPending h a w Ha Hn)).
  destruct (firedBy a w) as [cb|] eqn:Hf; [|done].
  constructor; [|done].
  destruct a; simpl in Hf; try done.
  destruct (nextDue (timers w)) as [t|] eqn:Hd; simpl in Hf; [|done].
  injection Hf as <-. apply Hn. by apply nextDue_Some in Hd as [? _].
Qed.

Lemma stopAllNotes_engine h w :
  audioEngine (stopAllNotes h w)
  = if isInitialized (audioEngine w) then withNotes [] 0 (audioEngine w)
    else audioEngine w.
Proof.
  unfold stopAllNotes. destruct (isInitialized (audioEngine w)); simpl; [|done].
  rewrite audioEngine_updateSpeakerIcon. simpl.
  by destruct (panic_frame h (clock w) (activeNotes (audioEngine w)) w) as (_ & -> & _).
Qed.

(** Two worlds that differ at most in their pending timers and in the
    recorder. *)
Definition sameButTimers (w1 w2 : World) : Prop :=
  clock w1 = clock w2
  /\ nextTimeoutId w1 = nextTimeoutId w2
  /\ graph w1 = graph w2
  /\ audioEngine w1 = audioEngine w2
  /\ page w1 = page w2.

Lemma panicVoice_apart h t w1 w2 entry :
  sameButTimers w1 w2 ->
  sameButTimers (panicVoice h t w1 entry) (panicVoice h t w2 entry)
  /\ exists extra,
      timers (panicVoice h t w1 entry) = timers w1 ++ extra
      /\ timers (panicVoice h t w2 entry) = timers w2 ++ extra.
Proof.
  intros (Hc & Hn & Hg & He & Hp). unfold panicVoice. rewrite Hg.
  split_try; simpl.
  - rewrite Hc, Hn. split; [done|]. by eexists.
  - split; [done|]. exists []. by rewrite !app_nil_r.
Qed.

Lemma panic_apart h t l w1 w2 :
  sameButTimers w1 w2 ->
  sameButTimers (foldl (panicVoice h t) w1 l) (foldl (panicVoice h t) w2 l)
  /\ exists extra,
      timers (foldl (panicVoice h t) w1 l) = timers w1 ++ extra
      /\ timers (foldl (panicVoice h t) w2 l) = timers w2 ++ extra.
Proof.
  revert w1 w2. induction l as [|entry l IH]; intros w1 w2 Hs; simpl.
  - split; [done|]. exists []. by rewrite !app_nil_r.
  - destruct (panicVoice_apart h t w1 w2 entry Hs) as (Hs' & x & H1 & H2).
    destruct (IH _ _ Hs') as (Hs'' & y & H3 & H4). split; [done|].
    exists (x ++ y). by rewrite H3, H4, H1, H2, !app_assoc.
Qed.

(** What [stopAllNotes] does to the graph, the engine and the page, and
    the timers it sets, do not depend on the timers that are pending. *)
Lemma stopAllNotes_apart h w1 w2 :
  sameButTimers w1 w2 ->
  sameButTimers (stopAllNotes h w1) (stopAllNotes h w2)
  /\ exists extra,
      timers (stopAllNotes h w1) = timers w1 ++ extra
      /\ timers (stopAllNotes h w2) = timers w2 ++ extra.
Proof.
  intros Hs. pose proof Hs as (Hc & Hn & Hg & He & Hp). unfold stopAllNotes.
  rewrite He, Hc. destruct (isInitialized (audioEngine w2)); simpl.
  - destruct (panic_apart h (clock w2) (activeNotes (audioEngine w2)) w1 w2 Hs)
      as ((Hc' & Hn' & Hg' & He' & Hp') & x & H1 & H2).
    unfold updateSpeakerIcon. simpl. rewrite Hp'.
    destruct (speakerIcon (page _)); simpl; (split; [|by exists x]);
      unfold sameButTimers; simpl; by rewrite ?Hc', ?Hn', ?Hg', ?He'.
  - split; [done|]. exists []. by rewrite !app_nil_r.
Qed.

(** C6. [stopPlayback] does nothing when no playback is running.  When one
    is, in any reachable state: the playback is marked as stopped, its list
    of timers is emptied and no event callback is left pending; the audio
    graph, the engine and the page are as [stopAllNotes] leaves them (no
    voice is held any more), and the pending timers are those that were
    pending, without the ones listed in [playbackTimeouts], followed by
    the ones [stopAllNotes] sets; and in whatever happens next, short of a
    new [playRecording], no event callback fires. *)
Theorem stopPlayback_cancels (p : Page) (h : Host) (w : World) :
  (isPlaying (recordingSystem w) = false -> stopPlayback h w = w)
  /\ (reachable p w -> isPlaying (recordingSystem w) = true ->
      isPlaying (recordingSystem (stopPlayback h w)) = false
      /\ playbackTimeouts (recordingSystem (stopPlayback h w)) = []
      /\ (forall t, t ∈ timers (stopPlayback h w) -> ~ isPlaybackEvent (callback t))
      /\ graph (stopPlayback h w) = graph (stopAllNotes h w)
      /\ audioEngine (stopPlayback h w) = audioEngine (stopAllNotes h w)
      /\ page (stopPlayback h w) = page (stopAllNotes h w)
      /\ activeNotes (audioEngine (stopPlayback h w)) = []
      /\ (exists extra,
            timers (stopAllNotes h w) = timers w ++ extra
            /\ timers (stopPlayback h w)
               = filter (fun t => timeoutId t ∉ playbackTimeouts (recordingSystem w))
                        (timers w)
                 ++ extra)
      /\ forall steps,
           Forall (fun s => s.2 <> Invoke PlayRecording) steps ->
           Forall (fun cb => ~ isPlaybackEvent cb)
                  (firedDuring steps (stopPlayback h w))).
Proof.
  split; [apply stopPlayback_idle|]. intros Hr Hp.
  pose proof (stopPlayback_noEventPending h w Hp (reachable_playbackInv p w Hr)) as Hn.
  assert (sameButTimers w
            (setPlayback true []
               (cancelAll (playbackTimeouts (recordingSystem w)) w))) as Hs.
  { unfold cancelAll.
    destruct (clearTimeouts_frame (playbackTimeouts (recordingSystem w)) w)
      as (Hc & Hn' & Hg & He & _ & Hpg).
    unfold sameButTimers. simpl. by rewrite Hc, Hn', Hg, He, Hpg. }
  destruct (stopAllNotes_apart h _ _ Hs) as ((Hc & _ & Hg & He & Hpg) & extra & H1 & H2).
  assert (stopPlayback h w
          = setPlayback false
              (playbackTimeouts (recordingSystem
                 (stopAllNotes h (setPlayback true []
                    (cancelAll (playbackTimeouts (recordingSystem w)) w)))))
              (stopAllNotes h (setPlayback true []
                 (cancelAll (playbackTimeouts (recordingSystem w)) w)))) as Heq.
  { unfold stopPlayback, cancelAll. rewrite Hp. simpl.
    destruct (clearTimeouts_frame (playbackTimeouts (recordingSystem w)) w)
      as (_ & _ & _ & _ & -> & _). by rewrite Hp. }
  rewrite stopPlayback_recorder by done. simpl.
  split; [done|]. split; [done|]. split; [done|].
  rewrite Heq. simpl. rewrite <- Hg, <- He, <- Hpg.
  split; [done|]. split; [done|]. split; [done|]. split.
  { rewrite stopAllNotes_engine.
    destruct (reachable_engineInv p w Hr) as (_ & Hun & _).
    destruct (isInitialized (audioEngine w)); [done | by apply Hun]. }
  split.
  { exists extra. split; [done|]. rewrite H2. simpl. by rewrite cancelAll_timers. }
  intros steps Hsteps. rewrite <- Heq. by apply firedDuring_noEvent.
Qed.

Lemma reachable_run p steps w : reachable p w -> reachable p (run steps w).
Proof.
  revert w. induction steps as [|[h a] steps IH]; intros w Hr; [done|].
  rewrite run_cons. apply IH. by constructor.
Qed.

(** Five events are recorded and played; the first fires, ten milliseconds
    pass. *)
Definition demoFiveEvents : list (Host * Action) :=
  [ (reliable, Invoke (Init true));
    (reliable, Invoke StartRecording);
    (reliable, Invoke (RecordEvent (mkNoteEvent "noteOn" 60 (1 # 2) (Ms 0))));
    (reliable, Invoke (RecordEvent (mkNoteEvent "noteOn" 64 (1 # 2) (Ms 20))));
    (reliable, Invoke (RecordEvent (mkNoteEvent "noteOff" 60 0 (Ms 500))));
    (reliable, Invoke (RecordEvent (mkNoteEvent "noteOn" 62 (1 # 2) (Ms 600))));
    (reliable, Invoke (RecordEvent (mkNoteEvent "noteOff" 62 0 (Ms 900))));
    (reliable, Invoke StopRecording);
    (reliable, Invoke PlayRecording);
    (reliable, FireTimer);
    (reliable, Elapse 10) ].

Lemma stopPlayback_cancels_witness :
  isPlaying (recordingSystem
     (stopPlayback reliable (run demoFiveEvents (boot demoPage)))) = false
  /\ Forall (fun cb => ~ isPlaybackEvent cb)
       (firedDuring [(reliable, FireTimer); (reliable, Elapse 1000); (reliable, FireTimer)]
          (stopPlayback reliable (run demoFiveEvents (boot demoPage))))
  /\ graph (stopPlayback reliable (run demoFiveEvents (boot demoPage)))
     = graph (stopAllNotes reliable (run demoFiveEvents (boot demoPage)))
  /\ activeNotes (audioEngine
        (stopPlayback reliable (run demoFiveEvents (boot demoPage)))) = []
  /\ stopPlayback reliable (boot demoPage) = boot demoPage.
Proof.
  destruct (stopPlayback_cancels demoPage reliable
              (run demoFiveEvents (boot demoPage))) as [_ H].
  destruct H as (H1 & _ & _ & H2 & _ & _ & H3 & _ & H4).
  - apply reachable_run, reachable_boot.
  - vm_compute. reflexivity.
  - split; [exact H1|]. split; [|split; [exact H2|split; [exact H3|]]].
    + apply H4. repeat constructor; discriminate.
    + apply (proj1 (stopPlayback_cancels demoPage reliable (boot demoPage))).
      reflexivity.
Defined.

(** ** Voices and the nodes they own *)

Definition lengthStable (c : AudioCommand) : Prop := forall g, length (c g) = length g.

Lemma runAll_length_stable cmds g :
  Forall lengthStable cmds -> length (runAll cmds g) = length g.
Proof.
  unfold runAll. intros Hs. revert g.
  induction Hs as [|c cmds Hc _ IH]; intros g; simpl; [done|]. by rewrite IH, Hc.
Qed.

Lemma tryBlock_length_stable t cmds g :
  Forall lengthStable cmds -> length (tryBlock t cmds g).1 = length g.
Proof.
  intros Hs. unfold tryBlock. destruct t as [k|]; [case_decide|]; cbn [fst snd];
    apply runAll_length_stable; try done. by apply Forall_take.
Qed.

Lemma alter_lengthStable f i : lengthStable (alter f i).
Proof. intros g. apply length_alter. Qed.

Lemma releaseBlock_stable v t fade halt : Forall lengthStable (releaseBlock v t fade halt).
Proof. repeat constructor; apply alter_lengthStable. Qed.

Lemma disconnectBlock_stable o g : Forall lengthStable [disconnect o; disconnect g].
Proof. repeat constructor; apply alter_lengthStable. Qed.

Lemma runAll_length_mono cmds g :
  Forall (fun c : AudioCommand => forall g, (length g <= length (c g))%nat) cmds ->
  (length g <= length (runAll cmds g))%nat.
Proof.
  unfold runAll. intros Hs. revert g.
  induction Hs as [|c cmds Hc _ IH]; intros g; simpl; [done|].
  etrans; [apply Hc | apply IH].
Qed.

Lemma attackBlock_mono master o midi vel t :
  Forall (fun c : AudioCommand => forall g, (length g <= length (c g))%nat)
         (attackBlock master o midi vel t).
Proof.
  repeat constructor; intros g;
    first [ unfold createOscillator, createGain; rewrite length_app; simpl; lia
          | unfold setOscType, setFrequencyOf, setGainValue, connect, schedule, oscStart;
            rewrite length_alter; lia ].
Qed.

Lemma attack_length t master o midi vel now g :
  (length g <= length (tryBlock t (attackBlock master o midi vel now) g).1)%nat
  /\ ((tryBlock t (attackBlock master o midi vel now) g).2 = true ->
      length (tryBlock t (attackBlock master o midi vel now) g).1 = (length g + 2)%nat).
Proof.
  split.
  - unfold tryBlock. destruct t as [k|]; [case_decide|]; cbn [fst snd];
      apply runAll_length_mono; try apply attackBlock_mono.
    apply Forall_take, attackBlock_mono.
  - assert (length (runAll (attackBlock master o midi vel now) g) = (length g + 2)%nat) as Hl.
    { unfold attackBlock, runAll. simpl.
      unfold setOscType, setFrequencyOf, setGainValue, connect, schedule, oscStart,
        createOscillator, createGain.
      rewrite ?length_alter, ?length_app, ?length_alter, ?length_app.
      simpl. lia. }
    unfold tryBlock. destruct t as [k|]; [case_decide|]; cbn [fst snd]; done.
Qed.

(** Node [i] of the graph is an oscillator.  Commands never change what
    kind of node sits at an index. *)
Definition oscAt (g : AudioGraph) (i : nat) : Prop :=
  match g !! i with Some (OscillatorNode _ _ _ _ _) => True | _ => False end.

Definition keepsKind (c : AudioCommand) : Prop :=
  forall g i, oscAt g i -> oscAt (c g) i.

Lemma alter_keepsKind f j :
  (forall wf p a b out, exists wf' p' a' b' out',
      f (OscillatorNode wf p a b out) = OscillatorNode wf' p' a' b' out') ->
  keepsKind (alter f j).
Proof.
  intros Hf g i. unfold oscAt. rewrite list_lookup_alter.
  case_decide; [subst|done]. destruct (g !! i) as [[]|]; simpl; try done.
  intros _. by destruct (Hf waveform pitch startAt stopAt output)
    as (? & ? & ? & ? & ? & ->).
Qed.

Lemma append_keepsKind new : keepsKind (fun g => g ++ [new]).
Proof.
  intros g i. unfold oscAt. destruct (decide (i < length g)%nat).
  - by rewrite lookup_app_l.
  - by rewrite (lookup_ge_None_2 g i) by lia.
Qed.

Lemma runAll_keepsKind cmds : Forall keepsKind cmds -> keepsKind (runAll cmds).
Proof.
  unfold runAll. intros Hc. induction Hc as [|c cmds Hk _ IH]; intros g i Hi; [done|].
  simpl. by apply IH, Hk.
Qed.

Lemma tryBlock_keepsKind t cmds g i :
  Forall keepsKind cmds -> oscAt g i -> oscAt (tryBlock t cmds g).1 i.
Proof.
  intros Hc Hi. unfold tryBlock.
  destruct t as [k|]; [case_decide|]; cbn [fst]; apply runAll_keepsKind; try done.
  by apply Forall_take.
Qed.

Ltac kind_of_alter :=
  apply alter_keepsKind; intros; by repeat eexists.

Lemma releaseBlock_keepsKind v t fade halt : Forall keepsKind (releaseBlock v t fade halt).
Proof. repeat constructor; kind_of_alter. Qed.

Lemma disconnectBlock_keepsKind o g : Forall keepsKind [disconnect o; disconnect g].
Proof. repeat constructor; kind_of_alter. Qed.

Lemma attackBlock_keepsKind master o midi vel t :
  Forall keepsKind (attackBlock master o midi vel t).
Proof.
  repeat constructor; first [apply append_keepsKind | kind_of_alter].
Qed.

Lemma attackBlock_creates master midi vel t g :
  oscAt (runAll (attackBlock master (length g) midi vel t) g) (length g).
Proof.
  pose proof (attackBlock_keepsKind master (length g) midi vel t) as Hk.
  unfold attackBlock in *. apply Forall_cons in Hk as [_ Hk].
  match goal with |- oscAt (runAll (?c :: ?rest) g) _ =>
    change (oscAt (runAll rest (c g)) (length g)) end.
  apply (runAll_keepsKind _ Hk).
  unfold oscAt, createOscillator. by rewrite lookup_app_r, Nat.sub_diag by lia.
Qed.

(** How a step changes the note map, seen with the graph. *)
Definition mapMove (w w' : World) : Prop :=
  (length (graph w) <= length (graph w'))%nat
  /\ (sublist (activeNotes (audioEngine w')) (activeNotes (audioEngine w))
      \/ exists n st,
          mapGet n (activeNotes (audioEngine w)) = None
          /\ activeNotes (audioEngine w')
             = activeNotes (audioEngine w)
                 ++ [(n, mkVoice (length (graph w)) (S (length (graph w))) st)]
          /\ (length (graph w) + 2 <= length (graph w'))%nat
          /\ oscAt (graph w') (length (graph w))).

Lemma mapMove_same w w' :
  graph w' = graph w -> audioEngine w' = audioEngine w -> mapMove w w'.
Proof. intros Hg He. split; [by rewrite Hg|]. left. by rewrite He. Qed.

Lemma mapMove_then_same w w1 w2 :
  mapMove w w1 -> graph w2 = graph w1 -> audioEngine w2 = audioEngine w1 -> mapMove w w2.
Proof. intros Hm Hg He. unfold mapMove. by rewrite Hg, He. Qed.

Lemma graph_updateSpeakerIcon w : graph (updateSpeakerIcon w) = graph w.
Proof. unfold updateSpeakerIcon. by destruct (speakerIcon (page w)). Qed.

Lemma playNote_mapMove h n v w : mapMove w (playNote h n v w).
Proof.
  unfold playNote.
  destruct (isInitialized (audioEngine w)); simpl; [|by apply mapMove_same].
  destruct (mapHas n (activeNotes (audioEngine w))) eqn:Hh; [by apply mapMove_same|].
  apply mapHas_false in Hh.
  pose proof (attack_length (h (length (graph w))) (masterGain (audioEngine w))
                (length (graph w)) n v (clock w) (graph w)) as [Hmono Hok].
  assert ((tryBlock (h (length (graph w)))
             (attackBlock (masterGain (audioEngine w)) (length (graph w)) n v (clock w))
             (graph w)).2 = true ->
          oscAt (tryBlock (h (length (graph w)))
             (attackBlock (masterGain (audioEngine w)) (length (graph w)) n v (clock w))
             (graph w)).1 (length (graph w))) as Hosc.
  { unfold tryBlock. destruct (h (length (graph w))) as [k|]; [case_decide|];
      cbn [fst snd]; intros; try done; apply attackBlock_creates. }
  destruct (tryBlock _ _ _) as [gr ok]. simpl in *. destruct ok.
  - split; rewrite graph_updateSpeakerIcon, ?audioEngine_updateSpeakerIcon; simpl;
      [done|].
    right. exists n, (clock w). rewrite mapSet_fresh by done.
    split; [done|]. split; [done|].
    rewrite Hok by done. split; [lia | auto].
  - split; [done|]. by left.
Qed.

Lemma stopNote_mapMove h n w : mapMove w (stopNote h n w).
Proof.
  unfold stopNote.
  destruct (isInitialized (audioEngine w)); simpl; [|by apply mapMove_same].
  destruct (mapGet n (activeNotes (audioEngine w))) as [v|]; [|by apply mapMove_same].
  pose proof (tryBlock_length_stable (h (osc v)) _ (graph w)
                (releaseBlock_stable v (clock w) 100 150)) as Hl.
  destruct (tryBlock _ _ _) as [gr ok]. simpl in *. destruct ok.
  - split; simpl; [lia | by left].
  - split; rewrite graph_updateSpeakerIcon, ?audioEngine_updateSpeakerIcon; simpl;
      [lia|]. left. apply mapDelete_sublist.
Qed.

Lemma panic_graph_length h t l w :
  length (graph (foldl (panicVoice h t) w l)) = length (graph w).
Proof.
  revert w. induction l as [|[k v] l IH]; intros w; simpl; [done|].
  rewrite IH. unfold panicVoice. simpl.
  pose proof (tryBlock_length_stable (h (osc v)) _ (graph w)
                (releaseBlock_stable v t 50 100)) as Hl.
  destruct (tryBlock _ _ _) as [gr ok]. simpl in *. by destruct ok.
Qed.

Lemma stopAllNotes_mapMove h w : mapMove w (stopAllNotes h w).
Proof.
  split.
  - unfold stopAllNotes.
    destruct (isInitialized (audioEngine w)); simpl; [|done].
    rewrite graph_updateSpeakerIcon. simpl. by rewrite panic_graph_length.
  - left. rewrite stopAllNotes_engine.
    destruct (isInitialized (audioEngine w)); simpl; [apply sublist_nil_l | done].
Qed.

Lemma releaseCleanup_mapMove h n o g w : mapMove w (releaseCleanup h n o g w).
Proof.
  unfold releaseCleanup.
  destruct (mapGet n (activeNotes (audioEngine w))); [|by apply mapMove_same].
  case_decide; [|by apply mapMove_same].
  pose proof (tryBlock_length_stable (h o) _ (graph w) (disconnectBlock_stable o g)) as Hl.
  destruct (tryBlock _ _ _) as [gr ok]. simpl in *.
  split; rewrite graph_updateSpeakerIcon, ?audioEngine_updateSpeakerIcon; simpl; [lia|].
  left. apply mapDelete_sublist.
Qed.

Lemma panicDisconnect_mapMove h o g w : mapMove w (panicDisconnect h o g w).
Proof.
  unfold panicDisconnect. split; simpl; [|by left].
  by rewrite (tryBlock_length_stable (h o) _ (graph w) (disconnectBlock_stable o g)).
Qed.

Lemma playbackEvent_mapMove h ev i w : mapMove w (playbackEvent h ev i w).
Proof.
  unfold playbackEvent.
  match goal with |- context [if decide (type ev = "noteOn") then ?a else ?b] =>
    set (w1 := if decide (type ev = "noteOn") then a else b) end.
  assert (mapMove w w1) as H1.
  { subst w1. repeat case_decide.
    - eapply mapMove_then_same; [apply playNote_mapMove | done..].
    - eapply mapMove_then_same; [apply stopNote_mapMove | done..].
    - by apply mapMove_same. }
  case_decide; [|done]. by eapply mapMove_then_same.
Qed.

Lemma stopPlayback_mapMove h w : mapMove w (stopPlayback h w).
Proof.
  destruct (isPlaying (recordingSystem w)) eqn:Hp;
    [|rewrite stopPlayback_idle by done; by apply mapMove_same].
  unfold stopPlayback. rewrite Hp. simpl.
  match goal with |- context [stopAllNotes h ?x] => set (w2 := x) end.
  destruct (clearTimeouts_frame (playbackTimeouts (recordingSystem w)) w)
    as (_ & _ & Hg & He & _).
  assert (graph w2 = graph w) as Hg2 by done.
  assert (audioEngine w2 = audioEngine w) as He2 by done.
  destruct (stopAllNotes_mapMove h w2) as [Hl Hm].
  split; simpl; [by rewrite <- Hg2|].
  left. destruct Hm as [Hm|(n & st & _ & Hm & _ & _)]; [by rewrite <- He2|].
  rewrite stopAllNotes_engine in Hm.
  destruct (isInitialized (audioEngine w2)); simpl in Hm;
    apply (f_equal length) in Hm; rewrite length_app in Hm; simpl in Hm; lia.
Qed.

Lemma invoke_mapMove h c w : mapMove w (invoke h c w).
Proof.
  destruct c; simpl.
  - unfold init. destruct (isInitialized (audioEngine w)); [by apply mapMove_same|].
    destruct ok; [|by apply mapMove_same]. split; simpl; [|by left].
    unfold connect, setGainValue, createGain. rewrite !length_alter, !length_app.
    simpl. lia.
  - apply playNote_mapMove.
  - apply stopNote_mapMove.
  - apply stopAllNotes_mapMove.
  - unfold startRecording. destruct (isRecording _); by apply mapMove_same.
  - unfold stopRecording. destruct (isRecording _); by apply mapMove_same.
  - unfold recordEvent. destruct (isRecording _); by apply mapMove_same.
  - rewrite playRecording_unfold. destruct (isPlaying _); [by apply mapMove_same|].
    destruct (hasRecording w); simpl; [|by apply mapMove_same].
    match goal with |- context [scheduleEvents ?l ?i ?x] =>
      destruct (scheduleEvents_frame l i x) as (_ & Hg & He & _) end.
    by apply mapMove_same.
  - apply stopPlayback_mapMove.
  - unfold loadRecording. destruct (readFile f); by apply mapMove_same.
  - by apply mapMove_same.
Qed.

Lemma runCallback_mapMove h cb w : mapMove w (runCallback h cb w).
Proof.
  destruct cb; simpl.
  - apply releaseCleanup_mapMove.
  - apply panicDisconnect_mapMove.
  - apply playbackEvent_mapMove.
  - apply stopPlayback_mapMove.
Qed.

Lemma exec_mapMove h a w : mapMove w (exec h a w).
Proof.
  destruct a as [c| |dt]; simpl.
  - apply invoke_mapMove.
  - unfold fireTimer. destruct (nextDue (timers w)) as [t|]; [|by apply mapMove_same].
    match goal with |- context [runCallback h ?cb ?x] =>
      pose proof (runCallback_mapMove h cb x) as Hm end.
    exact Hm.
  - unfold elapse. destruct (nextDue (timers w)); by apply mapMove_same.
Qed.

(** Where a pending timer comes from: it was pending before the step, or
    the engine set it for a voice of the map, or it is an event callback. *)
Definition origin (w : World) (t : Timer) : Prop :=
  t ∈ timers w
  \/ (exists now, engineTimer now (activeNotes (audioEngine w)) t)
  \/ isPlaybackEvent (callback t).

Lemma adds_origin now w0 w w' :
  (forall t, t ∈ timers w0 -> t ∈ timers w) ->
  adds (engineTimer now (activeNotes (audioEngine w))) w0 w' ->
  forall t, t ∈ timers w' -> origin w t.
Proof.
  intros Hsub (_ & x & Ht & _ & _ & Hx) t. rewrite Ht, elem_of_app.
  intros [Hin|Hin]; [left; auto|]. right. left. exists now.
  rewrite Forall_forall in Hx. auto.
Qed.

Lemma adds_nothing w w' : adds (fun _ => False) w w' -> timers w' = timers w.
Proof.
  intros (_ & x & Ht & _ & _ & Hx). destruct x as [|t x]; [by rewrite app_nil_r in Ht|].
  by apply Forall_cons in Hx as [[] _].
Qed.

Lemma stopPlayback_origin h w t : t ∈ timers (stopPlayback h w) -> origin w t.
Proof.
  destruct (isPlaying (recordingSystem w)) eqn:Hp.
  - apply (adds_origin (clock w) (cancelAll (playbackTimeouts (recordingSystem w)) w));
      [|by apply stopPlayback_adds].
    intros t'. rewrite cancelAll_timers. by intros [_ ?]%list_elem_of_filter.
  - rewrite stopPlayback_idle by done. by left.
Qed.

Lemma runCallback_origin h cb w t : t ∈ timers (runCallback h cb w) -> origin w t.
Proof.
  destruct cb; simpl.
  - rewrite (adds_nothing _ _ (releaseCleanup_adds _ h midi o g w)). by left.
  - by left.
  - by apply (adds_origin (clock w) w), playbackEvent_adds.
  - apply stopPlayback_origin.
Qed.

Lemma invoke_origin h c w t : t ∈ timers (invoke h c w) -> origin w t.
Proof.
  destruct c; simpl.
  - unfold init. destruct (isInitialized (audioEngine w)); [by left|].
    destruct ok; by left.
  - rewrite (adds_nothing _ _ (playNote_adds _ h midi vel w)). by left.
  - by apply (adds_origin (clock w) w), stopNote_adds.
  - by apply (adds_origin (clock w) w), stopAllNotes_adds.
  - unfold startRecording. destruct (isRecording _); by left.
  - unfold stopRecording. destruct (isRecording _); by left.
  - unfold recordEvent. destruct (isRecording _); by left.
  - destruct (playRecording_adds w) as (_ & x & Ht & _ & _ & Hx).
    rewrite Ht, elem_of_app. intros [Hin|Hin]; [by left|].
    right. right. rewrite Forall_forall in Hx.
    destruct (Hx t Hin) as (_ & e & k & ->). done.
  - apply stopPlayback_origin.
  - unfold loadRecording. destruct (readFile f); by left.
  - by left.
Qed.

Lemma exec_origin h a w t : t ∈ timers (exec h a w) -> origin w t.
Proof.
  destruct a as [c| |dt]; simpl.
  - apply invoke_origin.
  - unfold fireTimer. destruct (nextDue (timers w)) as [t0|]; [|by left].
    intros [Hin|[Hin|Hin]]%runCallback_origin; [|by right; left|by right; right].
    left. simpl in Hin. by apply list_elem_of_filter in Hin as [_ ?].
  - unfold elapse. destruct (nextDue (timers w)); by left.
Qed.

(** The nodes a callback will touch are a voice's oscillator and the gain
    node created right after it, both in the graph. *)
Definition timerNodes (len : nat) (cb : Callback) : Prop :=
  match cb with
  | ReleaseCleanup _ o g | PanicDisconnect o g => g = S o /\ (S o < len)%nat
  | _ => True
  end.

Definition voicesInv (w : World) : Prop :=
  (forall k v, (k, v) ∈ activeNotes (audioEngine w) ->
     noteGain v = S (osc v) /\ (S (osc v) < length (graph w))%nat)
  /\ NoDup ((fun kv : Z * Voice => osc kv.2) <$> activeNotes (audioEngine w))
  /\ (forall t, t ∈ timers w -> timerNodes (length (graph w)) (callback t)).

Lemma voicesInv_step w w' :
  mapMove w w' -> (forall t, t ∈ timers w' -> origin w t) ->
  voicesInv w -> voicesInv w'.
Proof.
  intros [Hlen Hm] Ho (Ha & Hc & Hb).
  assert (forall k v, (k, v) ∈ activeNotes (audioEngine w') ->
            noteGain v = S (osc v) /\ (S (osc v) < length (graph w'))%nat) as Ha'.
  { intros k v Hin. destruct Hm as [Hs|(n & st & _ & Hm & Hl & _)].
    - destruct (Ha k v); [by eapply elem_of_sublist|]. split; [done | lia].
    - rewrite Hm, elem_of_app in Hin. destruct Hin as [Hin|Hin].
      + destruct (Ha k v Hin). split; [done | lia].
      + apply list_elem_of_singleton in Hin as [= -> ->]. simpl. split; [done | lia]. }
  split; [done|]. split.
  - destruct Hm as [Hs|(n & st & _ & Hm & Hl & _)].
    + by apply (sublist_NoDup _ _ Hc), fmap_sublist.
    + rewrite Hm, fmap_app. apply NoDup_app. split; [done|]. simpl. split.
      * intros x ([k v] & -> & Hin)%list_elem_of_fmap Heq%list_elem_of_singleton.
        destruct (Ha k v Hin). simpl in *. lia.
      * apply NoDup_singleton.
  - intros t Hin. destruct (Ho t Hin) as [Hold|[[now [_ He]]|Hev]].
    + specialize (Hb t Hold). destruct (callback t); simpl in *; try done;
        (split; [tauto | lia]).
    + destruct (callback t); simpl in *; try done.
      * destruct He as (v & Hg & -> & ->). apply mapGet_Some_elem in Hg.
        destruct (Ha _ _ Hg). split; [done | lia].
      * destruct He as (k & v & Hg & -> & ->).
        destruct (Ha _ _ Hg). split; [done | lia].
    + by destruct (callback t).
Qed.

Lemma reachable_voicesInv p w : reachable p w -> voicesInv w.
Proof.
  induction 1 as [|h a w _ IH].
  - unfold voicesInv. simpl. split; [by intros k v ?%elem_of_nil|].
    split; [apply NoDup_nil_2 | by intros t ?%elem_of_nil].
  - eapply voicesInv_step; [apply exec_mapMove | apply exec_origin | done].
Qed.

(** ** The deferred cleanup and the voice it was set for *)

Lemma releaseCleanup_other_instance h n o g w cur :
  mapGet n (activeNotes (audioEngine w)) = Some cur -> osc cur <> o ->
  releaseCleanup h n o g w = w.
Proof. intros Hg Hne. unfold releaseCleanup. rewrite Hg. by rewrite decide_False. Qed.


Lemma releaseCleanup_notes h n o g w :
  activeNotes (audioEngine (releaseCleanup h n o g w))
  = match mapGet n (activeNotes (audioEngine w)) with
    | Some cur => if decide (osc cur = o)
                  then mapDelete n (activeNotes (audioEngine w))
                  else activeNotes (audioEngine w)
    | None => activeNotes (audioEngine w)
    end.
Proof.
  unfold releaseCleanup. destruct (mapGet n (activeNotes (audioEngine w))); [|done].
  case_decide; [|done]. split_try; by rewrite audioEngine_updateSpeakerIcon.
Qed.

(** C9. The cleanup set by [stopNote] for the voice with oscillator [o]
    changes nothing when the entry it finds for the note belongs to another
    voice; it changes the map only when the entry is that very voice, and
    then touches no other note.  A voice created for the note while such a
    cleanup is pending has another oscillator, so the cleanup leaves it in
    place. *)
Theorem cleanup_spares_newer_voice :
  (forall h w n o g cur,
      mapGet n (activeNotes (audioEngine w)) = Some cur -> osc cur <> o ->
      releaseCleanup h n o g w = w)
  /\ (forall h w n o g,
        activeNotes (audioEngine (releaseCleanup h n o g w))
          <> activeNotes (audioEngine w) ->
        exists cur, mapGet n (activeNotes (audioEngine w)) = Some cur /\ osc cur = o)
  /\ (forall h w n o g k, k <> n ->
        mapGet k (activeNotes (audioEngine (releaseCleanup h n o g w)))
        = mapGet k (activeNotes (audioEngine w)))
  /\ (forall p w t n o g h v,
        reachable p w -> t ∈ timers w -> callback t = ReleaseCleanup n o g ->
        isInitialized (audioEngine w) = true ->
        mapGet n (activeNotes (audioEngine w)) = None ->
        h (length (graph w)) = None ->
        exists newer,
          mapGet n (activeNotes (audioEngine (playNote h n v w))) = Some newer
          /\ osc newer <> o
          /\ forall h', releaseCleanup h' n o g (playNote h n v w) = playNote h n v w).
Proof.
  split; [|split; [|split]].
  - intros h w n o g cur. apply releaseCleanup_other_instance.
  - intros h w n o g. rewrite releaseCleanup_notes.
    destruct (mapGet n (activeNotes (audioEngine w))) as [cur|]; [|done].
    case_decide; [eauto | done].
  - intros h w n o g k Hne. rewrite releaseCleanup_notes.
    destruct (mapGet n (activeNotes (audioEngine w))) as [cur|]; [|done].
    case_decide; [|done]. by apply mapGet_mapDelete_ne.
  - intros p w t n o g h v Hr Hin Hcb Hi Hg Hh.
    destruct (reachable_voicesInv p w Hr) as (_ & _ & Hb).
    specialize (Hb t Hin). rewrite Hcb in Hb. simpl in Hb.
    assert (mapGet n (activeNotes (audioEngine (playNote h n v w)))
            = Some (mkVoice (length (graph w)) (S (length (graph w))) (clock w))) as Hnew.
    { rewrite playNote_attack by done. rewrite <- mapSet_fresh by done.
      rewrite mapGet_mapSet. by rewrite decide_True. }
    eexists. split; [exact Hnew|]. simpl. split; [lia|].
    intros h'. apply (releaseCleanup_other_instance h' n o g _ _ Hnew). simpl. lia.
Qed.

(** A note is released, a panic clears the map, the note is struck again,
    and then the cleanup of the first voice fires. *)
Definition demoRestrike : list (Host * Action) :=
  [ (reliable, Invoke (Init true));
    (reliable, Invoke (PlayNote 60 (1 # 2)));
    (reliable, Elapse 100);
    (reliable, Invoke (StopNote 60));
    (reliable, Elapse 20);
    (reliable, Invoke StopAllNotes);
    (reliable, Elapse 20) ].

Lemma cleanup_spares_newer_voice_witness :
  exists newer,
    mapGet 60 (activeNotes (audioEngine
       (playNote reliable 60 (1 # 2) (run demoRestrike (boot demoPage))))) = Some newer
    /\ osc newer <> 2%nat
    /\ forall h', releaseCleanup h' 60 2 3
                    (playNote reliable 60 (1 # 2) (run demoRestrike (boot demoPage)))
                  = playNote reliable 60 (1 # 2) (run demoRestrike (boot demoPage)).
Proof.
  destruct cleanup_spares_newer_voice as (_ & _ & _ & H).
  apply (H demoPage (run demoRestrike (boot demoPage))
           (mkTimer 0 200 300 (ReleaseCleanup 60 2 3)) 60 2%nat 3%nat reliable (1 # 2)).
  - apply reachable_run, reachable_boot.
  - vm_compute. left.
  - reflexivity.
  - vm_compute. reflexivity.
  - vm_compute. reflexivity.
  - reflexivity.
Defined.

(** ** What the graph says about one node *)

(** [keeps obs S c]: the command [c] leaves the observation [obs] of every
    node outside [S] as it was. *)
Definition keeps {A} (obs : AudioGraph -> nat -> A) (S : nat -> Prop)
    (c : AudioCommand) : Prop :=
  forall g i, ~ S i -> obs (c g) i = obs g i.

Definition nowhere : nat -> Prop := fun _ => False.

Lemma keeps_weaken {A} (obs : AudioGraph -> nat -> A) (S S' : nat -> Prop) c :
  (forall i, S i -> S' i) -> keeps obs S c -> keeps obs S' c.
Proof. intros HS Hk g i Hi. apply Hk. auto. Qed.

Lemma alter_keeps {A} (proj : AudioNode -> option A) f j :
  (forall n, proj (f n) = proj n) ->
  keeps (fun g i => g !! i ≫= proj) nowhere (alter f j).
Proof.
  intros Hf g i _. simpl. rewrite list_lookup_alter. case_decide; [subst|done].
  destruct (g !! i); simpl; [apply Hf | done].
Qed.

Lemma alter_keeps_other {A} (proj : AudioNode -> option A) f j :
  keeps (fun g i => g !! i ≫= proj) (fun i => i = j) (alter f j).
Proof. intros g i Hi. simpl. by rewrite list_lookup_alter_ne by congruence. Qed.

Lemma append_keeps {A} (proj : AudioNode -> option A) new :
  proj new = None ->
  keeps (fun g i => g !! i ≫= proj) nowhere (fun g => g ++ [new]).
Proof.
  intros Hn g i _. simpl. destruct (decide (i < length g)%nat).
  - by rewrite lookup_app_l.
  - rewrite lookup_app_r by lia. rewrite (lookup_ge_None_2 g i) by lia. simpl.
    by destruct (i - length g)%nat.
Qed.

Lemma runAll_keeps {A} (obs : AudioGraph -> nat -> A) S cmds :
  Forall (keeps obs S) cmds -> keeps obs S (runAll cmds).
Proof.
  unfold runAll. intros Hc. induction Hc as [|c cmds Hk _ IH]; intros g i Hi; [done|].
  simpl. rewrite IH by done. by apply Hk.
Qed.

Lemma tryBlock_keeps {A} (obs : AudioGraph -> nat -> A) S t cmds :
  Forall (keeps obs S) cmds -> keeps obs S (fun g => (tryBlock t cmds g).1).
Proof.
  intros Hc g i Hi. unfold tryBlock.
  destruct t as [k|]; [case_decide|]; cbn [fst];
    [apply (runAll_keeps obs S (take k cmds)) | apply (runAll_keeps obs S cmds)..];
    try done.
  by apply Forall_take.
Qed.

Lemma attackBlock_keeps_stop master o midi vel t :
  Forall (keeps stopTimeOf nowhere) (attackBlock master o midi vel t).
Proof.
  repeat constructor;
    first [ by apply (append_keeps nodeStop)
          | apply (alter_keeps nodeStop); by intros [] ].
Qed.


Lemma releaseBlock_keeps_stop v t fade halt :
  Forall (keeps stopTimeOf (fun i => i = osc v)) (releaseBlock v t fade halt).
Proof.
  repeat constructor;
    first [ eapply keeps_weaken; [|apply (alter_keeps nodeStop); by intros []]; done
          | apply (alter_keeps_other nodeStop) ].
Qed.


Lemma disconnectBlock_keeps_stop o g :
  Forall (keeps stopTimeOf nowhere) [disconnect o; disconnect g].
Proof. repeat constructor; apply (alter_keeps nodeStop); by intros []. Qed.




(** ** What each method does to one note and one node *)

Lemma adds_keeps_timer P w w' t : adds P w w' -> t ∈ timers w -> t ∈ timers w'.
Proof. intros (_ & x & -> & _) Hin. apply elem_of_app. by left. Qed.

Lemma playNote_other h m v w n :
  m <> n ->
  mapGet n (activeNotes (audioEngine (playNote h m v w)))
  = mapGet n (activeNotes (audioEngine w)).
Proof.
  intros Hne. unfold playNote.
  destruct (isInitialized (audioEngine w)); simpl; [|done].
  destruct (mapHas m (activeNotes (audioEngine w))); [done|].
  split_try; [|done]. rewrite audioEngine_updateSpeakerIcon. simpl.
  rewrite mapGet_mapSet. by rewrite decide_False.
Qed.

Lemma playNote_graph h m v w :
  graph (playNote h m v w) = graph w
  \/ graph (playNote h m v w)
     = (tryBlock (h (length (graph w)))
          (attackBlock (masterGain (audioEngine w)) (length (graph w)) m v (clock w))
          (graph w)).1.
Proof.
  unfold playNote.
  destruct (isInitialized (audioEngine w)); simpl; [|by left].
  destruct (mapHas m (activeNotes (audioEngine w))); [by left|].
  right. destruct (tryBlock _ _ _) as [gr ok]. destruct ok; [|done].
  by rewrite graph_updateSpeakerIcon.
Qed.

Lemma playNote_stop h m v w i :
  stopTimeOf (graph (playNote h m v w)) i = stopTimeOf (graph w) i.
Proof.
  destruct (playNote_graph h m v w) as [->| ->]; [done|].
  apply (tryBlock_keeps stopTimeOf _ _ _ (attackBlock_keeps_stop _ _ _ _ _)).
  by intros [].
Qed.


Lemma stopNote_notes h m w :
  activeNotes (audioEngine (stopNote h m w)) = activeNotes (audioEngine w)
  \/ activeNotes (audioEngine (stopNote h m w))
     = mapDelete m (activeNotes (audioEngine w)).
Proof.
  unfold stopNote.
  destruct (isInitialized (audioEngine w)); simpl; [|by left].
  destruct (mapGet m (activeNotes (audioEngine w))); [|by left].
  split_try; [by left|]. right. by rewrite audioEngine_updateSpeakerIcon.
Qed.

Lemma stopNote_graph h m w :
  graph (stopNote h m w) = graph w
  \/ exists vm,
       mapGet m (activeNotes (audioEngine w)) = Some vm
       /\ graph (stopNote h m w)
          = (tryBlock (h (osc vm)) (releaseBlock vm (clock w) 100 150) (graph w)).1.
Proof.
  unfold stopNote.
  destruct (isInitialized (audioEngine w)); simpl; [|by left].
  destruct (mapGet m (activeNotes (audioEngine w))) as [vm|]; [|by left].
  right. exists vm. split; [done|].
  destruct (tryBlock _ _ _) as [gr ok]. destruct ok; [done|].
  by rewrite graph_updateSpeakerIcon.
Qed.

Lemma stopNote_stop h m w i :
  (forall vm, mapGet m (activeNotes (audioEngine w)) = Some vm -> osc vm <> i) ->
  stopTimeOf (graph (stopNote h m w)) i = stopTimeOf (graph w) i.
Proof.
  intros Hi. destruct (stopNote_graph h m w) as [->|(vm & Hg & ->)]; [done|].
  apply (tryBlock_keeps stopTimeOf _ _ _ (releaseBlock_keeps_stop _ _ _ _)).
  intros ->. by apply (Hi vm).
Qed.


Lemma releaseCleanup_graph h m o g w :
  graph (releaseCleanup h m o g w) = graph w
  \/ graph (releaseCleanup h m o g w)
     = (tryBlock (h o) [disconnect o; disconnect g] (graph w)).1.
Proof.
  unfold releaseCleanup.
  destruct (mapGet m (activeNotes (audioEngine w))); [|by left].
  case_decide; [|by left]. right.
  destruct (tryBlock _ _ _) as [gr ok]. by rewrite graph_updateSpeakerIcon.
Qed.

Lemma releaseCleanup_stop h m o g w i :
  stopTimeOf (graph (releaseCleanup h m o g w)) i = stopTimeOf (graph w) i.
Proof.
  destruct (releaseCleanup_graph h m o g w) as [->| ->]; [done|].
  apply (tryBlock_keeps stopTimeOf _ _ _ (disconnectBlock_keeps_stop _ _)).
  by intros [].
Qed.



Lemma panicDisconnect_stop h o g w i :
  stopTimeOf (graph (panicDisconnect h o g w)) i = stopTimeOf (graph w) i.
Proof.
  unfold panicDisconnect. simpl.
  apply (tryBlock_keeps stopTimeOf _ _ _ (disconnectBlock_keeps_stop _ _)).
  by intros [].
Qed.


(** The engine call made by the callback of a recorded event. *)
Definition playbackCall (h : Host) (ev : NoteEvent) (w : World) : World :=
  if decide (type ev = "noteOn") then playNote h (note ev) (velocity ev) w
  else if decide (type ev = "noteOff") then stopNote h (note ev) w
  else w.

Lemma playbackEvent_call h ev i w :
  audioEngine (playbackEvent h ev i w) = audioEngine (playbackCall h ev w)
  /\ graph (playbackEvent h ev i w) = graph (playbackCall h ev w).
Proof.
  unfold playbackEvent, playbackCall.
  repeat case_decide; simpl; done.
Qed.

Lemma stopPlayback_engine h w :
  audioEngine (stopPlayback h w)
  = if isPlaying (recordingSystem w)
    then audioEngine (stopAllNotes h w) else audioEngine w.
Proof.
  destruct (isPlaying (recordingSystem w)) eqn:Hp;
    [|by rewrite stopPlayback_idle].
  unfold stopPlayback. rewrite Hp. simpl. rewrite !stopAllNotes_engine. simpl.
  by destruct (clearTimeouts_frame (playbackTimeouts (recordingSystem w)) w)
    as (_ & _ & _ & -> & _).
Qed.

Lemma NoDup_fmap_inj_on {A B} (f : A -> B) (l : list A) x y :
  NoDup (f <$> l) -> x ∈ l -> y ∈ l -> f x = f y -> x = y.
Proof.
  induction l as [|a l IH]; [by intros _ ?%elem_of_nil|].
  rewrite fmap_cons. intros [Ha Hl]%NoDup_cons.
  intros [->|Hx]%elem_of_cons [->|Hy]%elem_of_cons Heq; try done.
  - exfalso. apply Ha. rewrite Heq. by apply list_elem_of_fmap_2.
  - exfalso. apply Ha. rewrite <- Heq. by apply list_elem_of_fmap_2.
  - by apply IH.
Qed.


(** ** Releasing a note *)














Section Release.
Variable n : Z.
Variable o : nat.
Variable T : Timer.
Hypothesis T_callback : callback T = ReleaseCleanup n o (S o).





End Release.

Lemma init_stop ok w i : stopTimeOf (graph (init ok w)) i = stopTimeOf (graph w) i.
Proof.
  unfold init. destruct (isInitialized (audioEngine w)); [done|]. destruct ok; [|done].
  simpl. unfold connect, setGainValue, createGain.
  rewrite (alter_keeps nodeStop) by (by intros [] || by intros []).
  rewrite (alter_keeps nodeStop) by (by intros [] || by intros []).
  rewrite (append_keeps nodeStop) by (done || by intros []).
  by rewrite (append_keeps nodeStop) by (done || by intros []).
Qed.




Section Settle.
Variable n : Z.
Variable o : nat.





End Settle.

(** ** The oscillator of a voice *)

Lemma playNote_oscAt h m v w i : oscAt (graph w) i -> oscAt (graph (playNote h m v w)) i.
Proof.
  intros Hi. destruct (playNote_graph h m v w) as [->| ->]; [done|].
  apply tryBlock_keepsKind; [apply attackBlock_keepsKind | done].
Qed.

Lemma stopNote_oscAt h m w i : oscAt (graph w) i -> oscAt (graph (stopNote h m w)) i.
Proof.
  intros Hi. destruct (stopNote_graph h m w) as [->|(vm & _ & ->)]; [done|].
  apply tryBlock_keepsKind; [apply releaseBlock_keepsKind | done].
Qed.

Lemma panic_oscAt h t l w i :
  oscAt (graph w) i -> oscAt (graph (foldl (panicVoice h t) w l)) i.
Proof.
  revert w. induction l as [|[k v] l IH]; intros w Hi; simpl; [done|].
  apply IH. unfold panicVoice. simpl.
  pose proof (tryBlock_keepsKind (h (osc v)) _ (graph w) i
                (releaseBlock_keepsKind v t 50 100) Hi) as Hk.
  destruct (tryBlock _ _ _) as [gr ok]. by destruct ok.
Qed.

Lemma stopAllNotes_oscAt h w i : oscAt (graph w) i -> oscAt (graph (stopAllNotes h w)) i.
Proof.
  intros Hi. unfold stopAllNotes.
  destruct (isInitialized (audioEngine w)); simpl; [|done].
  rewrite graph_updateSpeakerIcon. simpl. by apply panic_oscAt.
Qed.

Lemma releaseCleanup_oscAt h m o g w i :
  oscAt (graph w) i -> oscAt (graph (releaseCleanup h m o g w)) i.
Proof.
  intros Hi. destruct (releaseCleanup_graph h m o g w) as [->| ->]; [done|].
  apply tryBlock_keepsKind; [apply disconnectBlock_keepsKind | done].
Qed.

Lemma stopPlayback_oscAt h w i : oscAt (graph w) i -> oscAt (graph (stopPlayback h w)) i.
Proof.
  intros Hi. destruct (isPlaying (recordingSystem w)) eqn:Hp;
    [|by rewrite stopPlayback_idle].
  unfold stopPlayback. rewrite Hp. simpl. apply stopAllNotes_oscAt. simpl.
  by destruct (clearTimeouts_frame (playbackTimeouts (recordingSystem w)) w)
    as (_ & _ & -> & _).
Qed.

Lemma runCallback_oscAt h cb w i :
  oscAt (graph w) i -> oscAt (graph (runCallback h cb w)) i.
Proof.
  intros Hi. destruct cb; simpl.
  - by apply releaseCleanup_oscAt.
  - unfold panicDisconnect. simpl.
    apply tryBlock_keepsKind; [apply disconnectBlock_keepsKind | done].
  - destruct (playbackEvent_call h event index w) as [_ ->].
    unfold playbackCall. repeat case_decide;
      [by apply playNote_oscAt | by apply stopNote_oscAt | done].
  - by apply stopPlayback_oscAt.
Qed.

Lemma exec_oscAt h a w i : oscAt (graph w) i -> oscAt (graph (exec h a w)) i.
Proof.
  intros Hi. destruct a as [c| |dt]; simpl.
  - destruct c; simpl.
    + unfold init. destruct (isInitialized (audioEngine w)); [done|].
      destruct ok; [|done]. simpl. unfold connect, setGainValue, createGain.
      apply alter_keepsKind; [intros; by repeat eexists|].
      apply alter_keepsKind; [intros; by repeat eexists|].
      by apply append_keepsKind, append_keepsKind.
    + by apply playNote_oscAt.
    + by apply stopNote_oscAt.
    + by apply stopAllNotes_oscAt.
    + unfold startRecording. by destruct (isRecording _).
    + unfold stopRecording. by destruct (isRecording _).
    + unfold recordEvent. by destruct (isRecording _).
    + rewrite playRecording_unfold. destruct (isPlaying _); [done|].
      destruct (hasRecording w); simpl; [|done].
      match goal with |- context [scheduleEvents ?l ?i ?x] =>
        by destruct (scheduleEvents_frame l i x) as (_ & -> & _) end.
    + by apply stopPlayback_oscAt.
    + unfold loadRecording. by destruct (readFile f).
    + done.
  - unfold fireTimer. destruct (nextDue (timers w)); [|done].
    by apply runCallback_oscAt.
  - unfold elapse. by destruct (nextDue (timers w)).
Qed.

(** Every voice of the map holds an oscillator of the graph. *)
Definition oscInv (w : World) : Prop :=
  forall k v, (k, v) ∈ activeNotes (audioEngine w) -> oscAt (graph w) (osc v).

Lemma reachable_oscInv p w : reachable p w -> oscInv w.
Proof.
  induction 1 as [|h a w _ IH]; [by intros k v ?%elem_of_nil|].
  intros k v Hin. destruct (exec_mapMove h a w) as [_ [Hs|(n & st & _ & Hm & _ & Ho)]].
  - apply exec_oscAt, (IH k). by eapply elem_of_sublist.
  - rewrite Hm, elem_of_app in Hin. destruct Hin as [Hin|Hin].
    + by apply exec_oscAt, (IH k).
    + by apply list_elem_of_singleton in Hin as [= -> ->].
Qed.

Lemma stopTimeOf_oscStop g i t :
  oscAt g i -> stopTimeOf (oscStop i t g) i = Some t.
Proof.
  unfold oscAt, stopTimeOf, oscStop. rewrite list_lookup_alter_eq.
  by destruct (g !! i) as [[]|].
Qed.

Lemma stopNote_released h n w vc :
  isInitialized (audioEngine w) = true ->
  mapGet n (activeNotes (audioEngine w)) = Some vc ->
  h (osc vc) = None ->
  oscAt (graph w) (osc vc) ->
  stopNote h n w
  = snd (setTimeout (ReleaseCleanup n (osc vc) (noteGain vc)) cleanupDelay
           (withGraph (runAll (releaseBlock vc (clock w) 100 150) (graph w)) w))
  /\ stopTimeOf (graph (stopNote h n w)) (osc vc) = Some (clock w + 150).
Proof.
  intros Hi Hg Hh Ho. unfold stopNote. rewrite Hi, Hg, Hh. simpl. split; [done|].
  unfold runAll. simpl. apply stopTimeOf_oscStop.
  apply alter_keepsKind; [intros; by repeat eexists|].
  apply alter_keepsKind; [intros; by repeat eexists|].
  apply alter_keepsKind; [intros; by repeat eexists|]. done.
Qed.

Lemma stopNote_other h m w n :
  m <> n ->
  mapGet n (activeNotes (audioEngine (stopNote h m w)))
  = mapGet n (activeNotes (audioEngine w)).
Proof.
  intros Hne. destruct (stopNote_notes h m w) as [->| ->]; [done|].
  by apply mapGet_mapDelete_ne.
Qed.

Section Settling.
Variable n : Z.
Variable o : nat.
Variable s : Z.
Variable T : Timer.
Hypothesis T_callback : callback T = ReleaseCleanup n o (S o).






End Settling.


(** A note is held for 100 ms and released; another note is struck; the
    cleanup fires and 50 more milliseconds pass. *)
Definition demoHeld : list (Host * Action) :=
  [ (reliable, Invoke (Init true));
    (reliable, Invoke (PlayNote 60 (1 # 2)));
    (reliable, Elapse 100) ].







(** ** The voice counter and the speaker icon *)

(** X1. In every reachable state the voice counter equals the number of
    entries of [activeNotes]: [getActiveNoteCount] never drifts from the
    map, is never negative, and is 0 exactly when no voice is held. *)
Theorem counter_counts_voices (p : Page) (w : World) :
  reachable p w ->
  getActiveNoteCount w = Z.of_nat (length (activeNotes (audioEngine w)))
  /\ 0 <= getActiveNoteCount w
  /\ (getActiveNoteCount w = 0 <-> activeNotes (audioEngine w) = []).
Proof.
  intros Hr. destruct (reachable_engineInv _ _ Hr) as (_ & _ & Hc).
  unfold getActiveNoteCount. rewrite Hc. split; [done|]. split; [lia|].
  destruct (activeNotes (audioEngine w)); simpl; split; first [done | lia].
Qed.

Lemma counter_counts_voices_witness :
  getActiveNoteCount (run demoRestrike (boot demoPage))
  = Z.of_nat (length (activeNotes (audioEngine (run demoRestrike (boot demoPage)))))
  /\ 0 <= getActiveNoteCount (run demoRestrike (boot demoPage))
  /\ (getActiveNoteCount (run demoRestrike (boot demoPage)) = 0
      <-> activeNotes (audioEngine (run demoRestrike (boot demoPage))) = []).
Proof.
  apply (counter_counts_voices demoPage), reachable_run, reachable_boot.
Defined.

(** The icon shows whether the counter is positive. *)
Definition iconShowsCount (w : World) : Prop :=
  speakerIcon (page w)
  = Some (bool_decide (0 < activeNoteCount (audioEngine w))).

(** A step either leaves icon and counter alone or ends in
    [updateSpeakerIcon]. *)
Definition iconMove (w w' : World) : Prop :=
  (speakerIcon (page w) = None /\ speakerIcon (page w') = None)
  \/ (speakerIcon (page w') = speakerIcon (page w)
      /\ activeNoteCount (audioEngine w') = activeNoteCount (audioEngine w))
  \/ (is_Some (speakerIcon (page w)) /\ iconShowsCount w').

Lemma iconMove_same w w' :
  audioEngine w' = audioEngine w -> page w' = page w -> iconMove w w'.
Proof. intros He Hp. right; left. by rewrite He, Hp. Qed.

Lemma iconMove_update w w' :
  speakerIcon (page w') = speakerIcon (page w) -> iconMove w (updateSpeakerIcon w').
Proof.
  intros Hp. unfold iconMove, iconShowsCount, updateSpeakerIcon.
  destruct (speakerIcon (page w')) as [b|] eqn:Hb; simpl.
  - right; right. split; [rewrite <- Hp; by eexists | done].
  - by left.
Qed.

Lemma iconMove_then w w1 w2 :
  iconMove w w1 ->
  speakerIcon (page w2) = speakerIcon (page w1) ->
  activeNoteCount (audioEngine w2) = activeNoteCount (audioEngine w1) ->
  iconMove w w2.
Proof.
  unfold iconMove, iconShowsCount. intros H Hp Hc. rewrite Hp, Hc. done.
Qed.

Lemma playNote_iconMove h n v w : iconMove w (playNote h n v w).
Proof.
  unfold playNote. destruct (negb _); [by apply iconMove_same|].
  destruct (mapHas _ _); [by apply iconMove_same|].
  split_try; [by apply iconMove_update | by apply iconMove_same].
Qed.

Lemma stopNote_iconMove h n w : iconMove w (stopNote h n w).
Proof.
  unfold stopNote. destruct (negb _); [by apply iconMove_same|].
  destruct (mapGet _ _) as [v|]; [|by apply iconMove_same].
  split_try; [by apply iconMove_same | by apply iconMove_update].
Qed.

Lemma stopAllNotes_iconMove h w : iconMove w (stopAllNotes h w).
Proof.
  unfold stopAllNotes. destruct (negb _); [by apply iconMove_same|].
  apply iconMove_update. simpl.
  by destruct (panic_frame h (clock w) (activeNotes (audioEngine w)) w)
    as (_ & _ & _ & ->).
Qed.

Lemma releaseCleanup_iconMove h n o g w : iconMove w (releaseCleanup h n o g w).
Proof.
  unfold releaseCleanup.
  destruct (mapGet _ _) as [cur|]; [|by apply iconMove_same].
  case_decide; [|by apply iconMove_same].
  split_try; by apply iconMove_update.
Qed.

Lemma stopPlayback_iconMove h w : iconMove w (stopPlayback h w).
Proof.
  unfold stopPlayback. destruct (negb _); [by apply iconMove_same|].
  destruct (clearTimeouts_frame (playbackTimeouts (recordingSystem w)) w)
    as (_ & _ & _ & He & _ & Hp).
  match goal with |- iconMove _ (setPlayback false _ ?w3) =>
    apply (iconMove_then w w3); [|done..] end.
  match goal with |- iconMove _ (stopAllNotes h ?w1) =>
    pose proof (stopAllNotes_iconMove h w1) as H end.
  unfold iconMove in *. simpl in H. rewrite Hp, He in H. done.
Qed.

Lemma playbackEvent_iconMove h ev i w : iconMove w (playbackEvent h ev i w).
Proof.
  unfold playbackEvent.
  assert (forall w', iconMove w w' ->
            iconMove w
              (if decide (Z.of_nat i
                          = Z.of_nat (length (recordedEvents (recordingSystem w'))) - 1)
               then snd (setTimeout PlaybackFinish 500 w') else w')) as Hfin.
  { intros w' Hw'. case_decide; [|done]. by apply (iconMove_then w w'). }
  apply Hfin. repeat case_decide; [| |by apply iconMove_same].
  - apply (iconMove_then w (playNote h (note ev) (velocity ev) w));
      [apply playNote_iconMove | done..].
  - apply (iconMove_then w (stopNote h (note ev) w));
      [apply stopNote_iconMove | done..].
Qed.

Lemma exec_iconMove h a w : iconMove w (exec h a w).
Proof.
  destruct a as [c| |dt]; simpl.
  - destruct c; simpl;
      auto using playNote_iconMove, stopNote_iconMove, stopAllNotes_iconMove,
        stopPlayback_iconMove.
    + unfold init. destruct (isInitialized _); [by apply iconMove_same|].
      destruct ok; by right; left.
    + unfold startRecording. destruct (isRecording _); by apply iconMove_same.
    + unfold stopRecording. destruct (negb _); by apply iconMove_same.
    + unfold recordEvent. destruct (negb _); by apply iconMove_same.
    + rewrite playRecording_unfold. destruct (isPlaying _); [by apply iconMove_same|].
      destruct (negb _); [by apply iconMove_same|].
      destruct (scheduleEvents_frame (recordedEvents (recordingSystem w)) 0
                  (setPlayback true [] w)) as (_ & _ & He & Hp & _).
      by apply iconMove_same.
    + unfold loadRecording. destruct (readFile f); by apply iconMove_same.
    + by apply iconMove_same.
  - unfold fireTimer. destruct (nextDue _) as [t|]; [|by apply iconMove_same].
    match goal with |- iconMove _ (runCallback h _ ?w1) =>
      assert (iconMove w1 (runCallback h (callback t) w1)) as Hm end.
    { destruct (callback t); simpl;
        auto using releaseCleanup_iconMove, stopPlayback_iconMove,
          playbackEvent_iconMove.
      by apply iconMove_same. }
    exact Hm.
  - unfold elapse. destruct (nextDue _); by apply iconMove_same.
Qed.

(** X2. On a page whose speaker icon starts without the class [active],
    the icon carries the class in a reachable state exactly when at least
    one voice is in [activeNotes]; a page without the icon never gets one. *)
Theorem speaker_icon_shows_voices (p : Page) (w : World) :
  reachable p w ->
  (speakerIcon p = Some false ->
   speakerIcon (page w) = Some (bool_decide (activeNotes (audioEngine w) <> [])))
  /\ (speakerIcon p = None -> speakerIcon (page w) = None).
Proof.
  intros Hr. split.
  - intros Hp.
    assert (iconShowsCount w) as Hi.
    { induction Hr as [|h a w Hr IH]; [by unfold iconShowsCount; simpl|].
      destruct (exec_iconMove h a w) as [[H1 H2]|[[H1 H2]|[H1 H2]]]; [| |done].
      - unfold iconShowsCount in IH. congruence.
      - unfold iconShowsCount in *. by rewrite H1, H2. }
    unfold iconShowsCount in Hi. rewrite Hi. f_equal.
    destruct (reachable_engineInv _ _ Hr) as (_ & _ & Hc). rewrite Hc.
    apply bool_decide_ext.
    destruct (activeNotes (audioEngine w)); simpl; (split; intros H; [done || lia|]);
      [by destruct H | lia].
  - intros Hp. induction Hr as [|h a w Hr IH]; [done|].
    destruct (exec_iconMove h a w) as [[H1 H2]|[[H1 H2]|[[b H1] H2]]]; congruence.
Qed.

Lemma speaker_icon_shows_voices_witness :
  speakerIcon (page (run demoHeld (boot demoPage))) = Some true
  /\ speakerIcon (page (run demoRestrike (boot demoPage))) = Some false.
Proof.
  split.
  - apply (proj1 (speaker_icon_shows_voices demoPage (run demoHeld (boot demoPage))
                    (reachable_run _ _ _ (reachable_boot _)))).
    reflexivity.
  - apply (proj1 (speaker_icon_shows_voices demoPage (run demoRestrike (boot demoPage))
                    (reachable_run _ _ _ (reachable_boot _)))).
    reflexivity.
Defined.

(** ** No oscillator is left sounding without a voice *)

Lemma reachableGently_reachable p w : reachableGently p w -> reachable p w.
Proof. induction 1; by constructor. Qed.

Definition noStray (w : World) : Prop :=
  (forall i, sounding (graph w) i -> held w i)
  /\ (forall t n o g, t ∈ timers w -> callback t = ReleaseCleanup n o g ->
        is_Some (stopTimeOf (graph w) o)).

Lemma attackBlock_keeps_start master o midi vel t :
  Forall (keeps startTimeOf (fun i => i = o)) (attackBlock master o midi vel t).
Proof.
  repeat constructor;
    first [ eapply keeps_weaken; [|by apply (append_keeps nodeStart)]; done
          | eapply keeps_weaken; [|apply (alter_keeps nodeStart); by intros []]; done
          | apply (alter_keeps_other nodeStart) ].
Qed.

Lemma attackBlock_head_keeps_start master o midi vel t :
  Forall (keeps startTimeOf nowhere) (take 10 (attackBlock master o midi vel t)).
Proof.
  cbn [take attackBlock].
  repeat constructor;
    first [ by apply (append_keeps nodeStart)
          | apply (alter_keeps nodeStart); by intros [] ].
Qed.

(** A voice whose creation throws has not been started. *)
Lemma attack_thrown_start th master o midi vel t g i :
  (tryBlock th (attackBlock master o midi vel t) g).2 = false ->
  startTimeOf (tryBlock th (attackBlock master o midi vel t) g).1 i = startTimeOf g i.
Proof.
  unfold tryBlock. destruct th as [k|]; [case_decide as Hk|]; cbn [fst snd]; try done.
  intros _. cbn [length attackBlock] in Hk.
  assert (take k (attackBlock master o midi vel t)
          = take k (take 10 (attackBlock master o midi vel t))) as ->.
  { rewrite take_take. f_equal. lia. }
  apply (runAll_keeps startTimeOf nowhere); [|by intros []].
  apply Forall_take, attackBlock_head_keeps_start.
Qed.

Lemma releaseBlock_keeps_start v t fade halt :
  Forall (keeps startTimeOf nowhere) (releaseBlock v t fade halt).
Proof. repeat constructor; apply (alter_keeps nodeStart); by intros []. Qed.

Lemma disconnectBlock_keeps_start o g :
  Forall (keeps startTimeOf nowhere) [disconnect o; disconnect g].
Proof. repeat constructor; apply (alter_keeps nodeStart); by intros []. Qed.

Lemma playNote_start h m v w i :
  (forall e, e ∈ activeNotes (audioEngine w) ->
             e ∈ activeNotes (audioEngine (playNote h m v w)))
  /\ (startTimeOf (graph (playNote h m v w)) i = startTimeOf (graph w) i
      \/ held (playNote h m v w) i).
Proof.
  unfold playNote.
  destruct (isInitialized (audioEngine w)); simpl; [|by split; [|left]].
  destruct (mapHas m (activeNotes (audioEngine w))) eqn:Hm; [by split; [|left]|].
  apply mapHas_false in Hm.
  pose proof (attack_thrown_start (h (length (graph w))) (masterGain (audioEngine w))
                (length (graph w)) m v (clock w) (graph w) i) as Hth.
  pose proof (tryBlock_keeps startTimeOf _ (h (length (graph w))) _
                (attackBlock_keeps_start (masterGain (audioEngine w))
                   (length (graph w)) m v (clock w)) (graph w) i) as Hk.
  cbv beta in Hk. unfold held.
  destruct (tryBlock _ _ _) as [gr ok]. destruct ok; simpl in *.
  - rewrite audioEngine_updateSpeakerIcon, graph_updateSpeakerIcon. simpl.
    rewrite mapSet_fresh by done. split.
    + intros e He. apply elem_of_app. by left.
    + destruct (decide (i = length (graph w))) as [->|Hne]; [right|left; by apply Hk].
      eexists _, _. split; [apply elem_of_app; right; left|done].
  - split; [done | left; by apply Hth].
Qed.

Lemma playNote_timers h m v w : timers (playNote h m v w) = timers w.
Proof. apply adds_nothing, playNote_adds. Qed.

Lemma releaseCleanup_timers h n o g w : timers (releaseCleanup h n o g w) = timers w.
Proof. apply adds_nothing, releaseCleanup_adds. Qed.

Lemma playNote_noStray h m v w : noStray w -> noStray (playNote h m v w).
Proof.
  intros [Ha Hb]. split.
  - intros i [Hs Hn]. destruct (playNote_start h m v w i) as [Hin [Heq|Hh]]; [|done].
    rewrite playNote_stop in Hn. rewrite Heq in Hs.
    destruct (Ha i (conj Hs Hn)) as (k & vc & He & Ho). exists k, vc. auto.
  - intros t n o g Ht Hc. rewrite playNote_stop. rewrite playNote_timers in Ht. eauto.
Qed.

Lemma stopNote_start h m w i :
  startTimeOf (graph (stopNote h m w)) i = startTimeOf (graph w) i.
Proof.
  destruct (stopNote_graph h m w) as [->|(vm & Hg & ->)]; [done|].
  apply (tryBlock_keeps startTimeOf _ _ _ (releaseBlock_keeps_start _ _ _ _)).
  by intros [].
Qed.

Lemma stopNote_noStray h m w :
  gentle h w -> oscInv w -> noStray w -> noStray (stopNote h m w).
Proof.
  intros Hg Ho [Ha Hb].
  destruct (isInitialized (audioEngine w)) eqn:Hi; [|by unfold stopNote; rewrite Hi].
  destruct (mapGet m (activeNotes (audioEngine w))) as [vm|] eqn:Hm;
    [|by unfold stopNote; rewrite Hi, Hm].
  pose proof (mapGet_Some_elem _ _ _ Hm) as Hel.
  destruct (stopNote_released h m w vm Hi Hm (Hg _ _ Hel) (Ho _ _ Hel)) as [Heq Hst].
  assert (forall i, i <> osc vm ->
            stopTimeOf (graph (stopNote h m w)) i = stopTimeOf (graph w) i) as Hoth.
  { intros i Hne. apply stopNote_stop. intros vm' Hvm'. congruence. }
  split.
  - intros i [Hs Hn]. destruct (decide (i = osc vm)) as [->|Hne]; [congruence|].
    rewrite Hoth in Hn by done. rewrite stopNote_start in Hs.
    destruct (Ha i (conj Hs Hn)) as (k & vc & He & Hov). exists k, vc.
    split; [|done]. by rewrite Heq.
  - intros t n o g Ht Hc.
    destruct (decide (o = osc vm)) as [->|Hne]; [by rewrite Hst|].
    rewrite Hoth by done. rewrite Heq in Ht. simpl in Ht.
    apply elem_of_app in Ht as [Ht|Ht%list_elem_of_singleton]; [eauto|].
    subst t. simpl in Hc. congruence.
Qed.

Lemma release_stops v t fade halt g :
  oscAt g (osc v) ->
  stopTimeOf (runAll (releaseBlock v t fade halt) g) (osc v) = Some (t + halt).
Proof.
  intros Ho. unfold runAll. simpl. apply stopTimeOf_oscStop.
  apply alter_keepsKind; [intros; by repeat eexists|].
  apply alter_keepsKind; [intros; by repeat eexists|].
  apply alter_keepsKind; [intros; by repeat eexists|]. done.
Qed.

(** What the loop of [stopAllNotes] does to the graph when no release
    throws. *)
Lemma panic_stops h t l w :
  NoDup ((fun kv : Z * Voice => osc kv.2) <$> l) ->
  (forall e, e ∈ l -> h (osc e.2) = None /\ oscAt (graph w) (osc e.2)) ->
  (forall i, startTimeOf (graph (foldl (panicVoice h t) w l)) i
             = startTimeOf (graph w) i)
  /\ (forall e, e ∈ l ->
        stopTimeOf (graph (foldl (panicVoice h t) w l)) (osc e.2) = Some (t + 100))
  /\ (forall i, (forall e, e ∈ l -> osc e.2 <> i) ->
        stopTimeOf (graph (foldl (panicVoice h t) w l)) i = stopTimeOf (graph w) i).
Proof.
  revert w. induction l as [|[k v] l IH]; intros w Hnd Hl.
  { split; [done|]. split; [|done]. intros e He. by apply elem_of_nil in He. }
  rewrite fmap_cons in Hnd. apply NoDup_cons in Hnd as [Hv Hnd]. simpl in Hv.
  destruct (Hl (k, v)) as [Hh Ho]; [left|]. simpl in Hh, Ho.
  assert (graph (panicVoice h t w (k, v))
          = runAll (releaseBlock v t 50 100) (graph w)) as Hg.
  { unfold panicVoice. simpl. by rewrite Hh. }
  destruct (IH (panicVoice h t w (k, v)) Hnd) as (IH1 & IH2 & IH3).
  { intros e He. split; [apply Hl; by right|]. rewrite Hg.
    apply (runAll_keepsKind _ (releaseBlock_keepsKind v t 50 100)).
    apply Hl. by right. }
  simpl. split; [|split].
  - intros i. rewrite IH1, Hg.
    apply (runAll_keeps startTimeOf _ _ (releaseBlock_keeps_start v t 50 100)).
    by intros [].
  - intros e [->|He]%elem_of_cons; [|by apply IH2]. simpl. rewrite IH3.
    + rewrite Hg. by apply release_stops.
    + intros e He Heq. apply Hv. apply list_elem_of_fmap. by exists e.
  - intros i Hi. rewrite IH3 by (intros e He; apply Hi; by right). rewrite Hg.
    apply (runAll_keeps stopTimeOf _ _ (releaseBlock_keeps_stop v t 50 100)).
    intros ->. by apply (Hi (k, v)); [left|].
Qed.

Definition isPanicDisconnect (t : Timer) : Prop :=
  match callback t with PanicDisconnect _ _ => True | _ => False end.

Lemma panic_adds_disconnects h t l w :
  adds isPanicDisconnect w (foldl (panicVoice h t) w l).
Proof.
  revert w. induction l as [|[k v] l IH]; intros w; simpl; [apply adds_refl|].
  eapply adds_trans; [|apply IH].
  unfold panicVoice. simpl. split_try; [|by apply adds_same].
  eapply adds_trans; [|apply adds_setTimeout]; [by apply adds_same|]. done.
Qed.

Lemma stopAllNotes_adds_disconnects h w :
  adds isPanicDisconnect w (stopAllNotes h w).
Proof.
  unfold stopAllNotes.
  destruct (isInitialized (audioEngine w)); simpl; [|apply adds_refl].
  eapply adds_trans; [apply panic_adds_disconnects|].
  eapply adds_trans; [|apply updateSpeakerIcon_adds]. by apply adds_same.
Qed.

(** [stopAllNotes] when no release throws: every held oscillator is told
    to stop 100 ms from now, and nothing else changes start or stop. *)
Lemma stopAllNotes_stops h w :
  gentle h w -> oscInv w ->
  NoDup ((fun kv : Z * Voice => osc kv.2) <$> activeNotes (audioEngine w)) ->
  isInitialized (audioEngine w) = true ->
  (forall i, startTimeOf (graph (stopAllNotes h w)) i = startTimeOf (graph w) i)
  /\ (forall i, held w i ->
        stopTimeOf (graph (stopAllNotes h w)) i = Some (clock w + 100))
  /\ (forall i, ~ held w i ->
        stopTimeOf (graph (stopAllNotes h w)) i = stopTimeOf (graph w) i).
Proof.
  intros Hg Ho Hnd Hi.
  destruct (panic_stops h (clock w) (activeNotes (audioEngine w)) w Hnd)
    as (H1 & H2 & H3).
  { intros [k v] He. split; [by apply (Hg k v) | by apply (Ho k v)]. }
  unfold stopAllNotes. rewrite Hi. simpl. rewrite graph_updateSpeakerIcon. simpl.
  split; [done|]. split.
  - intros i (k & v & He & <-). by apply (H2 (k, v)).
  - intros i Hn. apply H3. intros [k v] He Heq. apply Hn. by exists k, v.
Qed.

Lemma held_or_not w i : held w i \/ ~ held w i.
Proof.
  destruct (decide (i ∈ (fun kv : Z * Voice => osc kv.2) <$> activeNotes (audioEngine w)))
    as [Hin|Hout].
  - left. apply list_elem_of_fmap in Hin as ([k v] & -> & He). by exists k, v.
  - right. intros (k & v & He & <-). apply Hout, list_elem_of_fmap. by exists (k, v).
Qed.

Lemma stopAllNotes_noStray h w :
  gentle h w -> oscInv w ->
  NoDup ((fun kv : Z * Voice => osc kv.2) <$> activeNotes (audioEngine w)) ->
  noStray w ->
  noStray (stopAllNotes h w)
  /\ (isInitialized (audioEngine w) = true ->
      forall i, ~ sounding (graph (stopAllNotes h w)) i).
Proof.
  intros Hg Ho Hnd [Ha Hb].
  destruct (isInitialized (audioEngine w)) eqn:Hi;
    [|by unfold stopAllNotes; rewrite Hi].
  destruct (stopAllNotes_stops h w Hg Ho Hnd Hi) as (H1 & H2 & H3).
  assert (forall i, ~ sounding (graph (stopAllNotes h w)) i) as Hsil.
  { intros i [Hs Hn]. rewrite H1 in Hs.
    assert (~ held w i) as Hnh by (intros Hh; rewrite (H2 i Hh) in Hn; done).
    rewrite H3 in Hn by done. by apply Hnh, Ha. }
  split; [|done]. split.
  - intros i Hs. by destruct (Hsil i).
  - intros t n o g Ht Hc.
    destruct (stopAllNotes_adds_disconnects h w) as (_ & extra & Hts & _ & _ & Hex).
    rewrite Hts in Ht. apply elem_of_app in Ht as [Ht|Ht].
    + pose proof (Hb t n o g Ht Hc) as Hsome.
      destruct (held_or_not w o) as [Hh|Hh]; [by rewrite H2|by rewrite H3].
    + rewrite Forall_forall in Hex. specialize (Hex t Ht).
      unfold isPanicDisconnect in Hex. by rewrite Hc in Hex.
Qed.

Lemma mapGet_elem_NoDup (n : Z) (v : Voice) (m : NoteMap) :
  NoDup m.*1 -> (n, v) ∈ m -> mapGet n m = Some v.
Proof.
  induction m as [|[k v'] m IH]; simpl; [by intros _ ?%elem_of_nil|].
  intros [Hk Hm]%NoDup_cons [[= -> ->]|Hin]%elem_of_cons.
  - by rewrite decide_True.
  - case_decide; [|auto]. subst. exfalso. apply Hk.
    apply list_elem_of_fmap. by exists (n, v).
Qed.

Lemma mapDelete_keeps (m : NoteMap) n k v :
  k <> n -> (k, v) ∈ m -> (k, v) ∈ mapDelete n m.
Proof.
  intros Hne. induction m as [|[k' v'] m IH]; simpl; [done|].
  intros [[= <- <-]|Hin]%elem_of_cons.
  - rewrite decide_False by done. left.
  - case_decide; [done|]. right. auto.
Qed.

Lemma releaseCleanup_start h m o g w i :
  startTimeOf (graph (releaseCleanup h m o g w)) i = startTimeOf (graph w) i.
Proof.
  destruct (releaseCleanup_graph h m o g w) as [->| ->]; [done|].
  apply (tryBlock_keeps startTimeOf _ _ _ (disconnectBlock_keeps_start _ _)).
  by intros [].
Qed.

Lemma releaseCleanup_noStray h n o g w :
  NoDup (activeNotes (audioEngine w)).*1 ->
  is_Some (stopTimeOf (graph w) o) ->
  noStray w -> noStray (releaseCleanup h n o g w).
Proof.
  intros Hnd Ho [Ha Hb]. split.
  - intros i [Hs Hn]. rewrite releaseCleanup_start in Hs.
    rewrite releaseCleanup_stop in Hn.
    destruct (Ha i (conj Hs Hn)) as (k & v & He & Hov). exists k, v.
    split; [|done]. rewrite releaseCleanup_notes.
    destruct (mapGet n (activeNotes (audioEngine w))) as [cur|] eqn:Hcur; [|done].
    case_decide as Hoc; [|done]. apply mapDelete_keeps; [|done]. intros ->.
    rewrite (mapGet_elem_NoDup _ _ _ Hnd He) in Hcur. injection Hcur as ->.
    rewrite <- Hoc, Hov, Hn in Ho. by destruct Ho.
  - intros t n' o' g' Ht Hc. rewrite releaseCleanup_stop.
    rewrite releaseCleanup_timers in Ht. eauto.
Qed.

Lemma panicDisconnect_start h o g w i :
  startTimeOf (graph (panicDisconnect h o g w)) i = startTimeOf (graph w) i.
Proof.
  unfold panicDisconnect. simpl.
  apply (tryBlock_keeps startTimeOf _ _ _ (disconnectBlock_keeps_start _ _)).
  by intros [].
Qed.

(** A change that leaves graph and engine alone and sets no cleanup. *)
Lemma noStray_frame w w' :
  graph w' = graph w -> audioEngine w' = audioEngine w ->
  (forall t, t ∈ timers w' ->
     t ∈ timers w \/ forall n o g, callback t <> ReleaseCleanup n o g) ->
  noStray w -> noStray w'.
Proof.
  intros Hg He Ht [Ha Hb]. unfold noStray, held. rewrite Hg, He. split; [done|].
  intros t n o g Hin Hc. destruct (Ht t Hin) as [Hold|Hnew]; [eauto|].
  by destruct (Hnew n o g).
Qed.

Lemma panicDisconnect_noStray h o g w : noStray w -> noStray (panicDisconnect h o g w).
Proof.
  intros [Ha Hb]. split.
  - intros i [Hs Hn]. rewrite panicDisconnect_start in Hs.
    rewrite panicDisconnect_stop in Hn. by apply Ha.
  - intros t n' o' g' Ht Hc. rewrite panicDisconnect_stop. eauto.
Qed.

Lemma stopPlayback_noStray h w :
  gentle h w -> oscInv w ->
  NoDup ((fun kv : Z * Voice => osc kv.2) <$> activeNotes (audioEngine w)) ->
  noStray w -> noStray (stopPlayback h w).
Proof.
  intros Hg Ho Hnd Hn. unfold stopPlayback. destruct (negb _); [done|].
  destruct (clearTimeouts_frame (playbackTimeouts (recordingSystem w)) w)
    as (_ & _ & Hgr & He & _ & _).
  match goal with |- noStray (setPlayback false _ (stopAllNotes h ?w2)) =>
    assert (noStray w2) as H2; [|assert (noStray (stopAllNotes h w2)) as H3] end.
  - apply (noStray_frame w); simpl; [done..| |done].
    intros t Ht. left. fold (cancelAll (playbackTimeouts (recordingSystem w)) w) in Ht.
    rewrite cancelAll_timers in Ht. by apply list_elem_of_filter in Ht as [_ ?].
  - apply stopAllNotes_noStray; try done.
    + unfold gentle. simpl. by rewrite He.
    + unfold oscInv. simpl. by rewrite He, Hgr.
    + simpl. by rewrite He.
  - revert H3. apply noStray_frame; simpl; auto.
Qed.

Lemma playbackEvent_noStray h ev i w :
  gentle h w -> oscInv w -> noStray w -> noStray (playbackEvent h ev i w).
Proof.
  intros Hg Ho Hn. unfold playbackEvent.
  match goal with |- context [if decide (type ev = "noteOn") then ?a else ?b] =>
    set (w1 := if decide (type ev = "noteOn") then a else b) end.
  assert (noStray w1) as H1.
  { subst w1. repeat case_decide; [| |done].
    - apply (noStray_frame (playNote h (note ev) (velocity ev) w)); simpl; auto.
      by apply playNote_noStray.
    - apply (noStray_frame (stopNote h (note ev) w)); simpl; auto.
      by apply stopNote_noStray. }
  case_decide; [|done]. revert H1. apply noStray_frame; simpl; [done..|].
  intros t [Ht|Ht%list_elem_of_singleton]%elem_of_app; [by left|right].
  subst t. done.
Qed.

Lemma init_start ok w i : startTimeOf (graph (init ok w)) i = startTimeOf (graph w) i.
Proof.
  unfold init. destruct (isInitialized (audioEngine w)); [done|]. destruct ok; [|done].
  simpl. unfold connect, setGainValue, createGain.
  rewrite (alter_keeps nodeStart) by (by intros [] || by intros []).
  rewrite (alter_keeps nodeStart) by (by intros [] || by intros []).
  rewrite (append_keeps nodeStart) by (done || by intros []).
  by rewrite (append_keeps nodeStart) by (done || by intros []).
Qed.

Lemma init_noStray ok w : noStray w -> noStray (init ok w).
Proof.
  intros [Ha Hb].
  assert (activeNotes (audioEngine (init ok w)) = activeNotes (audioEngine w)
          /\ timers (init ok w) = timers w) as [Hm Ht].
  { unfold init. destruct (isInitialized _); [done|]. by destruct ok. }
  split.
  - intros i [Hs Hn]. rewrite init_start in Hs. rewrite init_stop in Hn.
    unfold held. rewrite Hm. by apply Ha.
  - intros t n o g Hin Hc. rewrite init_stop. rewrite Ht in Hin. eauto.
Qed.

Lemma runCallback_noStray h t w :
  gentle h w -> oscInv w -> engineInv (audioEngine w) ->
  NoDup ((fun kv : Z * Voice => osc kv.2) <$> activeNotes (audioEngine w)) ->
  (forall n o g, callback t = ReleaseCleanup n o g ->
                 is_Some (stopTimeOf (graph w) o)) ->
  noStray w -> noStray (runCallback h (callback t) w).
Proof.
  intros Hg Ho (Hnd & _) Hnv Ht Hn. destruct (callback t) eqn:Hc; simpl.
  - apply releaseCleanup_noStray; eauto.
  - by apply panicDisconnect_noStray.
  - by apply playbackEvent_noStray.
  - by apply stopPlayback_noStray.
Qed.

Lemma exec_noStray h a w :
  gentle h w -> oscInv w -> engineInv (audioEngine w) ->
  NoDup ((fun kv : Z * Voice => osc kv.2) <$> activeNotes (audioEngine w)) ->
  noStray w -> noStray (exec h a w).
Proof.
  intros Hg Ho Hinv Hnv Hn. destruct a as [c| |dt]; simpl.
  - destruct c; simpl.
    + by apply init_noStray.
    + by apply playNote_noStray.
    + by apply stopNote_noStray.
    + by apply stopAllNotes_noStray.
    + unfold startRecording. destruct (isRecording _); [done|].
      revert Hn. apply noStray_frame; simpl; auto.
    + unfold stopRecording. destruct (negb _); [done|].
      revert Hn. apply noStray_frame; simpl; auto.
    + unfold recordEvent. destruct (negb _); [done|].
      revert Hn. apply noStray_frame; simpl; auto.
    + destruct (playRecording_adds w) as (_ & extra & Hts & _ & _ & Hex).
      revert Hn. apply noStray_frame.
      * rewrite playRecording_unfold. destruct (isPlaying _); [done|].
        destruct (negb _); [done|].
        by destruct (scheduleEvents_frame (recordedEvents (recordingSystem w)) 0
                       (setPlayback true [] w)) as (_ & -> & _).
      * rewrite playRecording_unfold. destruct (isPlaying _); [done|].
        destruct (negb _); [done|].
        by destruct (scheduleEvents_frame (recordedEvents (recordingSystem w)) 0
                       (setPlayback true [] w)) as (_ & _ & -> & _).
      * intros t Ht. rewrite Hts in Ht. apply elem_of_app in Ht as [Ht|Ht]; [by left|].
        right. rewrite Forall_forall in Hex.
        destruct (Hex t Ht) as (_ & e & k & ->). done.
    + by apply stopPlayback_noStray.
    + unfold loadRecording. destruct (readFile f); [done|].
      revert Hn. apply noStray_frame; simpl; auto.
    + revert Hn. apply noStray_frame; simpl; auto.
  - unfold fireTimer. destruct (nextDue (timers w)) as [t|] eqn:Hnext; [|done].
    apply nextDue_Some in Hnext as [Hin _].
    destruct Hn as [Ha Hb].
    apply runCallback_noStray; simpl; try done.
    + intros n o g Hc. eauto.
    + split; [done|]. intros t' n o g Ht' Hc. simpl in Ht'.
      apply list_elem_of_filter in Ht' as [_ Ht']. eauto.
  - unfold elapse. destruct (nextDue _); revert Hn; apply noStray_frame; simpl; auto.
Qed.

Lemma reachableGently_noStray p w : reachableGently p w -> noStray w.
Proof.
  induction 1 as [|h a w Hr IH Hg].
  - split; [|by intros t n o g Ht%elem_of_nil].
    intros i [[s Hs] _]. by destruct i.
  - pose proof (reachableGently_reachable _ _ Hr) as Hr'.
    apply exec_noStray; try done.
    + by apply (reachable_oscInv p).
    + by apply (reachable_engineInv p).
    + by destruct (reachable_voicesInv p w Hr') as (_ & ? & _).
Qed.

(** X3. As long as no call on a held voice throws, every oscillator that
    has been started and has no stop scheduled is the oscillator of an
    entry of [activeNotes]: no sound is out of reach of [stopNote] and
    [stopAllNotes].  Creating a voice may fail at any statement. *)
Theorem no_stray_oscillator (p : Page) (w : World) (i : nat) :
  reachableGently p w ->
  sounding (graph w) i ->
  exists k v, mapGet k (activeNotes (audioEngine w)) = Some v /\ osc v = i.
Proof.
  intros Hr Hs. destruct (reachableGently_noStray p w Hr) as [Ha _].
  destruct (Ha i Hs) as (k & v & He & Ho). exists k, v. split; [|done].
  apply mapGet_elem_NoDup; [|done].
  by destruct (reachable_engineInv p w (reachableGently_reachable _ _ Hr)).
Qed.

(** X4. Emergency stop: in a state reached without a throwing call on a
    held voice, and when the releases of [stopAllNotes] do not throw
    either, every held oscillator is told to stop 100 ms after the call
    and no oscillator of the graph is left sounding. *)
Theorem stopAllNotes_silences (p : Page) (h : Host) (w : World) :
  reachableGently p w ->
  gentle h w ->
  (forall k v, mapGet k (activeNotes (audioEngine w)) = Some v ->
     stopTimeOf (graph (stopAllNotes h w)) (osc v) = Some (clock w + 100))
  /\ (forall i, ~ sounding (graph (stopAllNotes h w)) i).
Proof.
  intros Hr Hg. pose proof (reachableGently_reachable _ _ Hr) as Hr'.
  pose proof (reachable_oscInv p w Hr') as Ho.
  destruct (reachable_voicesInv p w Hr') as (_ & Hnv & _).
  destruct (reachable_engineInv p w Hr') as (_ & Hun & _).
  pose proof (reachableGently_noStray p w Hr) as Hn.
  destruct (isInitialized (audioEngine w)) eqn:Hi.
  - split.
    + intros k v Hget. destruct (stopAllNotes_stops h w Hg Ho Hnv Hi) as (_ & H2 & _).
      apply H2. exists k, v. split; [by apply mapGet_Some_elem | done].
    + by apply (stopAllNotes_noStray h w Hg Ho Hnv Hn).
  - split.
    + intros k v Hget. rewrite (Hun eq_refl) in Hget. done.
    + unfold stopAllNotes. rewrite Hi. simpl. intros i Hs.
      destruct Hn as [Ha _]. destruct (Ha i Hs) as (k & v & He & _).
      rewrite (Hun eq_refl) in He. by apply elem_of_nil in He.
Qed.

Lemma reachableGently_run p steps w :
  Forall (fun s : Host * Action => forall i, s.1 i = None) steps ->
  reachableGently p w -> reachableGently p (run steps w).
Proof.
  revert w. induction steps as [|[h a] steps IH]; intros w Hs Hr; [done|].
  apply Forall_cons in Hs as [Hh Hs]. rewrite run_cons. apply IH; [done|].
  constructor; [done|]. intros k v _. apply Hh.
Qed.

Lemma no_stray_oscillator_witness :
  exists k v,
    mapGet k (activeNotes (audioEngine (run demoHeld (boot demoPage)))) = Some v
    /\ osc v = 2%nat.
Proof.
  apply (no_stray_oscillator demoPage).
  - apply reachableGently_run; [|constructor]. by repeat constructor.
  - vm_compute. split; [by eexists | reflexivity].
Defined.

Lemma stopAllNotes_silences_witness :
  (forall k v,
     mapGet k (activeNotes (audioEngine (run demoHeld (boot demoPage)))) = Some v ->
     stopTimeOf (graph (stopAllNotes reliable (run demoHeld (boot demoPage)))) (osc v)
     = Some (clock (run demoHeld (boot demoPage)) + 100))
  /\ (forall i,
        ~ sounding (graph (stopAllNotes reliable (run demoHeld (boot demoPage)))) i).
Proof.
  apply (stopAllNotes_silences demoPage).
  - apply reachableGently_run; [|constructor]. by repeat constructor.
  - intros k v _. reflexivity.
Defined.

(** ** What a stopped playback leaves pending *)

(** The ids in [playbackTimeouts] have been handed out, and the pending
    timers they name are callbacks of recorded events. *)
Definition trackedInv (w : World) : Prop :=
  (forall id, id ∈ playbackTimeouts (recordingSystem w) -> (id < nextTimeoutId w)%nat)
  /\ (forall t, t ∈ timers w ->
        timeoutId t ∈ playbackTimeouts (recordingSystem w) ->
        isPlaybackEvent (callback t)).

Lemma adds_trackedInv P w w' :
  adds P w w' ->
  playbackTimeouts (recordingSystem w') = playbackTimeouts (recordingSystem w) ->
  trackedInv w -> trackedInv w'.
Proof.
  intros (_ & extra & Hts & Hids & Hn & _) Hp [H1 H2]. unfold trackedInv.
  rewrite Hp, Hn, Hts. split.
  - intros id Hid. specialize (H1 id Hid). lia.
  - intros t [Ht|Ht]%elem_of_app Hid; [auto|]. exfalso.
    assert (timeoutId t ∈ timeoutId <$> extra) as Hin
      by (apply list_elem_of_fmap; by exists t).
    rewrite Hids in Hin. apply elem_of_seq in Hin. specialize (H1 _ Hid). lia.
Qed.

Lemma same_trackedInv w w' :
  timers w' = timers w -> nextTimeoutId w' = nextTimeoutId w ->
  playbackTimeouts (recordingSystem w') = playbackTimeouts (recordingSystem w) ->
  trackedInv w -> trackedInv w'.
Proof. unfold trackedInv. by intros -> -> ->. Qed.

Lemma playRecording_trackedInv w :
  timersInv w -> trackedInv w -> trackedInv (playRecording w).
Proof.
  intros (_ & Hb) Hi. rewrite playRecording_unfold.
  destruct (isPlaying (recordingSystem w)) eqn:Hp; [done|].
  destruct (hasRecording w); simpl; [|done].
  match goal with |- context [scheduleEvents ?l ?i ?x] =>
    destruct (scheduleEvents_timers l i x) as (Ht & Hids & Hn)
  end.
  unfold trackedInv. rewrite Ht, Hids, Hn. simpl. split.
  - intros id Hid%elem_of_seq. lia.
  - intros t [Hin|Hin]%elem_of_app Hid%elem_of_seq.
    + destruct (Hb t Hin). lia.
    + by apply elem_of_lookup_imap in Hin as (k & e & -> & Hk).
Qed.

Lemma stopPlayback_trackedInv h w : trackedInv w -> trackedInv (stopPlayback h w).
Proof.
  intros Hi. destruct (isPlaying (recordingSystem w)) eqn:Hp;
    [|by rewrite stopPlayback_idle].
  unfold trackedInv. rewrite stopPlayback_recorder by done. simpl.
  split; [by intros id ?%elem_of_nil | by intros t _ ?%elem_of_nil].
Qed.

Lemma invoke_trackedInv h c w :
  timersInv w -> trackedInv w -> trackedInv (invoke h c w).
Proof.
  intros Ht Hi. destruct c; simpl.
  - unfold init. destruct (isInitialized (audioEngine w)); [done|]. by destruct ok.
  - eapply adds_trackedInv; [apply (playNote_adds (fun _ => True)) | | done].
    by rewrite playNote_recorder.
  - eapply adds_trackedInv; [apply stopNote_adds | | done].
    by rewrite stopNote_recorder.
  - eapply adds_trackedInv; [apply stopAllNotes_adds | | done].
    by rewrite stopAllNotes_recorder.
  - unfold startRecording. by destruct (isRecording _).
  - unfold stopRecording. by destruct (isRecording _).
  - unfold recordEvent. by destruct (isRecording _).
  - by apply playRecording_trackedInv.
  - by apply stopPlayback_trackedInv.
  - unfold loadRecording. by destruct (readFile f).
  - done.
Qed.

Lemma runCallback_trackedInv h cb w : trackedInv w -> trackedInv (runCallback h cb w).
Proof.
  intros Hi. destruct cb; simpl.
  - eapply adds_trackedInv; [apply (releaseCleanup_adds (fun _ => True)) | | done].
    by rewrite releaseCleanup_recorder.
  - done.
  - eapply adds_trackedInv; [apply playbackEvent_adds | | done].
    by rewrite playbackEvent_recorder.
  - by apply stopPlayback_trackedInv.
Qed.

Lemma exec_trackedInv h a w : timersInv w -> trackedInv w -> trackedInv (exec h a w).
Proof.
  intros Ht Hi. destruct a as [c| |dt]; simpl.
  - by apply invoke_trackedInv.
  - unfold fireTimer. destruct (nextDue (timers w)) as [t|]; [|done].
    apply runCallback_trackedInv. destruct Hi as [H1 H2]. split; simpl; [done|].
    intros t' [_ Hin]%list_elem_of_filter. by apply H2.
  - unfold elapse. by destruct (nextDue (timers w)).
Qed.

Lemma reachable_trackedInv p w : reachable p w -> trackedInv w.
Proof.
  induction 1 as [|h a w Hr IH].
  - split; [by intros id ?%elem_of_nil | by intros t ?%elem_of_nil].
  - apply exec_trackedInv; [by apply (reachable_timersInv p) | done].
Qed.

(** X5. [stopPlayback] cancels the callbacks of recorded events and
    nothing else: every other pending timer (a release cleanup, a
    disconnect, the 500 ms finish timer of a playback) is still pending
    after it, and after a [playRecording] that follows.  A finish timer
    that fires ends the playback that is running then, whichever
    playback set it. *)
Theorem stopPlayback_keeps_other_timers (p : Page) (h : Host) (w : World) (t : Timer) :
  reachable p w ->
  t ∈ timers w ->
  ~ isPlaybackEvent (callback t) ->
  t ∈ timers (stopPlayback h w)
  /\ t ∈ timers (playRecording (stopPlayback h w))
  /\ (callback t = PlaybackFinish ->
      forall h' w', nextDue (timers w') = Some t ->
        isPlaying (recordingSystem (fireTimer h' w')) = false).
Proof.
  intros Hr Ht Hne.
  assert (t ∈ timers (stopPlayback h w)) as Hin.
  { destruct (isPlaying (recordingSystem w)) eqn:Hp; [|by rewrite stopPlayback_idle].
    apply (adds_keeps_timer _ _ _ _ (stopPlayback_adds h w Hp)).
    rewrite cancelAll_timers. apply list_elem_of_filter. split; [|done].
    intros Hid. apply Hne. by apply (reachable_trackedInv p w Hr). }
  split; [done|]. split.
  - by apply (adds_keeps_timer _ _ _ _ (playRecording_adds (stopPlayback h w))).
  - intros Hc h' w' Hn. unfold fireTimer. rewrite Hn, Hc. simpl.
    match goal with |- context [stopPlayback h' ?x] =>
      destruct (isPlaying (recordingSystem x)) eqn:Hp;
        [by rewrite stopPlayback_recorder | by rewrite stopPlayback_idle] end.
Qed.

(** A playback runs to its last event, is stopped, and is started again:
    the finish timer of the first run ends the second after its first
    event. *)
Definition demoStaleFinish : list (Host * Action) :=
  [ (reliable, Invoke (Init true));
    (reliable, Invoke StartRecording);
    (reliable, Invoke (RecordEvent (mkNoteEvent "noteOn" 60 (1 # 2) (Ms 0))));
    (reliable, Invoke (RecordEvent (mkNoteEvent "noteOff" 60 0 (Ms 400))));
    (reliable, Invoke StopRecording);
    (reliable, Invoke PlayRecording);
    (reliable, FireTimer);
    (reliable, FireTimer);
    (reliable, FireTimer);
    (reliable, Elapse 250) ].

Lemma stopPlayback_keeps_other_timers_witness :
  mkTimer 3 500 900 PlaybackFinish
    ∈ timers (playRecording (stopPlayback reliable (run demoStaleFinish (boot demoPage))))
  /\ isPlaying (recordingSystem
       (run [(reliable, FireTimer); (reliable, FireTimer)]
          (playRecording (stopPlayback reliable (run demoStaleFinish (boot demoPage))))))
     = false
  /\ firedDuring [(reliable, FireTimer); (reliable, FireTimer); (reliable, FireTimer);
                  (reliable, FireTimer)]
       (playRecording (stopPlayback reliable (run demoStaleFinish (boot demoPage))))
     = [PlaybackEvent (mkNoteEvent "noteOn" 60 (1 # 2) (Ms 0)) 0; PlaybackFinish;
        PanicDisconnect 4 5].
Proof.
  destruct (stopPlayback_keeps_other_timers demoPage reliable
              (run demoStaleFinish (boot demoPage))
              (mkTimer 3 500 900 PlaybackFinish)) as (_ & H2 & H3).
  - apply reachable_run, reachable_boot.
  - vm_compute. apply list_elem_of_In. simpl. tauto.
  - simpl. tauto.
  - split; [exact H2|]. split; [|vm_compute; reflexivity].
    apply (H3 eq_refl reliable). vm_compute. reflexivity.
Defined.

(** ** The order of a playback *)

Definition pendingEvent (t : Timer) : option (Z * (NoteEvent * nat)) :=
  (fun ei => (due t, ei)) <$> eventOf (callback t).

(** The pending callbacks of recorded events, oldest first, each with the
    time it is due. *)
Definition pendingEvents (w : World) : list (Z * (NoteEvent * nat)) :=
  omap pendingEvent (timers w).

Definition dueSorted (w : World) : Prop :=
  StronglySorted Z.le ((pendingEvents w).*1).

Lemma StronglySorted_sublist {A} (R : relation A) l1 l2 :
  sublist l1 l2 -> StronglySorted R l2 -> StronglySorted R l1.
Proof.
  induction 1 as [|x l1 l2 Hs IH|x l1 l2 Hs IH]; [done|..];
    rewrite !StronglySorted_cons; intros [Hx Hl]; [|auto].
  split; [|auto]. rewrite Forall_forall in *. intros y Hy. apply Hx.
  by apply (sublist_subseteq _ _ Hs).
Qed.

Lemma omap_sublist {A B} (f : A -> option B) l1 l2 :
  sublist l1 l2 -> sublist (omap f l1) (omap f l2).
Proof.
  induction 1 as [|x l1 l2 Hs IH|x l1 l2 Hs IH]; simpl; [done|..];
    destruct (f x); try done; by constructor.
Qed.

Lemma pendingEvent_not_event t :
  ~ isPlaybackEvent (callback t) -> pendingEvent t = None.
Proof. unfold pendingEvent. by destruct (callback t). Qed.

Lemma omap_none {A B} (f : A -> option B) l :
  Forall (fun x => f x = None) l -> omap f l = [].
Proof. induction 1 as [|x l Hx _ IH]; simpl; [done|]. by rewrite Hx. Qed.

(** Timers set by the engine are not callbacks of events. *)
Lemma adds_pendingEvents now m w w' :
  adds (engineTimer now m) w w' -> pendingEvents w' = pendingEvents w.
Proof.
  intros (_ & extra & Hts & _ & _ & Hex). unfold pendingEvents.
  rewrite Hts, omap_app, (omap_none _ extra), app_nil_r; [done|].
  eapply Forall_impl; [exact Hex|]. intros t Ht.
  by apply pendingEvent_not_event, (engineTimer_not_event now m).
Qed.

Lemma filter_pendingEvents (Q : Timer -> Prop) `{!forall t, Decision (Q t)} w w' :
  timers w' = filter Q (timers w) -> sublist (pendingEvents w') (pendingEvents w).
Proof. unfold pendingEvents. intros ->. apply omap_sublist, sublist_filter. Qed.

Lemma stopPlayback_pendingEvents h w :
  sublist (pendingEvents (stopPlayback h w)) (pendingEvents w).
Proof.
  destruct (isPlaying (recordingSystem w)) eqn:Hp; [|by rewrite stopPlayback_idle].
  rewrite (adds_pendingEvents _ _ _ _ (stopPlayback_adds h w Hp)).
  apply (filter_pendingEvents _ _ _ (cancelAll_timers _ w)).
Qed.

Lemma invoke_pendingEvents h c w :
  c <> PlayRecording -> sublist (pendingEvents (invoke h c w)) (pendingEvents w).
Proof.
  intros Hc. destruct c; simpl; try done.
  - unfold init. destruct (isInitialized (audioEngine w)); [done|]. by destruct ok.
  - by rewrite (adds_pendingEvents 0 [] _ _ (playNote_adds _ h midi vel w)).
  - by rewrite (adds_pendingEvents _ _ _ _ (stopNote_adds h midi w)).
  - by rewrite (adds_pendingEvents _ _ _ _ (stopAllNotes_adds h w)).
  - unfold startRecording. by destruct (isRecording _).
  - unfold stopRecording. by destruct (isRecording _).
  - unfold recordEvent. by destruct (isRecording _).
  - apply stopPlayback_pendingEvents.
  - unfold loadRecording. by destruct (readFile f).
Qed.

Lemma runCallback_pendingEvents h cb w :
  sublist (pendingEvents (runCallback h cb w)) (pendingEvents w).
Proof.
  destruct cb; simpl.
  - by rewrite (adds_pendingEvents 0 [] _ _ (releaseCleanup_adds _ h midi o g w)).
  - done.
  - by rewrite (adds_pendingEvents _ _ _ _ (playbackEvent_adds h event index w)).
  - apply stopPlayback_pendingEvents.
Qed.

(** Where the timer that fires next stands among the pending ones: the
    older ones are due strictly later, the younger ones not earlier. *)
Lemma nextDue_split ts t :
  nextDue ts = Some t ->
  exists older younger,
    ts = older ++ t :: younger
    /\ Forall (fun t' => due t < due t') older
    /\ Forall (fun t' => due t <= due t') younger.
Proof.
  revert t. induction ts as [|t0 ts IH]; intros t; simpl; [done|].
  destruct (nextDue ts) as [t1|] eqn:Hn.
  - destruct (IH t1 eq_refl) as (older & younger & -> & Ho & Hy).
    case_decide as Hlt; intros [= <-].
    + exists (t0 :: older), younger. repeat split; [|done]. by constructor.
    + exists [], (older ++ t1 :: younger). repeat split; [done|].
      apply Forall_app. split.
      * eapply Forall_impl; [exact Ho|]. simpl. intros; lia.
      * constructor; [lia|]. eapply Forall_impl; [exact Hy|]. simpl. intros; lia.
  - intros [= <-]. apply nextDue_None in Hn as ->. by exists [], [].
Qed.

Lemma removeTimer_split older t younger :
  NoDup (timeoutId <$> (older ++ t :: younger)) ->
  removeTimer (timeoutId t) (older ++ t :: younger) = older ++ younger.
Proof.
  rewrite fmap_app, fmap_cons. intros Hnd. apply NoDup_app in Hnd as (_ & Hdis & Hnd).
  apply NoDup_cons in Hnd as [Hy _]. unfold removeTimer.
  rewrite filter_app, filter_cons_False by (intros ?; done).
  rewrite !filter_all; [done|..]; apply Forall_forall; intros t' Ht' Heq.
  - apply Hy. rewrite <- Heq. apply list_elem_of_fmap. by exists t'.
  - apply (Hdis (timeoutId t')); [apply list_elem_of_fmap; by exists t'|].
    rewrite Heq. left.
Qed.

(** The callback of a recorded event that fires is the oldest pending one. *)
Lemma fireTimer_pendingEvents h w t ei :
  timersInv w -> dueSorted w ->
  nextDue (timers w) = Some t -> eventOf (callback t) = Some ei ->
  exists rest,
    pendingEvents w = (due t, ei) :: rest
    /\ sublist (pendingEvents (fireTimer h w)) rest.
Proof.
  intros [Hnd _] Hs Hn Hev.
  destruct (nextDue_split _ _ Hn) as (older & younger & Hts & Ho & _).
  assert (pendingEvent t = Some (due t, ei)) as Hpt
    by (unfold pendingEvent; by rewrite Hev).
  assert (omap pendingEvent older = []) as Hnone.
  { apply omap_none, Forall_forall. intros t' Ht'.
    destruct (pendingEvent t') as [[d' ei']|] eqn:Hp'; [exfalso|done].
    assert (d' = due t') as ->.
    { unfold pendingEvent in Hp'. destruct (eventOf (callback t')); by inversion Hp'. }
    unfold dueSorted, pendingEvents in Hs. rewrite Hts, omap_app in Hs. simpl in Hs.
    rewrite Hpt, fmap_app, fmap_cons in Hs.
    assert (due t' <= due t); [|rewrite Forall_forall in Ho; specialize (Ho t' Ht'); lia].
    apply (StronglySorted_app_1_elem_of _ _ _ _ _ Hs); [|left].
    apply list_elem_of_fmap. exists (due t', ei'). split; [done|].
    apply list_elem_of_omap. by exists t'. }
  exists (omap pendingEvent younger). split.
  - unfold pendingEvents. rewrite Hts, omap_app, Hnone. simpl. by rewrite Hpt.
  - unfold fireTimer. rewrite Hn.
    etransitivity; [apply runCallback_pendingEvents|].
    unfold pendingEvents. simpl. rewrite Hts in Hnd |- *.
    rewrite removeTimer_split by done. by rewrite omap_app, Hnone.
Qed.

Lemma exec_pendingEvents h a w :
  a <> Invoke PlayRecording ->
  sublist (pendingEvents (exec h a w)) (pendingEvents w).
Proof.
  intros Ha. destruct a as [c| |dt]; simpl.
  - apply invoke_pendingEvents. congruence.
  - unfold fireTimer. destruct (nextDue (timers w)) as [t|]; [|done].
    etransitivity; [apply runCallback_pendingEvents|].
    by apply (filter_pendingEvents (fun t' => timeoutId t' <> timeoutId t)).
  - unfold elapse. by destruct (nextDue (timers w)).
Qed.

Lemma played_sublist steps w :
  timersInv w -> dueSorted w ->
  Forall (fun s : Host * Action => s.2 <> Invoke PlayRecording) steps ->
  sublist (playedDuring steps w) (pendingEvents w).*2.
Proof.
  revert w. induction steps as [|[h a] steps IH]; intros w Ht Hs Hsteps.
  { apply sublist_nil_l. }
  apply Forall_cons in Hsteps as [Ha Hsteps]. simpl in Ha.
  pose proof (exec_pendingEvents h a w Ha) as Hsub.
  assert (sublist (playedDuring steps (exec h a w)) (pendingEvents (exec h a w)).*2)
    as Hrest.
  { apply IH; [by apply exec_timersInv| |done].
    unfold dueSorted. eapply StronglySorted_sublist; [|exact Hs].
    by apply fmap_sublist. }
  unfold playedDuring in *. simpl.
  destruct (firedBy a w) as [cb|] eqn:Hf; simpl;
    [destruct (eventOf cb) as [ei|] eqn:Hev|];
    try (etransitivity; [exact Hrest|]; by apply fmap_sublist).
  destruct a as [c| |dt]; simpl in Hf; try done.
  destruct (nextDue (timers w)) as [t|] eqn:Hn; [|done]. injection Hf as <-.
  destruct (fireTimer_pendingEvents h w t ei Ht Hs Hn Hev) as (rest & -> & Hr).
  simpl. apply sublist_skip. etransitivity; [exact Hrest|]. by apply fmap_sublist.
Qed.

Lemma omap_imap_Some {A B C} (f : B -> option C) (F : nat -> A -> B)
    (G : nat -> A -> C) (l : list A) :
  (forall k x, f (F k x) = Some (G k x)) -> omap f (imap F l) = imap G l.
Proof.
  revert F G. induction l as [|x l IH]; intros F G HF; [done|].
  rewrite !imap_cons. simpl. rewrite HF. f_equal. apply IH. intros k y. apply HF.
Qed.

(** How long the timer of an event waits. *)
Definition wait (e : NoteEvent) : Z := timerDelay (stampMs (timestamp e)).

Lemma imap_playbackTimer_pending w evs :
  omap pendingEvent (imap (playbackTimer w 0) evs)
  = imap (fun k e => (clock w + wait e, (e, k))) evs.
Proof. by apply omap_imap_Some. Qed.

Lemma imap_due_sorted (c : Z) (f : nat -> NoteEvent -> NoteEvent * nat) evs :
  StronglySorted Z.le (wait <$> evs) ->
  StronglySorted Z.le ((imap (fun k e => (c + wait e, f k e)) evs).*1).
Proof.
  rewrite fmap_imap. simpl.
  assert (imap (fun n => fst ∘ (fun e => (c + wait e, f n e))) evs
          = (fun e => c + wait e) <$> evs) as ->.
  { rewrite <- imap_const. by apply imap_ext. }
  induction evs as [|e evs IH]; simpl; [constructor|].
  rewrite !StronglySorted_cons, !Forall_fmap. intros [He Hs]. split; [|auto].
  eapply Forall_impl; [exact He|]. simpl. intros; lia.
Qed.

(** A recording of event objects stamped with milliseconds a timer can
    wait: every one is scheduled, and waits as long as it is stamped. *)
Lemma millis_waits (evs : list Entry) (ts : list Z) :
  millis <$> evs = Some <$> ts ->
  Forall (fun t => 0 <= t <= 2147483647) ts ->
  EventObject <$> scheduled evs = evs /\ wait <$> scheduled evs = ts.
Proof.
  revert ts. induction evs as [|en evs IH]; intros [|t ts] Hm Hb; try done.
  rewrite !fmap_cons in Hm. injection Hm as Hen Hm.
  apply Forall_cons in Hb as [Ht Hb]. destruct (IH ts Hm Hb) as [H1 H2].
  destruct en as [[ty n v s]|]; [|done]. simpl in Hen. destruct s; try done.
  injection Hen as ->. simpl. split; [by f_equal|]. f_equal; [|done].
  unfold wait. simpl. by apply timerDelay_small.
Qed.

(** The order of a playback whose timers wait longer and longer. *)
Lemma played_in_order (p : Page) (w : World) (steps : list (Host * Action)) :
  reachable p w ->
  isPlaying (recordingSystem w) = false ->
  StronglySorted Z.le (wait <$> scheduled (recordedEvents (recordingSystem w))) ->
  Forall (fun s => s.2 <> Invoke PlayRecording) steps ->
  sublist (playedDuring steps (playRecording w))
          (imap (fun k e => (e, k)) (scheduled (recordedEvents (recordingSystem w)))).
Proof.
  intros Hr Hp Hs Hsteps.
  assert (omap pendingEvent (timers w) = []) as Hnone.
  { apply omap_none, Forall_forall. intros t Ht. apply pendingEvent_not_event.
    intros Hev. destruct (reachable_playbackInv p w Hr t Ht Hev). congruence. }
  assert (timersInv (playRecording w)) as Hti.
  { apply (exec_timersInv reliable (Invoke PlayRecording)),
      (reachable_timersInv p), Hr. }
  assert ((pendingEvents (playRecording w)).*2
          = imap (fun k e => (e, k)) (scheduled (recordedEvents (recordingSystem w)))
            /\ dueSorted (playRecording w)
          \/ pendingEvents (playRecording w) = []) as [[Heq Hd]|Hnil].
  { rewrite playRecording_unfold. unfold dueSorted. rewrite Hp.
    destruct (hasRecording w); simpl; [left|right; done].
    match goal with |- context [scheduleEvents ?l ?i ?x] =>
      destruct (scheduleEvents_timers l i x) as (Ht & _) end.
    unfold pendingEvents. rewrite Ht. simpl.
    rewrite omap_app, Hnone, imap_playbackTimer_pending. simpl. split.
    - rewrite fmap_imap. by apply imap_ext.
    - by apply imap_due_sorted. }
  - rewrite <- Heq. by apply played_sublist.
  - etransitivity; [|apply sublist_nil_l].
    pose proof (played_sublist steps (playRecording w) Hti) as H.
    unfold dueSorted in H. rewrite Hnil in H. apply H; [constructor | done].
Qed.

(** X6. A playback started while none is running, of a recording of
    event objects whose timestamps are numbers of milliseconds between 0
    and 2147483647 that do not decrease, plays its events in recorded
    order and none twice: along any run without a further
    [playRecording], the events played are a subsequence of the
    recording. *)
Theorem playback_in_recorded_order (p : Page) (w : World)
    (steps : list (Host * Action)) (ts : list Z) :
  reachable p w ->
  isPlaying (recordingSystem w) = false ->
  millis <$> recordedEvents (recordingSystem w) = Some <$> ts ->
  Sorted Z.le ts ->
  Forall (fun t => 0 <= t <= 2147483647) ts ->
  Forall (fun s => s.2 <> Invoke PlayRecording) steps ->
  sublist (playedDuring steps (playRecording w))
          (imap (fun k e => (e, k)) (scheduled (recordedEvents (recordingSystem w))))
  /\ EventObject <$> scheduled (recordedEvents (recordingSystem w))
     = recordedEvents (recordingSystem w).
Proof.
  intros Hr Hp Hm Hs Hb Hsteps. apply Sorted_StronglySorted in Hs; [|apply _].
  destruct (millis_waits _ _ Hm Hb) as [Hall Hw]. split; [|done].
  apply (played_in_order p); try done. by rewrite Hw.
Qed.

(** Five events are recorded. *)
Definition demoTake : list (Host * Action) := take 8 demoFiveEvents.

Lemma playback_in_recorded_order_witness :
  sublist
    (playedDuring [(reliable, FireTimer); (reliable, Invoke (PlayNote 67 (1 # 2)));
                   (reliable, FireTimer); (reliable, Invoke (StopNote 67));
                   (reliable, FireTimer); (reliable, FireTimer); (reliable, FireTimer)]
       (playRecording (run demoTake (boot demoPage))))
    (imap (fun k e => (e, k))
       (scheduled (recordedEvents (recordingSystem (run demoTake (boot demoPage))))))
  /\ EventObject
       <$> scheduled (recordedEvents (recordingSystem (run demoTake (boot demoPage))))
     = recordedEvents (recordingSystem (run demoTake (boot demoPage))).
Proof.
  apply (playback_in_recorded_order demoPage _ _ [0; 20; 500; 600; 900]).
  - apply reachable_run, reachable_boot.
  - vm_compute. reflexivity.
  - vm_compute. reflexivity.
  - repeat constructor; lia.
  - repeat constructor; lia.
  - repeat constructor; discriminate.
Defined.

(** ** A playback runs to its end *)

(** A bound on the timers still to fire: a pending event may leave a
    voice or a cleanup behind and set the finish timer; a voice may leave
    a disconnect behind. *)
Definition cost (t : Timer) : nat :=
  match callback t with PlaybackEvent _ _ => 4%nat | _ => 1%nat end.

Definition load (w : World) : nat :=
  (sum_list_with cost (timers w) + length (activeNotes (audioEngine w)))%nat.

Lemma sum_cost_app l1 l2 :
  sum_list_with cost (l1 ++ l2) = (sum_list_with cost l1 + sum_list_with cost l2)%nat.
Proof. apply sum_list_with_app. Qed.

Lemma sum_cost_filter (Q : Timer -> Prop) `{!forall t, Decision (Q t)} l :
  (sum_list_with cost (filter Q l) <= sum_list_with cost l)%nat.
Proof.
  induction l as [|t l IH]; [done|]. rewrite filter_cons.
  destruct (decide (Q t)); simpl; lia.
Qed.

Lemma playNote_load h n v w : (load (playNote h n v w) <= load w + 1)%nat.
Proof.
  unfold load. rewrite playNote_timers.
  assert (length (activeNotes (audioEngine (playNote h n v w)))
          <= length (activeNotes (audioEngine w)) + 1)%nat; [|lia].
  unfold playNote. destruct (negb _); [lia|].
  destruct (mapHas _ _) eqn:Hm; [lia|]. apply mapHas_false in Hm.
  split_try; [|simpl; lia]. rewrite audioEngine_updateSpeakerIcon. simpl.
  rewrite mapSet_fresh by done. rewrite length_app. simpl. lia.
Qed.

Lemma timers_updateSpeakerIcon w : timers (updateSpeakerIcon w) = timers w.
Proof. unfold updateSpeakerIcon. by destruct (speakerIcon _). Qed.

Lemma mapDelete_shorter n (m : NoteMap) : (length (mapDelete n m) <= length m)%nat.
Proof. apply sublist_length, mapDelete_sublist. Qed.

Lemma stopNote_load h n w : (load (stopNote h n w) <= load w + 1)%nat.
Proof.
  unfold load, stopNote. destruct (negb _); [lia|].
  destruct (mapGet _ _) as [v|]; [|lia]. split_try; simpl.
  - rewrite sum_cost_app. simpl. lia.
  - rewrite audioEngine_updateSpeakerIcon, timers_updateSpeakerIcon. simpl.
    pose proof (mapDelete_shorter n (activeNotes (audioEngine w))). lia.
Qed.

Lemma releaseCleanup_load h n o g w : (load (releaseCleanup h n o g w) <= load w)%nat.
Proof.
  unfold load. rewrite releaseCleanup_timers, releaseCleanup_notes.
  destruct (mapGet _ _); [|lia]. case_decide; [|lia].
  pose proof (mapDelete_shorter n (activeNotes (audioEngine w))). lia.
Qed.

Lemma panic_cost h t l w :
  (sum_list_with cost (timers (foldl (panicVoice h t) w l))
   <= sum_list_with cost (timers w) + length l)%nat.
Proof.
  revert w. induction l as [|e l IH]; intros w; simpl; [lia|].
  etransitivity; [apply IH|].
  assert (sum_list_with cost (timers (panicVoice h t w e))
          <= sum_list_with cost (timers w) + 1)%nat; [|lia].
  unfold panicVoice. split_try; simpl; [|lia]. rewrite sum_cost_app. simpl. lia.
Qed.

Lemma stopAllNotes_load h w : (load (stopAllNotes h w) <= load w)%nat.
Proof.
  unfold load, stopAllNotes. destruct (negb _); [lia|].
  rewrite audioEngine_updateSpeakerIcon, timers_updateSpeakerIcon. simpl.
  pose proof (panic_cost h (clock w) (activeNotes (audioEngine w)) w). lia.
Qed.

Lemma stopPlayback_load h w : (load (stopPlayback h w) <= load w)%nat.
Proof.
  unfold stopPlayback. destruct (negb _); [done|].
  match goal with |- (load (setPlayback false _ (stopAllNotes h ?w2)) <= _)%nat =>
    transitivity (load (stopAllNotes h w2)); [done|];
    transitivity (load w2); [apply stopAllNotes_load|] end.
  unfold load. simpl.
  fold (cancelAll (playbackTimeouts (recordingSystem w)) w).
  rewrite cancelAll_timers.
  destruct (clearTimeouts_frame (playbackTimeouts (recordingSystem w)) w)
    as (_ & _ & _ & He & _).
  fold (cancelAll (playbackTimeouts (recordingSystem w)) w) in He. rewrite He.
  pose proof (sum_cost_filter
                (fun t => timeoutId t ∉ playbackTimeouts (recordingSystem w)) (timers w)).
  lia.
Qed.

Lemma playbackEvent_load h e i w : (load (playbackEvent h e i w) <= load w + 2)%nat.
Proof.
  unfold playbackEvent.
  match goal with |- context [if decide (type e = "noteOn") then ?a else ?b] =>
    set (w1 := if decide (type e = "noteOn") then a else b) end.
  assert (load w1 <= load w + 1)%nat as H1.
  { subst w1. repeat case_decide; [| |lia].
    - etransitivity; [|apply (playNote_load h (note e) (velocity e))]. done.
    - etransitivity; [|apply (stopNote_load h (note e))]. done. }
  case_decide; [|lia]. unfold load in *. simpl. rewrite sum_cost_app. simpl. lia.
Qed.

(** Whatever fires takes more off the load than it puts on. *)
Lemma fireTimer_load h w t :
  timersInv w -> nextDue (timers w) = Some t -> (load (fireTimer h w) < load w)%nat.
Proof.
  intros [Hnd _] Hn. unfold fireTimer. rewrite Hn.
  destruct (nextDue_split _ _ Hn) as (older & younger & Hts & _ & _).
  set (w1 := withTimers (removeTimer (timeoutId t) (timers w))
               (withClock (Z.max (clock w) (due t)) w)).
  assert (load w = load w1 + cost t)%nat as Hw.
  { unfold load. subst w1. simpl. rewrite Hts in Hnd |- *.
    rewrite removeTimer_split by done. rewrite !sum_cost_app. simpl. lia. }
  rewrite Hw. unfold cost. destruct (callback t); simpl.
  - pose proof (releaseCleanup_load h midi o g w1). lia.
  - unfold panicDisconnect, load. simpl. lia.
  - pose proof (playbackEvent_load h event index w1). lia.
  - pose proof (stopPlayback_load h w1). lia.
Qed.

(** What firing does to the pending callbacks of events, before the
    callback runs: the one that fires is the oldest of them. *)
Lemma fired_pending w t :
  timersInv w -> dueSorted w -> nextDue (timers w) = Some t ->
  pendingEvents w
  = match eventOf (callback t) with
    | Some ei => [(due t, ei)]
    | None => []
    end
    ++ omap pendingEvent (removeTimer (timeoutId t) (timers w)).
Proof.
  intros [Hnd _] Hs Hn.
  destruct (nextDue_split _ _ Hn) as (older & younger & Hts & Ho & _).
  unfold pendingEvents. rewrite Hts in Hnd |- *. rewrite removeTimer_split by done.
  rewrite !omap_app. simpl. unfold pendingEvent at 2.
  destruct (eventOf (callback t)) as [ei|] eqn:Hev; simpl; [|done].
  assert (omap pendingEvent older = []) as ->; [|done].
  apply omap_none, Forall_forall. intros t' Ht'.
  destruct (pendingEvent t') as [[d' ei']|] eqn:Hp'; [exfalso|done].
  assert (d' = due t') as ->.
  { unfold pendingEvent in Hp'. destruct (eventOf (callback t')); by inversion Hp'. }
  unfold dueSorted, pendingEvents in Hs. rewrite Hts, omap_app in Hs. simpl in Hs.
  unfold pendingEvent at 2 in Hs. rewrite Hev in Hs. simpl in Hs.
  rewrite fmap_app, fmap_cons in Hs.
  assert (due t' <= due t); [|rewrite Forall_forall in Ho; specialize (Ho t' Ht'); lia].
  apply (StronglySorted_app_1_elem_of _ _ _ _ _ Hs); [|left].
  apply list_elem_of_fmap. exists (due t', ei'). split; [done|].
  apply list_elem_of_omap. by exists t'.
Qed.

(** The finish timer of a playback is pending. *)
Definition finishPending (w : World) : Prop :=
  exists t, t ∈ timers w /\ callback t = PlaybackFinish.

Lemma stopNote_adds_cleanup h n w :
  adds (fun t => exists m o g, callback t = ReleaseCleanup m o g) w (stopNote h n w).
Proof.
  unfold stopNote.
  destruct (isInitialized (audioEngine w)); simpl; [|apply adds_refl].
  destruct (mapGet n (activeNotes (audioEngine w))) as [v|] eqn:Hg; [|apply adds_refl].
  split_try.
  - eapply adds_trans; [|apply adds_setTimeout]; [by apply adds_same|].
    simpl. eauto.
  - eapply adds_trans; [|apply updateSpeakerIcon_adds]. by apply adds_same.
Qed.

Lemma playbackEvent_finish h e i w :
  (Z.of_nat i = Z.of_nat (length (recordedEvents (recordingSystem w))) - 1 ->
   finishPending (playbackEvent h e i w))
  /\ (Z.of_nat i <> Z.of_nat (length (recordedEvents (recordingSystem w))) - 1 ->
      finishPending (playbackEvent h e i w) -> finishPending w).
Proof.
  unfold playbackEvent.
  match goal with |- context [if decide (type e = "noteOn") then ?a else ?b] =>
    set (w1 := if decide (type e = "noteOn") then a else b) end.
  assert (recordingSystem w1 = recordingSystem w
          /\ adds (fun t => exists m o g, callback t = ReleaseCleanup m o g) w w1)
    as [Hr Ha].
  { subst w1. repeat case_decide.
    - split; [apply playNote_recorder|].
      eapply adds_trans; [apply playNote_adds | by apply adds_same].
    - split; [apply stopNote_recorder|].
      eapply adds_trans; [apply stopNote_adds_cleanup | by apply adds_same].
    - split; [done | apply adds_refl]. }
  rewrite Hr. split; intros Hi.
  - rewrite decide_True by done. unfold finishPending. simpl. eexists.
    split; [apply elem_of_app; right; left | done].
  - rewrite decide_False by done. intros (t & Ht & Hc).
    destruct Ha as (_ & extra & Hts & _ & _ & Hex). rewrite Hts in Ht.
    apply elem_of_app in Ht as [Ht|Ht]; [by exists t|].
    rewrite Forall_forall in Hex. destruct (Hex t Ht) as (m & o & g & Hc').
    congruence.
Qed.

Lemma finishPending_removed w t :
  timersInv w -> t ∈ timers w -> callback t <> PlaybackFinish ->
  finishPending (withTimers (removeTimer (timeoutId t) (timers w))
                   (withClock (Z.max (clock w) (due t)) w))
  <-> finishPending w.
Proof.
  intros [Hnd _] Ht Hc. unfold finishPending. simpl. split.
  - intros (t' & [_ Ht']%list_elem_of_filter & Hc'). by exists t'.
  - intros (t' & Ht' & Hc'). exists t'. split; [|done].
    apply list_elem_of_filter. split; [|done]. intros Hid.
    assert (t' = t) by (by apply (NoDup_fmap_inj_on timeoutId (timers w))).
    congruence.
Qed.

Section Replay.

Variable evs : list NoteEvent.
Variable c0 : Z.
Hypothesis evs_sorted : StronglySorted Z.le (wait <$> evs).

(** The callbacks [playRecording] sets at time [c0], with their due
    times. *)
Definition script : list (Z * (NoteEvent * nat)) :=
  imap (fun i e => (c0 + wait e, (e, i))) evs.

(** The first [k] events have been played, the others are pending; after
    the last one the finish timer is pending or has ended the playback. *)
Definition replaying (k : nat) (w : World) : Prop :=
  recordedEvents (recordingSystem w) = EventObject <$> evs
  /\ timersInv w
  /\ engineInv (audioEngine w)
  /\ pendingEvents w = drop k script
  /\ ((k < length evs)%nat ->
      isPlaying (recordingSystem w) = true /\ ~ finishPending w)
  /\ ((length evs <= k)%nat ->
      (isPlaying (recordingSystem w) = true /\ finishPending w)
      \/ (isPlaying (recordingSystem w) = false /\ activeNotes (audioEngine w) = [])).

Lemma script_lookup k x :
  script !! k = Some x ->
  exists e, evs !! k = Some e /\ x = (c0 + wait e, (e, k)).
Proof.
  unfold script. rewrite list_lookup_imap.
  destruct (evs !! k) as [e|]; simpl; [|done]. intros [= <-]. eauto.
Qed.

Lemma replaying_dueSorted k w : replaying k w -> dueSorted w.
Proof.
  intros (_ & _ & _ & Hp & _). unfold dueSorted. rewrite Hp.
  apply (StronglySorted_sublist _ _ (script.*1)).
  - apply fmap_sublist, sublist_drop.
  - by apply imap_due_sorted.
Qed.

Lemma replaying_pending k w :
  replaying k w -> isPlaying (recordingSystem w) = true -> timers w <> [].
Proof.
  intros (_ & _ & _ & Hp & Hlt & Hge) Hpl Hnil.
  destruct (decide (k < length evs)%nat) as [Hk|Hk].
  - unfold pendingEvents in Hp. rewrite Hnil in Hp. simpl in Hp.
    assert (length (drop k script) = 0%nat) as Hl by (by rewrite <- Hp).
    rewrite length_drop in Hl. unfold script in Hl. rewrite length_imap in Hl. lia.
  - destruct Hge as [[_ (t & Ht & _)]|[Hf _]]; [lia| |congruence].
    rewrite Hnil in Ht. by apply elem_of_nil in Ht.
Qed.

Lemma replaying_fire h k w t :
  replaying k w -> nextDue (timers w) = Some t ->
  match eventOf (callback t) with
  | Some ei =>
      (k < length evs)%nat /\ evs !! k = Some ei.1 /\ ei.2 = k
      /\ replaying (S k) (fireTimer h w)
  | None => replaying k (fireTimer h w)
  end.
Proof.
  intros Hrep Hn. pose proof (replaying_dueSorted k w Hrep) as Hds.
  destruct Hrep as (Hev & Hti & Hei & Hp & Hlt & Hge).
  pose proof (fired_pending w t Hti Hds Hn) as Hfp.
  destruct (nextDue_Some _ _ Hn) as [Hin _].
  pose proof (exec_timersInv h FireTimer w Hti) as Hti'.
  pose proof (engineMove_inv _ _ (exec_engineMove h FireTimer w) Hei) as Hei'.
  simpl in Hti', Hei'. unfold fireTimer in *. rewrite Hn in *.
  set (w1 := withTimers (removeTimer (timeoutId t) (timers w))
               (withClock (Z.max (clock w) (due t)) w)) in *.
  change (omap pendingEvent (removeTimer (timeoutId t) (timers w)))
    with (pendingEvents w1) in Hfp.
  destruct (callback t) as [midi o g|o g|e i|] eqn:Hc; simpl in *.
  - (* a release cleanup *)
    assert (finishPending (releaseCleanup h midi o g w1) <-> finishPending w) as Hfin.
    { unfold finishPending. rewrite releaseCleanup_timers.
      apply (finishPending_removed w t Hti Hin). congruence. }
    split; [by rewrite releaseCleanup_recorder|].
    split; [done|]. split; [done|].
    split; [by rewrite (adds_pendingEvents 0 [] _ _ (releaseCleanup_adds _ h midi o g w1)),
              <- Hfp|].
    rewrite releaseCleanup_recorder. simpl. split.
    + intros Hk. destruct (Hlt Hk). split; [done|]. by rewrite Hfin.
    + intros Hk. destruct (Hge Hk) as [[? ?]|[? Hnil]]; [left|right].
      * split; [done|]. by rewrite Hfin.
      * split; [done|]. rewrite releaseCleanup_notes. subst w1. simpl.
        by rewrite Hnil.
  - (* a disconnect *)
    assert (finishPending (panicDisconnect h o g w1) <-> finishPending w) as Hfin.
    { apply (finishPending_removed w t Hti Hin). congruence. }
    split; [done|]. split; [done|]. split; [done|].
    split; [change (pendingEvents w1 = drop k script); by rewrite <- Hfp|]. split.
    + intros Hk. destruct (Hlt Hk). split; [done|]. by rewrite Hfin.
    + intros Hk. destruct (Hge Hk) as [[? ?]|[? Hnil]]; [left|right]; [|done].
      split; [done|]. by rewrite Hfin.
  - (* an event *)
    rewrite Hp in Hfp.
    assert (k < length script)%nat as Hk.
    { destruct (decide (k < length script)%nat); [done|].
      rewrite drop_ge in Hfp by lia. done. }
    destruct (lookup_lt_is_Some_2 script k Hk) as [x Hx].
    rewrite (drop_S _ _ _ Hx) in Hfp. injection Hfp as -> Hrest.
    destruct (script_lookup k _ Hx) as (e' & He' & Heq). injection Heq as _ -> ->.
    unfold script in Hk. rewrite length_imap in Hk.
    split; [done|]. split; [done|]. split; [done|].
    destruct (Hlt Hk) as [Hpl Hnf].
    assert (finishPending w1 <-> finishPending w) as Hfin
      by (apply (finishPending_removed w t Hti Hin); congruence).
    destruct (playbackEvent_finish h e' k w1) as [Hlast Hnot]. simpl in Hlast, Hnot.
    rewrite Hev, length_fmap in Hlast, Hnot.
    split; [by rewrite playbackEvent_recorder|]. split; [done|]. split; [done|].
    split; [by rewrite (adds_pendingEvents _ _ _ _ (playbackEvent_adds h e' k w1))|].
    rewrite playbackEvent_recorder. simpl. split.
    + intros Hk'. split; [done|]. intros Hf. apply Hnf, Hfin, Hnot; [lia | done].
    + intros Hk'. left. split; [done|]. apply Hlast. lia.
  - (* the finish timer *)
    assert (length evs <= k)%nat as Hk.
    { destruct (decide (k < length evs)%nat) as [Hk|]; [|lia].
      destruct (Hlt Hk) as [_ Hnf]. exfalso. apply Hnf. by exists t. }
    assert (pendingEvents (stopPlayback h w1) = drop k script) as Hp'.
    { pose proof (stopPlayback_pendingEvents h w1) as Hsub.
      rewrite <- Hfp, Hp in Hsub. rewrite Hp in Hfp.
      rewrite drop_ge in Hsub |- * by (unfold script; rewrite length_imap; lia).
      by apply sublist_nil_r in Hsub. }
    assert (recordedEvents (recordingSystem (stopPlayback h w1))
            = EventObject <$> evs) as Hev'.
    { exact (eq_trans (runCallback_recordedEvents h PlaybackFinish w1) Hev). }
    split; [done|]. split; [done|]. split; [done|]. split; [done|].
    split; [lia|]. intros _. right.
    destruct (isPlaying (recordingSystem w1)) eqn:Hpl.
    + rewrite stopPlayback_recorder by done. simpl. split; [done|].
      rewrite stopPlayback_engine, Hpl, stopAllNotes_engine.
      destruct Hei as (_ & Hun & _). simpl.
      destruct (isInitialized (audioEngine w)) eqn:Hi; [done | by apply Hun].
    + rewrite stopPlayback_idle by done. simpl in *.
      destruct (Hge Hk) as [[? ?]|[? ?]]; [congruence | done].
Qed.

Lemma replaying_quiet k w :
  replaying k w -> timers w = [] ->
  drop k script = []
  /\ isPlaying (recordingSystem w) = false
  /\ activeNotes (audioEngine w) = [].
Proof.
  intros Hrep Hnil.
  assert (isPlaying (recordingSystem w) = false) as Hpl.
  { destruct (isPlaying (recordingSystem w)) eqn:Hpl; [|done].
    by destruct (replaying_pending k w Hrep Hpl). }
  destruct Hrep as (_ & _ & _ & _ & Hlt & Hge).
  assert (length evs <= k)%nat as Hk.
  { destruct (decide (k < length evs)%nat) as [Hk|]; [|lia].
    destruct (Hlt Hk). congruence. }
  split; [apply drop_ge; unfold script; rewrite length_imap; lia|].
  split; [done|]. destruct (Hge Hk) as [[? _]|[_ ?]]; [congruence | done].
Qed.

Lemma quiet_run hs w :
  timers w = [] ->
  run ((fun h => (h, FireTimer)) <$> hs) w = w
  /\ playedDuring ((fun h => (h, FireTimer)) <$> hs) w = [].
Proof.
  intros Ht. induction hs as [|h hs [IH1 IH2]]; [done|].
  rewrite fmap_cons, run_cons. unfold playedDuring in *. simpl.
  unfold fireTimer. rewrite Ht. simpl. done.
Qed.

Lemma playedDuring_fire h steps w :
  playedDuring ((h, FireTimer) :: steps) w
  = match nextDue (timers w) ≫= eventOf ∘ callback with
    | Some ei => ei :: playedDuring steps (fireTimer h w)
    | None => playedDuring steps (fireTimer h w)
    end.
Proof.
  unfold playedDuring. simpl. destruct (nextDue (timers w)) as [t|]; simpl; [|done].
  by destruct (eventOf (callback t)).
Qed.

(** Firing whatever is due, as often as the load allows, plays the
    pending events in order and leaves nothing behind. *)
Lemma replay_runs hs : forall k w,
  replaying k w -> (load w <= length hs)%nat ->
  playedDuring ((fun h => (h, FireTimer)) <$> hs) w = (drop k script).*2
  /\ isPlaying (recordingSystem (run ((fun h => (h, FireTimer)) <$> hs) w)) = false
  /\ timers (run ((fun h => (h, FireTimer)) <$> hs) w) = []
  /\ activeNotes (audioEngine (run ((fun h => (h, FireTimer)) <$> hs) w)) = [].
Proof.
  induction hs as [|h hs IH]; intros k w Hrep Hl;
    (destruct (nextDue (timers w)) as [t|] eqn:Hn;
     [|apply nextDue_None in Hn;
       destruct (quiet_run [] w Hn) as [_ _];
       destruct (replaying_quiet k w Hrep Hn) as (-> & ? & ?);
       match goal with |- context [run (_ <$> ?l) w] =>
         destruct (quiet_run l w Hn) as [-> ->] end; done]).
  - destruct Hrep as (_ & Hti & _).
    pose proof (fireTimer_load reliable w t Hti Hn). simpl in Hl. lia.
  - pose proof (replaying_fire h k w t Hrep Hn) as Hf.
    destruct Hrep as (_ & Hti & _).
    pose proof (fireTimer_load h w t Hti Hn) as Hlt. simpl in Hl.
    rewrite fmap_cons, run_cons, playedDuring_fire, Hn. simpl.
    destruct (eventOf (callback t)) as [[e i]|] eqn:Hev.
    + destruct Hf as (Hk & He & Hi & Hrep'). simpl in He, Hi. subst i.
      destruct (IH (S k) (fireTimer h w) Hrep') as (Hp & Hrest); [lia|].
      split; [|done]. rewrite Hp.
      assert (script !! k = Some (c0 + wait e, (e, k))) as Hs
        by (unfold script; by rewrite list_lookup_imap, He).
      by rewrite (drop_S _ _ _ Hs).
    + by apply IH; [|lia].
Qed.

End Replay.

Lemma cost_imap_playbackTimer w evs :
  sum_list_with cost (imap (playbackTimer w 0) evs) = (4 * length evs)%nat.
Proof.
  assert (forall f : nat -> NoteEvent -> Timer,
            (forall i e, cost (f i e) = 4%nat) ->
            sum_list_with cost (imap f evs) = (4 * length evs)%nat) as H.
  { induction evs as [|e evs IH]; intros f Hf; [done|].
    rewrite imap_cons. simpl sum_list_with. rewrite Hf, IH; [simpl; lia|].
    intros i x. apply Hf. }
  by apply H.
Qed.

Lemma cost_outside_playback ts :
  Forall (fun t => ~ isPlaybackEvent (callback t)) ts ->
  sum_list_with cost ts = length ts.
Proof.
  induction 1 as [|t ts Ht _ IH]; [done|]. simpl. rewrite IH. unfold cost.
  destruct (callback t); simpl in *; done.
Qed.

(** X18. A playback started while none is running and no finish timer of
    an earlier one is pending, of a recording of event objects whose
    timestamps are numbers of milliseconds between 0 and 2147483647 that
    do not decrease, runs to its end by itself: firing the timers that
    are due, four times per recorded event and once more per timer and
    per voice there was, plays every recorded event exactly once and in
    recorded order, and then nothing is playing, nothing is pending and no
    voice is held, whatever the audio interface throws on the way. *)
Theorem playback_runs_to_its_end (p : Page) (w : World) (hs : list Host)
    (ts : list Z) :
  reachable p w ->
  isPlaying (recordingSystem w) = false ->
  recordedEvents (recordingSystem w) <> [] ->
  millis <$> recordedEvents (recordingSystem w) = Some <$> ts ->
  Sorted Z.le ts ->
  Forall (fun t => 0 <= t <= 2147483647) ts ->
  (forall t, t ∈ timers w -> callback t <> PlaybackFinish) ->
  (4 * length (recordedEvents (recordingSystem w)) + length (timers w)
   + length (activeNotes (audioEngine w)) <= length hs)%nat ->
  EventObject <$> scheduled (recordedEvents (recordingSystem w))
  = recordedEvents (recordingSystem w)
  /\ playedDuring ((fun h => (h, FireTimer)) <$> hs) (playRecording w)
     = imap (fun k e => (e, k)) (scheduled (recordedEvents (recordingSystem w)))
  /\ isPlaying (recordingSystem
        (run ((fun h => (h, FireTimer)) <$> hs) (playRecording w))) = false
  /\ timers (run ((fun h => (h, FireTimer)) <$> hs) (playRecording w)) = []
  /\ activeNotes (audioEngine
        (run ((fun h => (h, FireTimer)) <$> hs) (playRecording w))) = [].
Proof.
  intros Hr Hp Hne Hm Hs Hb Hnf Hl. apply Sorted_StronglySorted in Hs; [|apply _].
  destruct (millis_waits _ _ Hm Hb) as [Hall Hw]. split; [done|].
  set (evs := scheduled (recordedEvents (recordingSystem w))) in *.
  rewrite <- Hw in Hs. rewrite <- Hall in Hl, Hne. rewrite length_fmap in Hl.
  assert (Forall (fun t => ~ isPlaybackEvent (callback t)) (timers w)) as Hnone.
  { apply Forall_forall. intros t Ht Hev.
    destruct (reachable_playbackInv p w Hr t Ht Hev). congruence. }
  assert (hasRecording w = true) as Hh.
  { unfold hasRecording. apply bool_decide_eq_true_2. rewrite <- Hall.
    destruct evs; [done | simpl; lia]. }
  assert (timers (playRecording w) = timers w ++ imap (playbackTimer w 0) evs
          /\ recordingSystem (playRecording w)
             = recordingSystem
                 (scheduleEvents (recordedEvents (recordingSystem w)) 0
                    (setPlayback true [] w)).1
          /\ audioEngine (playRecording w) = audioEngine w) as (Hts & Hrs & Hae).
  { rewrite playRecording_unfold. rewrite Hp, Hh. simpl.
    destruct (scheduleEvents_timers (recordedEvents (recordingSystem w)) 0
                (setPlayback true [] w)) as (-> & _).
    by destruct (scheduleEvents_frame (recordedEvents (recordingSystem w)) 0
                   (setPlayback true [] w)) as (_ & _ & -> & _). }
  destruct (scheduleEvents_frame (recordedEvents (recordingSystem w)) 0
              (setPlayback true [] w)) as (_ & _ & _ & _ & Hre & _ & _ & Hpl).
  assert (replaying evs (clock w) 0 (playRecording w)) as Hrep.
  { split; [by rewrite Hrs, Hre|].
    split; [apply (exec_timersInv reliable (Invoke PlayRecording)),
              (reachable_timersInv p), Hr|].
    split; [rewrite Hae; apply (reachable_engineInv p), Hr|].
    split.
    { unfold pendingEvents. rewrite Hts, omap_app, imap_playbackTimer_pending.
      rewrite (omap_none _ (timers w)); [done|].
      eapply Forall_impl; [exact Hnone|]. intros t Ht.
      apply pendingEvent_not_event. intros Hev. apply Ht.
      by destruct (callback t). }
    split.
    - intros _. split; [by rewrite Hrs, Hpl|]. intros (t & Ht & Hc).
      rewrite Hts in Ht. apply elem_of_app in Ht as [Ht|Ht]; [by apply (Hnf t)|].
      apply elem_of_lookup_imap in Ht as (i & e & -> & _). done.
    - intros Hk. destruct evs; [done | simpl in Hk; lia]. }
  destruct (replay_runs evs (clock w) Hs hs 0 (playRecording w) Hrep)
    as (Hplayed & Hrest).
  { unfold load. rewrite Hts, sum_cost_app, cost_imap_playbackTimer, Hae.
    rewrite (cost_outside_playback _ Hnone). lia. }
  split; [|done]. rewrite Hplayed, drop_0. unfold script.
  rewrite fmap_imap. by apply imap_ext.
Qed.

Lemma playback_runs_to_its_end_witness :
  EventObject
    <$> scheduled (recordedEvents (recordingSystem (run demoTake (boot demoPage))))
  = recordedEvents (recordingSystem (run demoTake (boot demoPage)))
  /\ playedDuring ((fun h => (h, FireTimer)) <$> replicate 20 reliable)
       (playRecording (run demoTake (boot demoPage)))
     = imap (fun k e => (e, k))
         (scheduled (recordedEvents (recordingSystem (run demoTake (boot demoPage)))))
  /\ isPlaying (recordingSystem
        (run ((fun h => (h, FireTimer)) <$> replicate 20 reliable)
           (playRecording (run demoTake (boot demoPage))))) = false
  /\ timers (run ((fun h => (h, FireTimer)) <$> replicate 20 reliable)
               (playRecording (run demoTake (boot demoPage)))) = []
  /\ activeNotes (audioEngine
        (run ((fun h => (h, FireTimer)) <$> replicate 20 reliable)
           (playRecording (run demoTake (boot demoPage))))) = [].
Proof.
  apply (playback_runs_to_its_end demoPage _ _ [0; 20; 500; 600; 900]).
  - apply reachable_run, reachable_boot.
  - vm_compute. reflexivity.
  - vm_compute. discriminate.
  - vm_compute. reflexivity.
  - repeat constructor; lia.
  - repeat constructor; lia.
  - vm_compute. intros t Ht. by apply elem_of_nil in Ht.
  - vm_compute. lia.
Defined.

(** ** One voice and the others *)

(** No oscillator of a voice is the gain node of a voice. *)
Definition disjointInv (w : World) : Prop :=
  forall k1 v1 k2 v2,
    (k1, v1) ∈ activeNotes (audioEngine w) ->
    (k2, v2) ∈ activeNotes (audioEngine w) ->
    osc v1 <> noteGain v2.

Lemma disjointInv_step w w' :
  mapMove w w' -> voicesInv w -> disjointInv w -> disjointInv w'.
Proof.
  intros [_ [Hsub|(n & st & _ & Heq & _)]] (Hb & _) Hd k1 v1 k2 v2 H1 H2.
  - apply (Hd k1 v1 k2 v2); by apply (sublist_subseteq _ _ Hsub).
  - rewrite Heq in H1, H2.
    apply elem_of_app in H1 as [H1|H1%list_elem_of_singleton];
      apply elem_of_app in H2 as [H2|H2%list_elem_of_singleton].
    + by apply (Hd k1 v1 k2 v2).
    + injection H2 as -> ->. simpl. destruct (Hb _ _ H1). lia.
    + injection H1 as -> ->. simpl. destruct (Hb _ _ H2). lia.
    + injection H1 as -> ->. injection H2 as -> ->. simpl. lia.
Qed.

Lemma reachable_disjointInv p w : reachable p w -> disjointInv w.
Proof.
  induction 1 as [|h a w Hr IH].
  - by intros k1 v1 k2 v2 ?%elem_of_nil.
  - apply (disjointInv_step w); [apply exec_mapMove | by apply (reachable_voicesInv p) | done].
Qed.

(** [keepsBelow n c]: the command leaves the first [n] nodes as they are. *)
Definition keepsBelow (n : nat) (c : AudioCommand) : Prop :=
  forall g, (n <= length g)%nat ->
    (n <= length (c g))%nat /\ forall i, (i < n)%nat -> c g !! i = g !! i.

Lemma alter_keepsBelow n f j : (n <= j)%nat -> keepsBelow n (alter f j).
Proof.
  intros Hj g Hg. rewrite length_alter. split; [done|].
  intros i Hi. apply list_lookup_alter_ne. lia.
Qed.

Lemma append_keepsBelow n new : keepsBelow n (fun g => g ++ [new]).
Proof.
  intros g Hg. rewrite length_app. split; [lia|].
  intros i Hi. apply lookup_app_l. lia.
Qed.

Lemma runAll_keepsBelow n cmds : Forall (keepsBelow n) cmds -> keepsBelow n (runAll cmds).
Proof.
  unfold runAll. intros Hc. induction Hc as [|c cmds Hk _ IH]; intros g Hg; [done|].
  simpl. destruct (Hk g Hg) as [Hl Ho]. destruct (IH (c g) Hl) as [Hl' Ho'].
  split; [done|]. intros i Hi. by rewrite Ho', Ho.
Qed.

Lemma tryBlock_keepsBelow n t cmds :
  Forall (keepsBelow n) cmds -> keepsBelow n (fun g => (tryBlock t cmds g).1).
Proof.
  intros Hc g Hg. unfold tryBlock.
  destruct t as [k|]; [case_decide|]; cbn [fst];
    [apply (runAll_keepsBelow n (take k cmds)) | apply (runAll_keepsBelow n cmds)..];
    try done.
  by apply Forall_take.
Qed.

Lemma attackBlock_keepsBelow n master o midi vel t :
  (n <= o)%nat -> Forall (keepsBelow n) (attackBlock master o midi vel t).
Proof.
  intros Ho. unfold attackBlock.
  repeat (apply Forall_cons_2;
          [first [ apply append_keepsBelow | apply alter_keepsBelow; lia ]|]).
  apply Forall_nil_2.
Qed.

(** Creating a voice leaves the nodes that exist as they are. *)
Lemma playNote_node h m v w i :
  (i < length (graph w))%nat -> graph (playNote h m v w) !! i = graph w !! i.
Proof.
  intros Hi. destruct (playNote_graph h m v w) as [->| ->]; [done|].
  by apply (tryBlock_keepsBelow (length (graph w)) _ _
              (attackBlock_keepsBelow _ _ _ _ _ _ (le_n _)) (graph w)).
Qed.

Lemma alter_keeps_node f j (S : nat -> Prop) :
  S j -> keeps (fun g i => g !! i) S (alter f j).
Proof. intros Hj g i Hi. simpl. apply list_lookup_alter_ne. by intros ->. Qed.

Lemma releaseBlock_keeps_node v t fade halt :
  Forall (keeps (fun g i => g !! i) (fun i => i = osc v \/ i = noteGain v))
         (releaseBlock v t fade halt).
Proof. repeat constructor; apply alter_keeps_node; tauto. Qed.

Lemma disconnectBlock_keeps_node o g :
  Forall (keeps (fun gr i => gr !! i) (fun i => i = o \/ i = g))
         [disconnect o; disconnect g].
Proof. repeat constructor; apply alter_keeps_node; tauto. Qed.

(** The nodes of two voices under different notes are four nodes. *)
Lemma voices_apart p w k1 v1 k2 v2 :
  reachable p w ->
  mapGet k1 (activeNotes (audioEngine w)) = Some v1 ->
  mapGet k2 (activeNotes (audioEngine w)) = Some v2 ->
  k1 <> k2 ->
  osc v1 <> osc v2 /\ osc v1 <> noteGain v2
  /\ noteGain v1 <> osc v2 /\ noteGain v1 <> noteGain v2.
Proof.
  intros Hr H1%mapGet_Some_elem H2%mapGet_Some_elem Hne.
  destruct (reachable_voicesInv p w Hr) as (Hb & Hnd & _).
  pose proof (reachable_disjointInv p w Hr) as Hd.
  assert (osc v1 <> osc v2) as Ho.
  { intros Heq. apply Hne.
    by injection (NoDup_fmap_inj_on (fun kv : Z * Voice => osc kv.2) _ _ _ Hnd H1 H2 Heq). }
  destruct (Hb _ _ H1) as [-> _]. destruct (Hb _ _ H2) as [Hg2 _].
  pose proof (Hd _ _ _ _ H1 H2). pose proof (Hd _ _ _ _ H2 H1) as H21.
  destruct (Hb _ _ H1) as [Hg1 _]. rewrite Hg1 in H21. rewrite Hg2. repeat split; try done.
  - congruence.
  - lia.
Qed.

(** X7. Polyphony: a note-on, a note-off or a release cleanup for one
    note leaves every voice held under another note as it is: its entry
    in [activeNotes], its oscillator and its gain node (type, frequency,
    start and stop time, value, automation, connection). *)
Theorem other_voices_untouched (p : Page) (h : Host) (w : World) (m k : Z) (v : Voice) :
  reachable p w ->
  mapGet k (activeNotes (audioEngine w)) = Some v ->
  k <> m ->
  forall w',
    ((exists vel, w' = playNote h m vel w)
     \/ w' = stopNote h m w
     \/ (exists t o g, t ∈ timers w /\ callback t = ReleaseCleanup m o g
                       /\ w' = releaseCleanup h m o g w)) ->
    mapGet k (activeNotes (audioEngine w')) = Some v
    /\ graph w' !! osc v = graph w !! osc v
    /\ graph w' !! noteGain v = graph w !! noteGain v.
Proof.
  intros Hr Hk Hne w' Hw'.
  destruct (reachable_voicesInv p w Hr) as (Hb & _ & Ht).
  destruct (Hb _ _ (mapGet_Some_elem _ _ _ Hk)) as [Hg Hlen].
  destruct Hw' as [[vel ->]|[->|(t & o & g & Hin & Hc & ->)]].
  - rewrite playNote_other by done. split; [done|].
    split; apply playNote_node; lia.
  - rewrite stopNote_other by done. split; [done|].
    destruct (stopNote_graph h m w) as [->|(vm & Hm & ->)]; [done|].
    destruct (voices_apart p w k v m vm Hr Hk Hm Hne) as (? & ? & ? & ?).
    split; apply (tryBlock_keeps (fun g i => g !! i) _ _ _
                    (releaseBlock_keeps_node _ _ _ _)); tauto.
  - split.
    { rewrite releaseCleanup_notes. destruct (mapGet m _) as [cur|]; [|done].
      case_decide; [|done]. by rewrite mapGet_mapDelete_ne. }
    unfold releaseCleanup.
    destruct (mapGet m (activeNotes (audioEngine w))) as [cur|] eqn:Hm; [|done].
    case_decide as Ho; [|done].
    destruct (voices_apart p w k v m cur Hr Hk Hm Hne) as (? & ? & ? & ?).
    specialize (Ht t Hin). rewrite Hc in Ht. simpl in Ht. destruct Ht as [-> _].
    destruct (Hb _ _ (mapGet_Some_elem _ _ _ Hm)) as [Hgc _].
    pose proof (tryBlock_keeps (fun g i => g !! i) _ (h o) _
                  (disconnectBlock_keeps_node o (S o)) (graph w)) as Hkeep.
    cbv beta in Hkeep. destruct (tryBlock _ _ _) as [gr ok].
    rewrite graph_updateSpeakerIcon. simpl in *.
    split; apply Hkeep; intros [?|?]; congruence.
Qed.

Lemma other_voices_untouched_witness :
  mapGet 62 (activeNotes (audioEngine
     (stopNote reliable 60
        (playNote reliable 62 (1 # 2) (run demoHeld (boot demoPage))))))
  = Some (mkVoice 4 5 100)
  /\ graph (stopNote reliable 60
              (playNote reliable 62 (1 # 2) (run demoHeld (boot demoPage)))) !! 4%nat
     = graph (playNote reliable 62 (1 # 2) (run demoHeld (boot demoPage))) !! 4%nat
  /\ graph (stopNote reliable 60
              (playNote reliable 62 (1 # 2) (run demoHeld (boot demoPage)))) !! 5%nat
     = graph (playNote reliable 62 (1 # 2) (run demoHeld (boot demoPage))) !! 5%nat.
Proof.
  apply (other_voices_untouched demoPage reliable
           (playNote reliable 62 (1 # 2) (run demoHeld (boot demoPage)))
           60 62 (mkVoice 4 5 100)).
  - apply (reachable_step demoPage reliable (Invoke (PlayNote 62 (1 # 2)))),
      reachable_run, reachable_boot.
  - vm_compute. reflexivity.
  - discriminate.
  - right. left. reflexivity.
Defined.

(** ** The keyboard *)

Lemma handler_notifyRecorder ty n v s :
  InputHandler.handler (InputHandler.notifyRecorder ty n v s) = InputHandler.handler s.
Proof. unfold InputHandler.notifyRecorder. by destruct (InputHandler.recorderCallback _). Qed.

Lemma handler_activateKey n s :
  InputHandler.handler (InputHandler.activateKey n s) = InputHandler.handler s.
Proof. unfold InputHandler.activateKey. by destruct (mapGet _ _). Qed.

Lemma handler_deactivateKey n s :
  InputHandler.handler (InputHandler.deactivateKey n s) = InputHandler.handler s.
Proof. unfold InputHandler.deactivateKey. by destruct (mapGet _ _). Qed.

Lemma setHas_setAdd key s : InputHandler.setHas key (InputHandler.setAdd key s) = true.
Proof.
  unfold InputHandler.setHas, InputHandler.setAdd. apply bool_decide_eq_true.
  case_decide; [done|]. apply elem_of_app. right. left.
Qed.

(** X9. Key repeat: a [keydown] for a key that is already down changes
    nothing, whatever the host does.  While a key is held, the repeated
    events of the keyboard start no voice and record no event. *)
Theorem handleKeyDown_ignores_repeat (toLowerCase : string -> string)
    (h h' : Host) (key : string) (s : InputHandler.Session) :
  InputHandler.handleKeyDown toLowerCase h' key
    (InputHandler.handleKeyDown toLowerCase h key s)
  = InputHandler.handleKeyDown toLowerCase h key s.
Proof.
  unfold InputHandler.handleKeyDown. cbv zeta.
  destruct (InputHandler.strGet (toLowerCase key)
              (InputHandler.keyToMidi (InputHandler.handler s))) as [midi|] eqn:Hk;
    [|by rewrite Hk].
  destruct (InputHandler.setHas (toLowerCase key)
              (InputHandler.pressedKeys (InputHandler.handler s))) eqn:Hp.
  - by rewrite Hk, Hp.
  - rewrite handler_notifyRecorder, handler_activateKey. simpl.
    by rewrite Hk, setHas_setAdd.
Qed.

Lemma firstKeyFor_Some midi m key :
  InputHandler.firstKeyFor midi m = Some key -> (key, midi) ∈ m.
Proof.
  induction m as [|[k v] m IH]; simpl; [done|].
  case_decide; [intros [= <-]; subst; left | intros ?; right; auto].
Qed.

Lemma firstKeyFor_None midi m key :
  InputHandler.firstKeyFor midi m = None -> (key, midi) ∉ m.
Proof.
  induction m as [|[k v] m IH]; simpl; [intros _; apply not_elem_of_nil|].
  case_decide; [done|]. intros Hn [[= -> ->]|Hin]%elem_of_cons; [done|]. by apply IH.
Qed.

Lemma strGet_elem {V} key (v : V) (m : list (string * V)) :
  InputHandler.strGet key m = Some v -> (key, v) ∈ m.
Proof.
  induction m as [|[k v'] m IH]; simpl; [done|].
  case_decide; [intros [= <-]; subst; left | intros ?; right; auto].
Qed.

Lemma strGet_NoDup {V} key (v : V) (m : list (string * V)) :
  NoDup m.*1 -> (key, v) ∈ m -> InputHandler.strGet key m = Some v.
Proof.
  induction m as [|[k v'] m IH]; simpl; [by intros _ ?%elem_of_nil|].
  intros [Hk Hm]%NoDup_cons [[= -> ->]|Hin]%elem_of_cons.
  - by rewrite decide_True.
  - case_decide; [|auto]. subst. exfalso. apply Hk.
    apply list_elem_of_fmap. by exists (key, v).
Qed.

(** X10. The key shown for a note: [getKeyForMidi] returns the upper-cased
    name of a key that [keyToMidi] binds to the note, and [null] exactly
    when no key is bound to it. *)
Theorem getKeyForMidi_names_a_key (toUpperCase : string -> string) (midi : Z)
    (s : InputHandler.Session) :
  NoDup (InputHandler.keyToMidi (InputHandler.handler s)).*1 ->
  match InputHandler.getKeyForMidi toUpperCase midi s with
  | Some name =>
      exists key,
        name = toUpperCase key
        /\ InputHandler.strGet key (InputHandler.keyToMidi (InputHandler.handler s))
           = Some midi
  | None =>
      forall key,
        InputHandler.strGet key (InputHandler.keyToMidi (InputHandler.handler s))
        <> Some midi
  end.
Proof.
  intros Hnd. unfold InputHandler.getKeyForMidi.
  destruct (InputHandler.firstKeyFor _ _) as [key|] eqn:Hf; simpl.
  - exists key. split; [done|]. by apply strGet_NoDup, firstKeyFor_Some.
  - intros key Hk%strGet_elem. by apply (firstKeyFor_None _ _ key) in Hf.
Qed.

Lemma createKeyToMidiMap_NoDup : NoDup InputHandler.createKeyToMidiMap.*1.
Proof. apply (bool_decide_unpack _). vm_compute. exact I. Qed.

Lemma getKeyForMidi_names_a_key_witness :
  (exists key,
     "q" = key /\ InputHandler.strGet key InputHandler.createKeyToMidiMap = Some 60)
  /\ forall key, InputHandler.strGet key InputHandler.createKeyToMidiMap <> Some 61.
Proof.
  split.
  - exact (getKeyForMidi_names_a_key (fun k => k) 60
             (InputHandler.create (boot demoPage)) createKeyToMidiMap_NoDup).
  - exact (getKeyForMidi_names_a_key (fun k => k) 61
             (InputHandler.create (boot demoPage)) createKeyToMidiMap_NoDup).
Defined.

(** ** The timestamps of a take *)

(** What the recorder holds is in time order, starts at or after 0 and,
    while recording, ends at or before now. *)
Definition tidy (w : World) : Prop :=
  exists ts,
    millis <$> recordedEvents (recordingSystem w) = Some <$> ts
    /\ StronglySorted Z.le ts
    /\ Forall (fun t => 0 <= t) ts
    /\ (isRecording (recordingSystem w) = true ->
        recordingStartTime (recordingSystem w) <= clock w
        /\ Forall (fun t => t <= clock w - recordingStartTime (recordingSystem w)) ts).

Lemma tidy_frame w w' :
  recordedEvents (recordingSystem w') = recordedEvents (recordingSystem w) ->
  isRecording (recordingSystem w') = isRecording (recordingSystem w) ->
  recordingStartTime (recordingSystem w') = recordingStartTime (recordingSystem w) ->
  clock w <= clock w' ->
  tidy w -> tidy w'.
Proof.
  unfold tidy. intros -> -> -> Hc (ts & Hm & Hs & Hp & Hr). exists ts.
  split; [done|]. split; [done|]. split; [done|].
  intros Hi. destruct (Hr Hi) as [Hst Hle]. split; [lia|].
  eapply Forall_impl; [exact Hle|]. simpl. intros; lia.
Qed.

Lemma tidy_same_recorder w w' :
  recordingSystem w' = recordingSystem w -> clock w <= clock w' -> tidy w -> tidy w'.
Proof. intros Hr. apply tidy_frame; by rewrite Hr. Qed.

Lemma tidy_recordEvent ty n v w :
  tidy w -> tidy (recordEvent (mkNoteEvent ty n v (Ms (clock w))) w).
Proof.
  intros Ht. unfold recordEvent.
  destruct (isRecording (recordingSystem w)) eqn:Hi; simpl; [|done].
  destruct Ht as (ts & Hm & Hs & Hp & Hr). destruct (Hr Hi) as [Hst Hle].
  exists (ts ++ [clock w - recordingStartTime (recordingSystem w)]).
  simpl. rewrite Hi, !fmap_app, Hm. simpl. split; [done|]. split; [|split].
  - apply StronglySorted_app. split; [|split; [done | by repeat constructor]].
    intros x1 x2 Hx1 ->%list_elem_of_singleton.
    rewrite Forall_forall in Hle. by apply Hle.
  - apply Forall_app. split; [done|]. constructor; [simpl; lia | constructor].
  - intros _. split; [done|]. apply Forall_app. split; [done|].
    constructor; [simpl; lia | constructor].
Qed.

Lemma tidy_startRecording w : tidy w -> tidy (startRecording w).
Proof.
  intros Ht. unfold startRecording. destruct (isRecording _); [done|].
  exists []. simpl. repeat split; try constructor. lia.
Qed.

Lemma tidy_stopRecording w : tidy w -> tidy (stopRecording w).
Proof.
  intros Ht. unfold stopRecording. destruct (negb _); [done|].
  destruct Ht as (ts & Hm & Hs & Hp & Hr). exists ts. simpl. by repeat split.
Qed.

Lemma clock_stopPlayback h w : clock (stopPlayback h w) = clock w.
Proof.
  destruct (isPlaying (recordingSystem w)) eqn:Hp; [|by rewrite stopPlayback_idle].
  destruct (stopPlayback_adds h w Hp) as [-> _]. unfold cancelAll.
  by destruct (clearTimeouts_frame (playbackTimeouts (recordingSystem w)) w) as [-> _].
Qed.

Lemma tidy_stopPlayback h w : tidy w -> tidy (stopPlayback h w).
Proof.
  destruct (isPlaying (recordingSystem w)) eqn:Hp; [|by rewrite stopPlayback_idle].
  apply tidy_frame; rewrite ?stopPlayback_recorder, ?clock_stopPlayback by done; done.
Qed.

Lemma tidy_playNote h n v w : tidy w -> tidy (playNote h n v w).
Proof.
  apply tidy_same_recorder; [apply playNote_recorder|].
  by destruct (playNote_adds (fun _ => True) h n v w) as [-> _].
Qed.

Lemma tidy_stopNote h n w : tidy w -> tidy (stopNote h n w).
Proof.
  apply tidy_same_recorder; [apply stopNote_recorder|].
  by destruct (stopNote_adds h n w) as [-> _].
Qed.

Lemma tidy_stopAllNotes h w : tidy w -> tidy (stopAllNotes h w).
Proof.
  apply tidy_same_recorder; [apply stopAllNotes_recorder|].
  by destruct (stopAllNotes_adds h w) as [-> _].
Qed.

Lemma tidy_init ok w : tidy w -> tidy (init ok w).
Proof. unfold init. destruct (isInitialized _); [done|]. by destruct ok. Qed.

Lemma tidy_playRecording w : tidy w -> tidy (playRecording w).
Proof.
  rewrite playRecording_unfold. destruct (isPlaying _); [done|]. destruct (negb _); [done|].
  destruct (scheduleEvents_frame (recordedEvents (recordingSystem w)) 0
              (setPlayback true [] w)) as (Hc & _ & _ & _ & He & Hi & Hs & _).
  apply tidy_frame; rewrite ?He, ?Hi, ?Hs, ?Hc; done.
Qed.

Lemma tidy_fireTimer h w : tidy w -> tidy (fireTimer h w).
Proof.
  intros Ht. unfold fireTimer. destruct (nextDue (timers w)) as [t|]; [|done].
  match goal with |- tidy (runCallback h _ ?x) =>
    assert (tidy x) as H1 by (revert Ht; apply tidy_frame; simpl; (done || lia)) end.
  destruct (callback t); simpl.
  - revert H1. apply tidy_same_recorder; [apply releaseCleanup_recorder|].
    by destruct (releaseCleanup_adds (fun _ => True) h midi o g
                   (withTimers (removeTimer (timeoutId t) (timers w))
                      (withClock (Z.max (clock w) (due t)) w))) as [-> _].
  - revert H1. by apply tidy_same_recorder.
  - revert H1. apply tidy_same_recorder; [apply playbackEvent_recorder|].
    by destruct (playbackEvent_adds h event index
                   (withTimers (removeTimer (timeoutId t) (timers w))
                      (withClock (Z.max (clock w) (due t)) w))) as [-> _].
  - by apply tidy_stopPlayback.
Qed.

Lemma tidy_elapse dt w : tidy w -> tidy (elapse dt w).
Proof.
  unfold elapse. destruct (nextDue _); apply tidy_frame; simpl; (done || lia).
Qed.

Lemma tidy_setActive el b w : tidy w -> tidy (InputHandler.setActive el b w).
Proof. by apply tidy_frame. Qed.

Lemma tidy_activateKey n s :
  tidy (InputHandler.world s) -> tidy (InputHandler.world (InputHandler.activateKey n s)).
Proof.
  unfold InputHandler.activateKey. destruct (mapGet _ _); [|done]. apply tidy_setActive.
Qed.

Lemma tidy_deactivateKey n s :
  tidy (InputHandler.world s) -> tidy (InputHandler.world (InputHandler.deactivateKey n s)).
Proof.
  unfold InputHandler.deactivateKey. destruct (mapGet _ _); [|done]. apply tidy_setActive.
Qed.

Lemma tidy_notifyRecorder ty n v s :
  tidy (InputHandler.world s) ->
  tidy (InputHandler.world (InputHandler.notifyRecorder ty n v s)).
Proof.
  unfold InputHandler.notifyRecorder.
  destruct (InputHandler.recorderCallback _); [|done]. apply tidy_recordEvent.
Qed.

Lemma tidy_handlePointerDown h n el s :
  tidy (InputHandler.world s) ->
  tidy (InputHandler.world (InputHandler.handlePointerDown h n el s)).
Proof.
  intros Ht. unfold InputHandler.handlePointerDown.
  destruct (keys _ !! el) as [[? []]|]; try done;
    by apply tidy_notifyRecorder, tidy_activateKey, tidy_playNote.
Qed.

Lemma tidy_handlePointerUp h n el s :
  tidy (InputHandler.world s) ->
  tidy (InputHandler.world (InputHandler.handlePointerUp h n el s)).
Proof.
  intros Ht. unfold InputHandler.handlePointerUp.
  destruct (keys _ !! el) as [[? []]|]; try done.
  by apply tidy_notifyRecorder, tidy_deactivateKey, tidy_stopNote.
Qed.

Lemma tidy_handleKeyDown lower h key s :
  tidy (InputHandler.world s) ->
  tidy (InputHandler.world (InputHandler.handleKeyDown lower h key s)).
Proof.
  intros Ht. unfold InputHandler.handleKeyDown. cbv zeta.
  destruct (InputHandler.strGet _ _); [|done]. destruct (InputHandler.setHas _ _); [done|].
  by apply tidy_notifyRecorder, tidy_activateKey, tidy_playNote.
Qed.

Lemma tidy_handleKeyUp lower h key s :
  tidy (InputHandler.world s) ->
  tidy (InputHandler.world (InputHandler.handleKeyUp lower h key s)).
Proof.
  intros Ht. unfold InputHandler.handleKeyUp. cbv zeta.
  destruct (InputHandler.strGet _ _); [|done].
  by apply tidy_notifyRecorder, tidy_deactivateKey, tidy_stopNote.
Qed.

Lemma tidy_autoInitOn l ok a : tidy (appWorld a) -> tidy (appWorld (autoInitOn l ok a)).
Proof.
  intros Ht. unfold autoInitOn. case_decide; [|done]. unfold initAudio.
  destruct (isReady _); [done|]. destruct ok; [|done]. by apply (tidy_init true).
Qed.

Lemma tidy_onKey f el a a' :
  (forall n s, tidy (InputHandler.world s) -> tidy (InputHandler.world (f n el s))) ->
  onKey f el a = Some a' -> tidy (appWorld a) -> tidy (appWorld a').
Proof.
  intros Hf. unfold onKey. destruct (InputHandler.isInitialized _); [|by intros [= <-]].
  destruct (keys _ !! el) as [[[midi|] ?]|]; try done. intros [= <-]. apply Hf.
Qed.

Lemma tidy_dispatch lower env ev a a' :
  loadsNothing ev -> dispatch lower env ev a = Some a' ->
  tidy (appWorld a) -> tidy (appWorld a').
Proof.
  intros Hl Hd Ht. destruct ev; simpl in Hd.
  - injection Hd as <-. apply tidy_autoInitOn. unfold onKeyboard.
    destruct (InputHandler.isInitialized _); [|done]. by apply tidy_handleKeyDown.
  - injection Hd as <-. unfold onKeyboard.
    destruct (InputHandler.isInitialized _); [|done]. by apply tidy_handleKeyUp.
  - revert Hd Ht. apply tidy_onKey. intros. by apply tidy_handlePointerDown.
  - revert Hd Ht. apply tidy_onKey. intros. by apply tidy_handlePointerUp.
  - revert Hd Ht. apply tidy_onKey. intros. by apply tidy_handlePointerUp.
  - destruct (onKey _ el a) as [a1|] eqn:H1; [|done]. injection Hd as <-.
    apply tidy_autoInitOn. revert H1 Ht. apply tidy_onKey.
    intros. by apply tidy_handlePointerDown.
  - injection Hd as <-. by apply tidy_autoInitOn.
  - revert Hd Ht. apply tidy_onKey. intros. by apply tidy_handlePointerUp.
  - destruct target.
    + destruct (recordBtnDisabled _); injection Hd as <-; [done|].
      apply tidy_autoInitOn. by apply tidy_startRecording.
    + destruct (stopBtnDisabled _); injection Hd as <-; [done|].
      apply tidy_autoInitOn. unfold stopClick.
      destruct (stopRecordingResult _); by apply tidy_stopRecording.
    + destruct (playBtnDisabled _); injection Hd as <-; [done|].
      apply tidy_autoInitOn. unfold playClick.
      destruct (playRecordingOutcome _).2; by apply tidy_playRecording.
    + destruct (saveBtnDisabled _); injection Hd as <-; [done|].
      apply tidy_autoInitOn. unfold saveClick. by destruct (saveRecording _ _).
    + injection Hd as <-. by apply tidy_autoInitOn.
  - injection Hd as <-. destruct file as [f|]; [|done]. destruct Hl as [err Herr].
    simpl. unfold loadRecording. by rewrite Herr.
  - injection Hd as <-. unfold visibilityChange.
    destruct (_ && _); [|done]. by apply tidy_stopAllNotes.
  - injection Hd as <-. by apply tidy_stopAllNotes.
  - injection Hd as <-. unfold checkPlaybackEnd. by destruct (_ && _).
  - injection Hd as <-. by apply tidy_fireTimer.
  - injection Hd as <-. by apply tidy_elapse.
Qed.

(** X11. In a session of the page in which no file is loaded, what the
    recorder holds is always event objects stamped with numbers of
    milliseconds that are in time order and start at or after 0, whatever
    the keys, the pointer, the buttons and the timers do: every event
    gets [performance.now()] minus the start of the take, and the clock
    does not run backwards. *)
Theorem recorded_timestamps_ordered (toLowerCase : string -> string) (p : Page)
    (c : Controls) (evs : list (Env * DomEvent)) (a : App) :
  Forall (fun e => loadsNothing e.2) evs ->
  play toLowerCase evs (initApp p c) = Some a ->
  exists ts,
    millis <$> recordedEvents (recordingSystem (appWorld a)) = Some <$> ts
    /\ Sorted Z.le ts
    /\ Forall (fun t => 0 <= t) ts.
Proof.
  intros Hl Hp.
  assert (tidy (appWorld a)) as (ts & Hm & Hs & Hpos & _).
  { assert (tidy (appWorld (initApp p c))) as H0.
    { exists []. simpl. repeat split; try constructor. done. }
    revert Hl Hp H0. generalize (initApp p c). induction evs as [|[env ev] evs IH];
      intros a0 Hl Hp H0; simpl in Hp; [by injection Hp as <-|].
    apply Forall_cons in Hl as [Hev Hl].
    destruct (dispatch toLowerCase env ev a0) as [a1|] eqn:Hd; [|done].
    apply (IH a1); [done..|]. by apply (tidy_dispatch toLowerCase env ev a0). }
  exists ts. split; [done|]. split; [by apply StronglySorted_Sorted | done].
Qed.

Definition demoControls : Controls :=
  mkControls false "Record" false true false "Play" true true (PageText "Ready") false.

Definition demoEnv : Env := mkEnv reliable true "2024-01-01T00:00:00.000Z".

(** A click starts the audio, a take is recorded with one key, and
    stopped. *)
Definition demoTyping : list (Env * DomEvent) :=
  [ (demoEnv, Click Elsewhere);
    (demoEnv, Click RecordBtn);
    (demoEnv, Wait 100);
    (demoEnv, KeyDown "Q");
    (demoEnv, KeyDown "Q");
    (demoEnv, Wait 300);
    (demoEnv, KeyUp "Q");
    (demoEnv, TimerFires);
    (demoEnv, Click StopBtn) ].

(** Lower case for the letter the examples type. *)
Definition demoLowerCase (s : string) : string :=
  if decide (s = "Q") then "q" else if decide (s = "A") then "a" else s.

Lemma recorded_timestamps_ordered_witness :
  exists a,
    play demoLowerCase demoTyping (initApp demoPage demoControls) = Some a
    /\ recordedEvents (recordingSystem (appWorld a))
       = [EventObject (mkNoteEvent "noteOn" 60 (1 # 2) (Ms 100));
          EventObject (mkNoteEvent "noteOff" 60 0 (Ms 400))]
    /\ exists ts,
         millis <$> recordedEvents (recordingSystem (appWorld a)) = Some <$> ts
         /\ Sorted Z.le ts
         /\ Forall (fun t => 0 <= t) ts.
Proof.
  eexists. split; [vm_compute; reflexivity|]. split; [vm_compute; reflexivity|].
  apply (recorded_timestamps_ordered demoLowerCase demoPage demoControls demoTyping).
  - repeat constructor.
  - vm_compute. reflexivity.
Defined.

(** ** The first key of a session *)

Lemma playNote_not_ready h n v w :
  isInitialized (audioEngine w) = false -> playNote h n v w = w.
Proof. intros Hi. unfold playNote. by rewrite Hi. Qed.

(** Key feedback and the recorder leave the audio side alone. *)
Definition sameAudio (w w' : World) : Prop :=
  audioEngine w' = audioEngine w /\ graph w' = graph w /\ timers w' = timers w
  /\ clock w' = clock w /\ nextTimeoutId w' = nextTimeoutId w.

Lemma sameAudio_refl w : sameAudio w w.
Proof. by repeat split. Qed.

Lemma sameAudio_trans w1 w2 w3 : sameAudio w1 w2 -> sameAudio w2 w3 -> sameAudio w1 w3.
Proof.
  intros (? & ? & ? & ? & ?) (? & ? & ? & ? & ?). repeat split; congruence.
Qed.

Lemma sameAudio_recordEvent e w : sameAudio w (recordEvent e w).
Proof. unfold recordEvent. destruct (negb _); by repeat split. Qed.

Lemma sameAudio_notifyRecorder ty n v s :
  sameAudio (InputHandler.world s)
            (InputHandler.world (InputHandler.notifyRecorder ty n v s)).
Proof.
  unfold InputHandler.notifyRecorder.
  destruct (InputHandler.recorderCallback _); [apply sameAudio_recordEvent|].
  apply sameAudio_refl.
Qed.

Lemma sameAudio_activateKey n s :
  sameAudio (InputHandler.world s) (InputHandler.world (InputHandler.activateKey n s)).
Proof. unfold InputHandler.activateKey. destruct (mapGet _ _); by repeat split. Qed.

Lemma sameAudio_deactivateKey n s :
  sameAudio (InputHandler.world s) (InputHandler.world (InputHandler.deactivateKey n s)).
Proof. unfold InputHandler.deactivateKey. destruct (mapGet _ _); by repeat split. Qed.

(** What [handleKeyDown] does on the audio side is what [playNote] does,
    or nothing. *)
Lemma handleKeyDown_audio lower h key s :
  sameAudio (InputHandler.world s)
            (InputHandler.world (InputHandler.handleKeyDown lower h key s))
  \/ exists midi,
       InputHandler.strGet (lower key) (InputHandler.keyToMidi (InputHandler.handler s))
       = Some midi
       /\ InputHandler.setHas (lower key) (InputHandler.pressedKeys (InputHandler.handler s))
          = false
       /\ sameAudio (playNote h midi (1 # 2) (InputHandler.world s))
                    (InputHandler.world (InputHandler.handleKeyDown lower h key s)).
Proof.
  unfold InputHandler.handleKeyDown. cbv zeta.
  destruct (InputHandler.strGet _ _) as [midi|]; [|left; apply sameAudio_refl].
  destruct (InputHandler.setHas _ _); [left; apply sameAudio_refl|].
  right. exists midi. split; [done|]. split; [done|].
  eapply sameAudio_trans; [|apply sameAudio_notifyRecorder].
  eapply sameAudio_trans; [|apply sameAudio_activateKey]. apply sameAudio_refl.
Qed.

Lemma handleKeyDown_handler lower h key s :
  InputHandler.keyToMidi (InputHandler.handler (InputHandler.handleKeyDown lower h key s))
  = InputHandler.keyToMidi (InputHandler.handler s)
  /\ InputHandler.isInitialized
       (InputHandler.handler (InputHandler.handleKeyDown lower h key s))
     = InputHandler.isInitialized (InputHandler.handler s)
  /\ (forall midi,
        InputHandler.strGet (lower key) (InputHandler.keyToMidi (InputHandler.handler s))
        = Some midi ->
        InputHandler.setHas (lower key)
          (InputHandler.pressedKeys
             (InputHandler.handler (InputHandler.handleKeyDown lower h key s))) = true).
Proof.
  unfold InputHandler.handleKeyDown. cbv zeta.
  destruct (InputHandler.strGet _ _) as [midi|]; [|done].
  destruct (InputHandler.setHas _ _) eqn:Hp; [done|].
  rewrite handler_notifyRecorder, handler_activateKey. simpl.
  repeat split. intros _ _. apply setHas_setAdd.
Qed.

Lemma handleKeyDown_held lower h key s :
  (forall midi,
     InputHandler.strGet (lower key) (InputHandler.keyToMidi (InputHandler.handler s))
     = Some midi ->
     InputHandler.setHas (lower key) (InputHandler.pressedKeys (InputHandler.handler s))
     = true) ->
  InputHandler.handleKeyDown lower h key s = s.
Proof.
  intros Hheld. unfold InputHandler.handleKeyDown. cbv zeta.
  destruct (InputHandler.strGet _ _) as [midi|]; [|done]. by rewrite (Hheld midi).
Qed.

Lemma withWorld_handler w s :
  InputHandler.handler (InputHandler.withWorld w s) = InputHandler.handler s.
Proof. done. Qed.

Lemma play_cons lower e evs a :
  play lower (e :: evs) a
  = match dispatch lower e.1 e.2 a with
    | Some a' => play lower evs a'
    | None => None
    end.
Proof. done. Qed.

(** A listener registered with [once] is gone after its first call. *)
Lemma autoInitOn_consumes l ok a : l ∉ autoInit (autoInitOn l ok a).
Proof.
  unfold autoInitOn. case_decide as Hin; [|done]. unfold initAudio.
  destruct (isReady _); simpl.
  - by intros [Hne _]%list_elem_of_filter.
  - destruct ok; simpl; [by intros ?%elem_of_nil|].
    by intros [Hne _]%list_elem_of_filter.
Qed.

Lemma init_notes ok w :
  activeNotes (audioEngine (init ok w)) = activeNotes (audioEngine w).
Proof. unfold init. destruct (isInitialized _); [done|]. by destruct ok. Qed.

Lemma autoInitOn_audio l ok a :
  activeNotes (audioEngine (appWorld (autoInitOn l ok a)))
  = activeNotes (audioEngine (appWorld a))
  /\ forall i, startTimeOf (graph (appWorld (autoInitOn l ok a))) i
               = startTimeOf (graph (appWorld a)) i.
Proof.
  unfold autoInitOn. case_decide; [|done]. unfold initAudio.
  destruct (isReady _); [done|]. destruct ok; [|done]. unfold appWorld. simpl.
  split; [apply init_notes | intros i; apply init_start].
Qed.

Lemma autoInitOn_ready l a :
  l ∈ autoInit a -> isReady (appWorld (autoInitOn l true a)) = true.
Proof.
  intros Hin. unfold autoInitOn. rewrite decide_True by done.
  unfold initAudio, appWorld, isReady. simpl.
  destruct (isInitialized (audioEngine (InputHandler.world (session a)))) eqn:Hr;
    simpl; [done|].
  unfold init. by rewrite Hr.
Qed.

(** X12. The first key of a session makes no sound.  The listener of the
    input handler runs before the one that initialises the audio engine,
    so the [keydown] that starts the engine finds it not ready: no voice
    is created and no oscillator started, although the engine is ready
    afterwards.  The key then counts as down, so the repeated [keydown]s
    of holding it change nothing either. *)
Theorem first_key_is_silent (toLowerCase : string -> string) (key : string)
    (env : Env) (envs : list Env) (a : App) :
  isReady (appWorld a) = false ->
  exists a',
    play toLowerCase ((env, KeyDown key) :: ((fun e => (e, KeyDown key)) <$> envs)) a
    = Some a'
    /\ activeNotes (audioEngine (appWorld a')) = activeNotes (audioEngine (appWorld a))
    /\ (forall i, startTimeOf (graph (appWorld a')) i = startTimeOf (graph (appWorld a)) i)
    /\ (audioOk env = true -> OnKeydown ∈ autoInit a -> isReady (appWorld a') = true).
Proof.
  intros Hr. unfold isReady in Hr.
  set (a0 := onKeyboard (InputHandler.handleKeyDown toLowerCase (host env) key) a).
  set (a1 := autoInitOn OnKeydown (audioOk env) a0).
  assert (audioEngine (appWorld a0) = audioEngine (appWorld a)
          /\ graph (appWorld a0) = graph (appWorld a)
          /\ autoInit a0 = autoInit a) as (He0 & Hg0 & Hl0).
  { subst a0. unfold onKeyboard, appWorld in *.
    destruct (InputHandler.isInitialized _); [|done]. simpl.
    split; [|split; [|done]].
    - destruct (handleKeyDown_audio toLowerCase (host env) key (session a))
        as [(-> & _)|(midi & _ & _ & (-> & _))]; [done|].
      by rewrite playNote_not_ready.
    - destruct (handleKeyDown_audio toLowerCase (host env) key (session a))
        as [(_ & -> & _)|(midi & _ & _ & (_ & -> & _))]; [done|].
      by rewrite playNote_not_ready. }
  assert (forall env', dispatch toLowerCase env' (KeyDown key) a1 = Some a1) as Hfix.
  { intros env'. simpl. f_equal.
    assert (onKeyboard (InputHandler.handleKeyDown toLowerCase (host env') key) a1 = a1)
      as ->.
    { unfold onKeyboard.
      assert (InputHandler.handler (session a1) = InputHandler.handler (session a0)) as Hh.
      { subst a1. unfold autoInitOn. case_decide; [|done]. unfold initAudio.
        destruct (isReady _); [done|]. by destruct (audioOk env). }
      rewrite Hh.
      destruct (InputHandler.isInitialized (InputHandler.handler (session a0))) eqn:Hi;
        [|done].
      rewrite handleKeyDown_held; [by destruct a1|]. rewrite Hh.
      subst a0. unfold onKeyboard in *.
      destruct (InputHandler.isInitialized (InputHandler.handler (session a))) eqn:Hi';
        [|simpl in Hi; congruence].
      simpl. intros midi Hm.
      destruct (handleKeyDown_handler toLowerCase (host env) key (session a))
        as (Hk & _ & Hp).
      rewrite Hk in Hm. by apply (Hp midi). }
    subst a1. unfold autoInitOn at 1. rewrite decide_False; [done|].
    apply autoInitOn_consumes. }
  exists a1. split; [|split; [|split]].
  - rewrite play_cons. cbn [fst snd].
    change (dispatch toLowerCase env (KeyDown key) a) with (Some a1).
    induction envs as [|e envs IH]; [done|].
    rewrite fmap_cons, play_cons. cbn [fst snd]. by rewrite (Hfix e).
  - subst a1. by rewrite (proj1 (autoInitOn_audio _ _ _)), He0.
  - intros i. subst a1. by rewrite (proj2 (autoInitOn_audio _ _ _)), Hg0.
  - intros Hok Hin. subst a1. rewrite Hok. apply autoInitOn_ready. by rewrite Hl0.
Qed.

Lemma first_key_is_silent_witness :
  exists a',
    play demoLowerCase
      ((demoEnv, KeyDown "Q") :: ((fun e => (e, KeyDown "Q")) <$> [demoEnv; demoEnv]))
      (initApp demoPage demoControls) = Some a'
    /\ activeNotes (audioEngine (appWorld a'))
       = activeNotes (audioEngine (appWorld (initApp demoPage demoControls)))
    /\ (forall i, startTimeOf (graph (appWorld a')) i
                  = startTimeOf (graph (appWorld (initApp demoPage demoControls))) i)
    /\ (audioOk demoEnv = true ->
        OnKeydown ∈ autoInit (initApp demoPage demoControls) ->
        isReady (appWorld a') = true).
Proof.
  apply (first_key_is_silent demoLowerCase "Q" demoEnv [demoEnv; demoEnv]
           (initApp demoPage demoControls)).
  reflexivity.
Defined.

(** ** The recording controls *)

Lemma autoInitOn_controls l ok a : controls (autoInitOn l ok a) = controls a.
Proof.
  unfold autoInitOn. case_decide; [|done]. unfold initAudio.
  destruct (isReady _); [done|]. by destruct ok.
Qed.

Lemma autoInitOn_recorder l ok a :
  recordingSystem (appWorld (autoInitOn l ok a)) = recordingSystem (appWorld a).
Proof.
  unfold autoInitOn. case_decide; [|done]. unfold initAudio.
  destruct (isReady _); [done|]. destruct ok; [|done]. unfold appWorld. simpl.
  unfold init. destruct (isInitialized _); done.
Qed.

Lemma isRecording_startRecording w :
  isRecording (recordingSystem (startRecording w)) = true.
Proof.
  unfold startRecording. by destruct (isRecording (recordingSystem w)) eqn:Hi.
Qed.

Lemma stopClick_recording a :
  isRecording (recordingSystem (appWorld a)) = true ->
  exists a',
    stopClick a = Returned a'
    /\ appWorld a' = stopRecording (appWorld a)
    /\ stopBtnDisabled (controls a') = stopBtnDisabled (controls a).
Proof.
  intros Hr. unfold stopClick, stopRecordingResult. rewrite Hr. simpl.
  eexists. split; [reflexivity|]. by destruct (bool_decide _).
Qed.

Lemma stopClick_idle a :
  isRecording (recordingSystem (appWorld a)) = false ->
  exists a',
    stopClick a = Thrown a'
    /\ appWorld a' = appWorld a
    /\ recordBtnText (controls a') = "Record"
    /\ statusText (controls a') = statusText (controls a)
    /\ statusRecording (controls a') = statusRecording (controls a).
Proof.
  intros Hr. unfold stopClick, stopRecordingResult. rewrite Hr. simpl.
  eexists. split; [reflexivity|]. unfold appWorld in *. simpl.
  unfold stopRecording. by rewrite Hr.
Qed.

Lemma isRecording_stopRecording w :
  isRecording (recordingSystem (stopRecording w)) = false.
Proof.
  unfold stopRecording.
  destruct (isRecording (recordingSystem w)) eqn:Hi; simpl; [done | exact Hi].
Qed.

(** X13. The stop button outlives the take.  After a click on Record and
    a click on Stop the button is still enabled although nothing is being
    recorded; its handler then reads [length] of the [undefined] that
    [stopRecording] returns and throws, after resetting the record button
    and before touching the status line. *)
Theorem stop_button_throws_when_idle (toLowerCase : string -> string)
    (env1 env2 : Env) (a a1 a2 : App) :
  recordBtnDisabled (controls a) = false ->
  dispatch toLowerCase env1 (Click RecordBtn) a = Some a1 ->
  dispatch toLowerCase env2 (Click StopBtn) a1 = Some a2 ->
  stopBtnDisabled (controls a2) = false
  /\ isRecording (recordingSystem (appWorld a2)) = false
  /\ exists a3,
       stopClick a2 = Thrown a3
       /\ appWorld a3 = appWorld a2
       /\ recordBtnText (controls a3) = "Record"
       /\ statusText (controls a3) = statusText (controls a2)
       /\ statusRecording (controls a3) = statusRecording (controls a2).
Proof.
  intros Hen H1 H2. simpl in H1. rewrite Hen in H1. injection H1 as <-.
  simpl in H2. rewrite autoInitOn_controls in H2. simpl in H2. injection H2 as <-.
  match goal with |- context [stopClick ?x] => set (a1 := x) end.
  destruct (stopClick_recording a1) as (a2 & Heq & Hw & Hs).
  { subst a1. rewrite autoInitOn_recorder. unfold appWorld. simpl.
    apply isRecording_startRecording. }
  rewrite Heq. simpl. rewrite autoInitOn_controls, autoInitOn_recorder, Hw, Hs.
  pose proof (isRecording_stopRecording (appWorld a1)) as Hi.
  split; [subst a1; by rewrite autoInitOn_controls|]. split; [done|].
  destruct (stopClick_idle (autoInitOn OnClick (audioOk env2) a2)) as (a3 & -> & H3);
    [by rewrite autoInitOn_recorder, Hw|].
  exists a3. split; [done|]. rewrite !autoInitOn_controls in H3. exact H3.
Qed.

Definition demoRecording : App :=
  autoInitOn OnClick true (recordClick (initApp demoPage demoControls)).

Definition demoStopped : App :=
  autoInitOn OnClick true (after (stopClick demoRecording)).

Lemma stop_button_throws_when_idle_witness :
  stopBtnDisabled (controls demoStopped) = false
  /\ isRecording (recordingSystem (appWorld demoStopped)) = false
  /\ exists a3,
       stopClick demoStopped = Thrown a3
       /\ appWorld a3 = appWorld demoStopped
       /\ recordBtnText (controls a3) = "Record"
       /\ statusText (controls a3) = statusText (controls demoStopped)
       /\ statusRecording (controls a3) = statusRecording (controls demoStopped).
Proof.
  apply (stop_button_throws_when_idle demoLowerCase demoEnv demoEnv
           (initApp demoPage demoControls) demoRecording demoStopped); reflexivity.
Defined.

Lemma readFile_ok f items :
  readFile f = inr items <-> f = Parsed (DataWithEvents (JSArray items)).
Proof.
  destruct f as [| |data]; simpl; [split; done..|]. rewrite validate_ok.
  split; [by intros -> | by intros [= ->]].
Qed.

(** X14. Loading a take without events.  The file input reports 'Failed
    to load recording' exactly when the file does not hold a non-empty
    array of events.  For a well-formed file whose array is empty the
    load itself succeeds: the recording is replaced by the empty one and
    Play and Save are enabled before the handler throws on the [null] of
    [getRecordingInfo]; a click on Save then writes nothing and reports
    'Recording saved to file'. *)
Theorem load_of_empty_take_reports_failure (f : FileResult) (a : App) :
  (statusText (controls (loadChange (Some f) a)) = FailedToLoadRecording
   <-> forall items, f = Parsed (DataWithEvents (JSArray items)) -> items = [])
  /\ (f = Parsed (DataWithEvents (JSArray [])) ->
      recordedEvents (recordingSystem (appWorld (loadChange (Some f) a))) = []
      /\ playBtnDisabled (controls (loadChange (Some f) a)) = false
      /\ saveBtnDisabled (controls (loadChange (Some f) a)) = false
      /\ forall today,
           downloads (after (saveClick today (loadChange (Some f) a)))
           = downloads a
           /\ statusText (controls (after (saveClick today (loadChange (Some f) a))))
              = RecordingSavedToFile).
Proof.
  split.
  - unfold loadChange, loadRecording.
    destruct (readFile f) as [err|items] eqn:Hf; simpl.
    + split; [|done]. intros _ items Heq. apply readFile_ok in Heq. congruence.
    + apply readFile_ok in Hf as ->. unfold getRecordingInfo, hasRecording. simpl.
      destruct items as [|e items]; simpl.
      * split; [|done]. by intros _ items [= <-].
      * split; [done|]. intros H. by specialize (H _ eq_refl).
  - intros ->. unfold loadChange, loadRecording. simpl.
    repeat split.
Qed.

Lemma load_of_empty_take_reports_failure_witness :
  recordedEvents (recordingSystem (appWorld
    (loadChange (Some (Parsed (DataWithEvents (JSArray [])))) demoStopped))) = []
  /\ playBtnDisabled (controls
       (loadChange (Some (Parsed (DataWithEvents (JSArray [])))) demoStopped)) = false
  /\ saveBtnDisabled (controls
       (loadChange (Some (Parsed (DataWithEvents (JSArray [])))) demoStopped)) = false
  /\ forall today,
       downloads (after (saveClick today
         (loadChange (Some (Parsed (DataWithEvents (JSArray [])))) demoStopped)))
       = downloads demoStopped
       /\ statusText (controls (after (saveClick today
            (loadChange (Some (Parsed (DataWithEvents (JSArray [])))) demoStopped))))
          = RecordingSavedToFile.
Proof.
  apply (proj2 (load_of_empty_take_reports_failure
                  (Parsed (DataWithEvents (JSArray []))) demoStopped)).
  reflexivity.
Defined.

(** ** Two keys for one note *)

Lemma sameAudio_updateSpeakerIcon w : sameAudio w (updateSpeakerIcon w).
Proof. unfold updateSpeakerIcon. destruct (speakerIcon _); by repeat split. Qed.

Lemma sameAudio_sym w w' : sameAudio w w' -> sameAudio w' w.
Proof. intros (? & ? & ? & ? & ?). by repeat split. Qed.

Lemma sameAudio_update2 w w' :
  sameAudio w w' -> sameAudio (updateSpeakerIcon w) (updateSpeakerIcon w').
Proof.
  intros H. eapply sameAudio_trans; [apply sameAudio_sym, sameAudio_updateSpeakerIcon|].
  eapply sameAudio_trans; [exact H|]. apply sameAudio_updateSpeakerIcon.
Qed.

Lemma playNote_sameAudio h n v w w' :
  sameAudio w w' -> sameAudio (playNote h n v w) (playNote h n v w').
Proof.
  intros (He & Hg & Ht & Hc & Hn). unfold playNote. rewrite He, Hg, Hc.
  destruct (negb _); [by repeat split|]. destruct (mapHas _ _); [by repeat split|].
  destruct (tryBlock _ _ _) as [gr ok]. destruct ok.
  - apply sameAudio_update2. repeat split; simpl; congruence.
  - repeat split; simpl; congruence.
Qed.

Lemma stopNote_sameAudio h n w w' :
  sameAudio w w' -> sameAudio (stopNote h n w) (stopNote h n w').
Proof.
  intros (He & Hg & Ht & Hc & Hn). unfold stopNote. rewrite He, Hg, Hc.
  destruct (negb _); [by repeat split|].
  destruct (mapGet _ _) as [vm|]; [|by repeat split].
  destruct (tryBlock _ _ _) as [gr ok]. destruct ok.
  - repeat split; simpl; congruence.
  - apply sameAudio_update2. repeat split; simpl; congruence.
Qed.

Lemma handleKeyUp_audio lower h key s midi :
  InputHandler.strGet (lower key) (InputHandler.keyToMidi (InputHandler.handler s))
  = Some midi ->
  sameAudio (stopNote h midi (InputHandler.world s))
            (InputHandler.world (InputHandler.handleKeyUp lower h key s))
  /\ InputHandler.pressedKeys (InputHandler.handler (InputHandler.handleKeyUp lower h key s))
     = InputHandler.setDelete (lower key) (InputHandler.pressedKeys (InputHandler.handler s)).
Proof.
  intros Hk. unfold InputHandler.handleKeyUp. cbv zeta. rewrite Hk. split.
  - eapply sameAudio_trans; [|apply sameAudio_notifyRecorder].
    eapply sameAudio_trans; [|apply sameAudio_deactivateKey]. apply sameAudio_refl.
  - by rewrite handler_notifyRecorder, handler_deactivateKey.
Qed.

Lemma handleKeyDown_fresh lower h key s midi :
  InputHandler.strGet (lower key) (InputHandler.keyToMidi (InputHandler.handler s))
  = Some midi ->
  InputHandler.setHas (lower key) (InputHandler.pressedKeys (InputHandler.handler s))
  = false ->
  sameAudio (playNote h midi (1 # 2) (InputHandler.world s))
            (InputHandler.world (InputHandler.handleKeyDown lower h key s))
  /\ InputHandler.pressedKeys
       (InputHandler.handler (InputHandler.handleKeyDown lower h key s))
     = InputHandler.pressedKeys (InputHandler.handler s) ++ [lower key]
  /\ InputHandler.keyToMidi
       (InputHandler.handler (InputHandler.handleKeyDown lower h key s))
     = InputHandler.keyToMidi (InputHandler.handler s).
Proof.
  intros Hk Hp. unfold InputHandler.handleKeyDown. cbv zeta. rewrite Hk, Hp.
  split; [|split].
  - eapply sameAudio_trans; [|apply sameAudio_notifyRecorder].
    eapply sameAudio_trans; [|apply sameAudio_activateKey]. apply sameAudio_refl.
  - rewrite handler_notifyRecorder, handler_activateKey. simpl.
    unfold InputHandler.setAdd. rewrite decide_False; [done|].
    by apply bool_decide_eq_false in Hp.
  - by rewrite handler_notifyRecorder, handler_activateKey.
Qed.

Lemma playNote_fresh h n v w :
  isInitialized (audioEngine w) = true ->
  mapGet n (activeNotes (audioEngine w)) = None ->
  h (length (graph w)) = None ->
  mapGet n (activeNotes (audioEngine (playNote h n v w)))
  = Some (mkVoice (length (graph w)) (S (length (graph w))) (clock w))
  /\ isInitialized (audioEngine (playNote h n v w)) = true
  /\ oscAt (graph (playNote h n v w)) (length (graph w))
  /\ clock (playNote h n v w) = clock w
  /\ timers (playNote h n v w) = timers w
  /\ nextTimeoutId (playNote h n v w) = nextTimeoutId w.
Proof.
  intros Hi Hm Hh. apply mapHas_false in Hm as Hm'.
  destruct (sameAudio_updateSpeakerIcon
              (setActiveNotes
                 (mapSet n (mkVoice (length (graph w)) (S (length (graph w))) (clock w))
                    (activeNotes (audioEngine w)))
                 (activeNoteCount (audioEngine w) + 1)
                 (withGraph
                    (runAll (attackBlock (masterGain (audioEngine w)) (length (graph w))
                               n v (clock w)) (graph w)) w)))
    as (He & Hg & Ht & Hc & Hn).
  unfold playNote, tryBlock. rewrite Hi, Hm', Hh. cbn [negb]. cbv beta iota.
  rewrite He, Hg, Ht, Hc, Hn. cbn [audioEngine graph timers clock nextTimeoutId
    setActiveNotes withGraph withEngine activeNotes isInitialized].
  rewrite mapGet_mapSet, decide_True by done. repeat split; [done|].
  apply attackBlock_creates.
Qed.

(** X15. Two keys for one note.  The map binds several keys to the same
    note (Q, A and Z are all 60).  When two of them are pressed and the
    first is released, the note is released although the second key is
    still down: the oscillator is told to stop 150 ms later and the
    cleanup is scheduled, while [pressedKeys] still holds the second key. *)
Theorem shared_note_stops_at_first_release (toLowerCase : string -> string)
    (h1 h2 h3 : Host) (key1 key2 : string) (midi : Z) (s : InputHandler.Session) :
  let w := InputHandler.world s in
  let o := length (graph w) in
  let s' := InputHandler.handleKeyUp toLowerCase h3 key1
              (InputHandler.handleKeyDown toLowerCase h2 key2
                 (InputHandler.handleKeyDown toLowerCase h1 key1 s)) in
  toLowerCase key1 <> toLowerCase key2 ->
  InputHandler.strGet (toLowerCase key1) (InputHandler.keyToMidi (InputHandler.handler s))
  = Some midi ->
  InputHandler.strGet (toLowerCase key2) (InputHandler.keyToMidi (InputHandler.handler s))
  = Some midi ->
  InputHandler.setHas (toLowerCase key1) (InputHandler.pressedKeys (InputHandler.handler s))
  = false ->
  InputHandler.setHas (toLowerCase key2) (InputHandler.pressedKeys (InputHandler.handler s))
  = false ->
  isInitialized (audioEngine w) = true ->
  mapGet midi (activeNotes (audioEngine w)) = None ->
  h1 o = None -> h3 o = None ->
  InputHandler.setHas (toLowerCase key2)
    (InputHandler.pressedKeys (InputHandler.handler s')) = true
  /\ stopTimeOf (graph (InputHandler.world s')) o = Some (clock w + 150)
  /\ mkTimer (nextTimeoutId w) cleanupDelay (clock w + cleanupDelay)
             (ReleaseCleanup midi o (S o)) ∈ timers (InputHandler.world s').
Proof.
  intros w o s' Hne Hk1 Hk2 Hp1 Hp2 Hi Hm Hh1 Hh3.
  destruct (handleKeyDown_fresh toLowerCase h1 key1 s midi Hk1 Hp1) as (Ha1 & Hps1 & Hkm1).
  set (s1 := InputHandler.handleKeyDown toLowerCase h1 key1 s) in *.
  assert (InputHandler.setHas (toLowerCase key2)
            (InputHandler.pressedKeys (InputHandler.handler s1)) = false) as Hp2'.
  { rewrite Hps1. apply bool_decide_eq_false. apply bool_decide_eq_false in Hp2.
    intros [Hin|Hin%list_elem_of_singleton]%elem_of_app; [done | congruence]. }
  rewrite <- Hkm1 in Hk1, Hk2.
  destruct (handleKeyDown_fresh toLowerCase h2 key2 s1 midi Hk2 Hp2') as (Ha2 & Hps2 & Hkm2).
  set (s2 := InputHandler.handleKeyDown toLowerCase h2 key2 s1) in *.
  rewrite <- Hkm2 in Hk1.
  destruct (handleKeyUp_audio toLowerCase h3 key1 s2 midi Hk1) as (Ha3 & Hps3).
  fold s' in Ha3, Hps3.
  destruct (playNote_fresh h1 midi (1 # 2) w Hi Hm Hh1)
    as (Hget & Hi1 & Ho1 & Hc1 & Ht1 & Hn1).
  fold o in Hget, Ho1.
  set (w1 := playNote h1 midi (1 # 2) w) in *.
  assert (sameAudio w1 (InputHandler.world s2)) as Hw2.
  { eapply sameAudio_trans; [|exact Ha2].
    rewrite <- (playNote_active h2 midi (1 # 2) w1) at 1
      by (apply mapHas_true; eauto).
    by apply playNote_sameAudio. }
  assert (sameAudio (stopNote h3 midi w1) (InputHandler.world s')) as Hw3.
  { eapply sameAudio_trans; [|exact Ha3]. by apply stopNote_sameAudio. }
  destruct (stopNote_released h3 midi w1 _ Hi1 Hget Hh3 Ho1) as [Heq Hstop].
  destruct Hw3 as (_ & Hg3 & Ht3 & _). simpl in Hstop.
  split; [|split].
  - rewrite Hps3, Hps2, Hps1. apply bool_decide_eq_true.
    apply list_elem_of_filter. split; [congruence|].
    apply elem_of_app. right. left.
  - by rewrite Hg3, Hstop, Hc1.
  - rewrite Ht3, Heq. simpl. rewrite Ht1, Hn1, Hc1.
    apply elem_of_app. right. left.
Qed.

(** The handler of a page whose audio a click has started. *)
Definition demoReady : InputHandler.Session :=
  session (autoInitOn OnClick true (initApp demoPage demoControls)).

Lemma shared_note_stops_at_first_release_witness :
  InputHandler.setHas (demoLowerCase "A")
    (InputHandler.pressedKeys (InputHandler.handler
       (InputHandler.handleKeyUp demoLowerCase reliable "Q"
          (InputHandler.handleKeyDown demoLowerCase reliable "A"
             (InputHandler.handleKeyDown demoLowerCase reliable "Q" demoReady)))))
  = true
  /\ stopTimeOf (graph (InputHandler.world
       (InputHandler.handleKeyUp demoLowerCase reliable "Q"
          (InputHandler.handleKeyDown demoLowerCase reliable "A"
             (InputHandler.handleKeyDown demoLowerCase reliable "Q" demoReady)))))
       (length (graph (InputHandler.world demoReady)))
     = Some (clock (InputHandler.world demoReady) + 150)
  /\ mkTimer (nextTimeoutId (InputHandler.world demoReady)) cleanupDelay
             (clock (InputHandler.world demoReady) + cleanupDelay)
             (ReleaseCleanup 60 (length (graph (InputHandler.world demoReady)))
                             (S (length (graph (InputHandler.world demoReady)))))
     ∈ timers (InputHandler.world
         (InputHandler.handleKeyUp demoLowerCase reliable "Q"
            (InputHandler.handleKeyDown demoLowerCase reliable "A"
               (InputHandler.handleKeyDown demoLowerCase reliable "Q" demoReady)))).
Proof.
  apply (shared_note_stops_at_first_release demoLowerCase reliable reliable reliable
           "Q" "A" 60 demoReady); try reflexivity.
  discriminate.
Defined.

(** ** The pointer *)

Lemma keys_updateSpeakerIcon w : keys (page (updateSpeakerIcon w)) = keys (page w).
Proof. unfold updateSpeakerIcon. by destruct (speakerIcon _). Qed.

Lemma keys_playNote h n v w : keys (page (playNote h n v w)) = keys (page w).
Proof.
  unfold playNote. destruct (negb _); [done|]. destruct (mapHas _ _); [done|].
  split_try; [by rewrite keys_updateSpeakerIcon | done].
Qed.

Lemma keys_stopNote h n w : keys (page (stopNote h n w)) = keys (page w).
Proof.
  unfold stopNote. destruct (negb _); [done|]. destruct (mapGet _ _); [|done].
  split_try; [done | by rewrite keys_updateSpeakerIcon].
Qed.

Lemma keys_stopAllNotes h w : keys (page (stopAllNotes h w)) = keys (page w).
Proof.
  unfold stopAllNotes. destruct (negb _); [done|]. rewrite keys_updateSpeakerIcon. simpl.
  by destruct (panic_frame h (clock w) (activeNotes (audioEngine w)) w)
    as (_ & _ & _ & ->).
Qed.

Lemma keys_recordEvent e w : keys (page (recordEvent e w)) = keys (page w).
Proof. unfold recordEvent. by destruct (negb _). Qed.

Lemma keys_notifyRecorder ty n v s :
  keys (page (InputHandler.world (InputHandler.notifyRecorder ty n v s)))
  = keys (page (InputHandler.world s)).
Proof.
  unfold InputHandler.notifyRecorder. destruct (InputHandler.recorderCallback _); [|done].
  apply keys_recordEvent.
Qed.

(** The class [active] of element [el], if the page has it. *)
Definition activeAt (w : World) (el : nat) : option bool := snd <$> keys (page w) !! el.

Lemma activeAt_setActive el b w :
  is_Some (keys (page w) !! el) -> activeAt (InputHandler.setActive el b w) el = Some b.
Proof.
  intros [k Hk]. unfold activeAt, InputHandler.setActive. simpl.
  by rewrite list_lookup_alter_eq, Hk.
Qed.

(** X16. The pointer is debounced by the class [active].  On the element
    that [midiToKeyElement] holds for its note, a second pointer-down
    changes nothing, and a second pointer-up (the [mouseleave] after a
    [mouseup]) changes nothing: no second voice, no second release, no
    second recorded event. *)
Theorem pointer_events_do_not_repeat (h h' : Host) (midi : Z) (el : nat)
    (s : InputHandler.Session) :
  mapGet midi (InputHandler.midiToKeyElement (InputHandler.handler s)) = Some el ->
  is_Some (keys (page (InputHandler.world s)) !! el) ->
  InputHandler.handlePointerDown h' midi el (InputHandler.handlePointerDown h midi el s)
  = InputHandler.handlePointerDown h midi el s
  /\ InputHandler.handlePointerUp h' midi el (InputHandler.handlePointerUp h midi el s)
     = InputHandler.handlePointerUp h midi el s.
Proof.
  intros Hel [[n b] Hk]. split.
  - unfold InputHandler.handlePointerDown at 2. rewrite Hk.
    destruct b; [unfold InputHandler.handlePointerDown; by rewrite Hk|].
    unfold InputHandler.handlePointerDown. rewrite keys_notifyRecorder.
    unfold InputHandler.activateKey at 1 3. simpl. rewrite Hel. simpl.
    rewrite list_lookup_alter_eq, keys_playNote, Hk. done.
  - unfold InputHandler.handlePointerUp at 2. rewrite Hk.
    destruct b; [|unfold InputHandler.handlePointerUp; by rewrite Hk].
    unfold InputHandler.handlePointerUp. rewrite keys_notifyRecorder.
    unfold InputHandler.deactivateKey at 1 3. simpl. rewrite Hel. simpl.
    rewrite list_lookup_alter_eq, keys_stopNote, Hk. done.
Qed.

Lemma pointer_events_do_not_repeat_witness :
  InputHandler.handlePointerDown reliable 60 0
    (InputHandler.handlePointerDown reliable 60 0 demoReady)
  = InputHandler.handlePointerDown reliable 60 0 demoReady
  /\ InputHandler.handlePointerUp reliable 60 0
       (InputHandler.handlePointerUp reliable 60 0 demoReady)
     = InputHandler.handlePointerUp reliable 60 0 demoReady.
Proof.
  apply (pointer_events_do_not_repeat reliable reliable 60 0 demoReady).
  - reflexivity.
  - by eexists.
Defined.

(** ** Stopping everything from the keyboard side *)

Lemma deactivateKey_frame n s :
  InputHandler.handler (InputHandler.deactivateKey n s) = InputHandler.handler s
  /\ sameAudio (InputHandler.world s) (InputHandler.world (InputHandler.deactivateKey n s))
  /\ recordingSystem (InputHandler.world (InputHandler.deactivateKey n s))
     = recordingSystem (InputHandler.world s)
  /\ (forall el, activeAt (InputHandler.world s) el = Some false ->
        activeAt (InputHandler.world (InputHandler.deactivateKey n s)) el = Some false)
  /\ (forall el,
        mapGet n (InputHandler.midiToKeyElement (InputHandler.handler s)) = Some el ->
        is_Some (keys (page (InputHandler.world s)) !! el) ->
        activeAt (InputHandler.world (InputHandler.deactivateKey n s)) el = Some false)
  /\ (forall el, is_Some (keys (page (InputHandler.world (InputHandler.deactivateKey n s))) !! el)
        <-> is_Some (keys (page (InputHandler.world s)) !! el)).
Proof.
  split; [apply handler_deactivateKey|]. split; [apply sameAudio_deactivateKey|].
  unfold InputHandler.deactivateKey.
  destruct (mapGet n _) as [el0|]; [|by split; [|split]]. simpl.
  split; [done|]. split; [|split].
  - intros el Hf. unfold activeAt, InputHandler.setActive in *. simpl.
    rewrite list_lookup_alter. case_decide; [subst|done].
    destruct (keys _ !! _); by simplify_eq/=.
  - intros el [= ->] Hs. by apply activeAt_setActive.
  - intros el. rewrite list_lookup_alter. case_decide; [subst|done].
    by rewrite fmap_is_Some.
Qed.

Lemma deactivateAll_frame ns s :
  let s' := foldl (fun acc midi => InputHandler.deactivateKey midi acc) s ns in
  InputHandler.handler s' = InputHandler.handler s
  /\ sameAudio (InputHandler.world s) (InputHandler.world s')
  /\ recordingSystem (InputHandler.world s') = recordingSystem (InputHandler.world s)
  /\ (forall el, activeAt (InputHandler.world s) el = Some false ->
        activeAt (InputHandler.world s') el = Some false)
  /\ (forall n el, n ∈ ns ->
        mapGet n (InputHandler.midiToKeyElement (InputHandler.handler s)) = Some el ->
        is_Some (keys (page (InputHandler.world s)) !! el) ->
        activeAt (InputHandler.world s') el = Some false).
Proof.
  revert s. induction ns as [|n ns IH]; intros s; simpl.
  { split; [done|]. split; [apply sameAudio_refl|]. split; [done|]. split; [done|].
    by intros n el ?%elem_of_nil. }
  destruct (deactivateKey_frame n s) as (Hh & Ha & Hr & Hkeep & Hset & Hsome).
  destruct (IH (InputHandler.deactivateKey n s)) as (Hh' & Ha' & Hr' & Hkeep' & Hset').
  split; [congruence|]. split; [by eapply sameAudio_trans|]. split; [congruence|].
  split; [auto|].
  intros m el [->|Hin]%elem_of_cons Hm Hs.
  - apply Hkeep'. by apply Hset.
  - apply (Hset' m el Hin); [by rewrite Hh | by apply Hsome].
Qed.

Lemma mapGet_key {V} (n : Z) (v : V) (m : list (Z * V)) : mapGet n m = Some v -> n ∈ m.*1.
Proof.
  induction m as [|[k v'] m IH]; simpl; [done|].
  case_decide; [subst; intros _; left | intros ?; right; auto].
Qed.

(** X17. [InputHandler.stopAllNotes] takes the class [active] off every
    key element it holds in [midiToKeyElement] and empties the engine as
    [stopAllNotes] of the engine does; it leaves [pressedKeys] and the
    recorder as they are. *)
Theorem handler_stopAllNotes_clears_keys (h : Host) (s : InputHandler.Session) :
  (forall midi el,
     mapGet midi (InputHandler.midiToKeyElement (InputHandler.handler s)) = Some el ->
     is_Some (keys (page (InputHandler.world s)) !! el) ->
     activeAt (InputHandler.world (InputHandler.stopAllNotes h s)) el = Some false)
  /\ (isInitialized (audioEngine (InputHandler.world s)) = true ->
      activeNotes (audioEngine (InputHandler.world (InputHandler.stopAllNotes h s))) = [])
  /\ InputHandler.pressedKeys (InputHandler.handler (InputHandler.stopAllNotes h s))
     = InputHandler.pressedKeys (InputHandler.handler s)
  /\ recordingSystem (InputHandler.world (InputHandler.stopAllNotes h s))
     = recordingSystem (InputHandler.world s).
Proof.
  unfold InputHandler.stopAllNotes.
  destruct (deactivateAll_frame
              (InputHandler.midiToKeyElement (InputHandler.handler s)).*1 s)
    as (Hh & (He & _) & Hr & _ & Hset).
  cbv zeta in *. simpl. split; [|split; [|split]].
  - intros midi el Hm Hs. unfold activeAt. rewrite keys_stopAllNotes.
    apply (Hset midi el); [by apply (mapGet_key _ el) | done..].
  - intros Hi. rewrite stopAllNotes_engine, He, Hi. done.
  - by rewrite Hh.
  - by rewrite stopAllNotes_recorder.
Qed.

(** ** The first engine, for comparison *)

(** The first edition already ignores a note-on for a sounding note. *)
Lemma qwertica_playNote_active h n v s :
  mapHas n (Qwertica.activeNotes (Qwertica.engine s)) = true ->
  Qwertica.playNote h n v s = Qwertica.Returned s.
Proof.
  intros Hh. unfold Qwertica.playNote. rewrite Hh.
  by destruct (Qwertica.isInitialized (Qwertica.engine s)).
Qed.

Definition qwerticaChord : Qwertica.State :=
  Qwertica.after (Qwertica.playNote reliable 62 (1 # 2)
    (Qwertica.after (Qwertica.playNote reliable 60 (1 # 2)
       (Qwertica.init true Qwertica.boot)))).

(** Its [stopAllNotes] only starts the releases: both entries are still in
    the map when it returns, and leave it one timer at a time. *)
Example qwertica_stopAllNotes_defers :
  (Qwertica.activeNotes (Qwertica.engine
     (Qwertica.stopAllNotes reliable qwerticaChord))).*1 = [60; 62]
  /\ (Qwertica.activeNotes (Qwertica.engine
        (Qwertica.fireDeletion
           (Qwertica.stopAllNotes reliable qwerticaChord)))).*1 = [62].
Proof. split; reflexivity. Qed.

(** Its cleanup does not look at the voice.  A release is scheduled; a
    second release throws and removes the entry at once; the note is struck
    again; then the first cleanup fires and removes the new voice, whose
    oscillator has never been told to stop. *)
Definition qwerticaRestrike : Qwertica.State :=
  Qwertica.after (Qwertica.playNote reliable 60 (1 # 2)
    (Qwertica.elapse 50
       (Qwertica.stopNote (fun _ => Some 0%nat) 60
          (Qwertica.elapse 50
             (Qwertica.stopNote reliable 60
                (Qwertica.after (Qwertica.playNote reliable 60 (1 # 2)
                   (Qwertica.init true Qwertica.boot)))))))).

Example qwertica_cleanup_deletes_newer :
  mapGet 60 (Qwertica.activeNotes (Qwertica.engine qwerticaRestrike))
  = Some (Qwertica.mkNote 4 5)
  /\ Qwertica.activeNotes (Qwertica.engine (Qwertica.fireDeletion qwerticaRestrike)) = []
  /\ stopTimeOf (Qwertica.graph (Qwertica.fireDeletion qwerticaRestrike)) 4 = None
  /\ outputOf (Qwertica.graph (Qwertica.fireDeletion qwerticaRestrike)) 4 = Some 5%nat.
Proof. repeat split; reflexivity. Qed.

Lemma qwertica_mapGet_elem {V} (n : Z) (m : list (Z * V)) :
  n ∈ m.*1 -> exists v, mapGet n m = Some v.
Proof.
  induction m as [|[k v] m IH]; simpl; [by intros ?%elem_of_nil|].
  intros [->|Hin]%elem_of_cons; [rewrite decide_True by done; eauto|].
  case_decide; eauto.
Qed.

Lemma qwertica_stopNote_reliable n s v :
  Qwertica.isInitialized (Qwertica.engine s) = true ->
  mapGet n (Qwertica.activeNotes (Qwertica.engine s)) = Some v ->
  Qwertica.engine (Qwertica.stopNote reliable n s) = Qwertica.engine s
  /\ Qwertica.clock (Qwertica.stopNote reliable n s) = Qwertica.clock s
  /\ Qwertica.deletions (Qwertica.stopNote reliable n s)
     = Qwertica.deletions s ++ [(Qwertica.clock s + 400, n)].
Proof. intros Hi Hg. unfold Qwertica.stopNote. by rewrite Hi, Hg. Qed.

Lemma qwertica_stopLoop ks s :
  Qwertica.isInitialized (Qwertica.engine s) = true ->
  (forall k, k ∈ ks -> k ∈ (Qwertica.activeNotes (Qwertica.engine s)).*1) ->
  Qwertica.engine (foldl (fun acc midi => Qwertica.stopNote reliable midi acc) s ks)
  = Qwertica.engine s
  /\ Qwertica.deletions
       (foldl (fun acc midi => Qwertica.stopNote reliable midi acc) s ks)
     = Qwertica.deletions s ++ ((fun k => (Qwertica.clock s + 400, k)) <$> ks).
Proof.
  revert s. induction ks as [|k ks IH]; intros s Hi Hks; simpl.
  { by rewrite app_nil_r. }
  destruct (qwertica_mapGet_elem k _ (Hks k (list_elem_of_here _ _))) as [v Hv].
  destruct (qwertica_stopNote_reliable k s v Hi Hv) as (He & Hc & Hd).
  destruct (IH (Qwertica.stopNote reliable k s)) as [IH1 IH2].
  - by rewrite He.
  - intros k' Hk'. rewrite He. apply Hks. by right.
  - rewrite IH1, IH2, He, Hc, Hd, <- app_assoc. done.
Qed.

(** X8. The first engine's [stopAllNotes] is a loop of [stopNote]: when no
    release throws it removes nothing from [activeNotes] by itself; it
    schedules one deletion per held note, 400 ms ahead, and until those
    fire a further note-on for any of these notes is ignored. *)
Theorem qwertica_stopAllNotes_keeps_entries (s : Qwertica.State) :
  Qwertica.isInitialized (Qwertica.engine s) = true ->
  Qwertica.activeNotes (Qwertica.engine (Qwertica.stopAllNotes reliable s))
  = Qwertica.activeNotes (Qwertica.engine s)
  /\ Qwertica.deletions (Qwertica.stopAllNotes reliable s)
     = Qwertica.deletions s
         ++ ((fun k => (Qwertica.clock s + 400, k))
               <$> (Qwertica.activeNotes (Qwertica.engine s)).*1)
  /\ forall h n v,
       n ∈ (Qwertica.activeNotes (Qwertica.engine s)).*1 ->
       Qwertica.playNote h n v (Qwertica.stopAllNotes reliable s)
       = Qwertica.Returned (Qwertica.stopAllNotes reliable s).
Proof.
  intros Hi. unfold Qwertica.stopAllNotes.
  destruct (qwertica_stopLoop (Qwertica.activeNotes (Qwertica.engine s)).*1 s Hi)
    as [He Hd]; [done|].
  rewrite He. split; [done|]. split; [done|].
  intros h n v Hn. unfold Qwertica.playNote. rewrite He, Hi. simpl.
  destruct (qwertica_mapGet_elem n _ Hn) as [x Hx]. unfold mapHas. by rewrite Hx.
Qed.

Lemma qwertica_stopAllNotes_keeps_entries_witness :
  (Qwertica.activeNotes (Qwertica.engine (Qwertica.stopAllNotes reliable qwerticaChord))).*1
  = [60; 62]
  /\ (Qwertica.deletions (Qwertica.stopAllNotes reliable qwerticaChord))
     = [(400, 60); (400, 62)].
Proof.
  destruct (qwertica_stopAllNotes_keeps_entries qwerticaChord) as (H1 & H2 & _).
  - reflexivity.
  - rewrite H1, H2. split; reflexivity.
Defined.
